(** * Neighbor joining, rooting, tree assembly and Newick output

    A shallow embedding of [cmcm2019/contracts.py]: the reducer
    [neighbor_join], the root insertion of [main] (lines 180-194),
    [assemble_tree] and [generate_newick], with the properties of the
    pipeline proved about them.

    Modelling choices.
    - A Python [float] is an IEEE binary64 number: Rocq's primitive
      [float].  The integer entries a caller may put in the table ([0] on
      the diagonal, say) are read as the floats they convert to, which is
      what every arithmetic operation of the source does with them.
    - The distance table [d] is a dict of dicts: a [gmap nat (gmap nat
      float)].  Rows are distinct objects, as [main] builds them.
    - A raised exception is a value of [exn]; statements run in the
      [result] monad, so that a failed lookup ends the computation the
      way the exception does.
    - The [while] loop runs on a counter.  [neighbor_join] starts it at
      [len(d)], which is enough on every table ([neighbor_join_fuel]):
      the counter never decides a result.  The two recursive functions
      take as their counter the depth of calls the interpreter allows,
      and raise [RecursionError] when it is used up, as Python does. *)

From Stdlib Require Import ZArith Uint63 Floats Ascii String DecimalString.
From Stdlib Require Import DecimalN.
From Stdlib Require QArith Qabs.
From stdpp Require Import gmap list fin_maps sorting strings.

Local Open Scope nat_scope.

(** ** Exceptions and the result monad *)

Inductive exn : Type :=
  | KeyError
  | IndexError
  | ValueError
  | ZeroDivisionError
  | RecursionError
  | LoopFuel.

Inductive result (A : Type) : Type :=
  | Ok (a : A)
  | Raise (e : exn).
Arguments Ok {A} a.
Arguments Raise {A} e.

#[global] Instance result_ret : MRet result := fun A a => Ok a.

#[global] Instance result_bind : MBind result := fun A B f m =>
  match m with
  | Ok a => f a
  | Raise e => Raise e
  end.

#[global] Instance result_fmap : FMap result := fun A B f m =>
  match m with
  | Ok a => Ok (f a)
  | Raise e => Raise e
  end.

Definition of_option {A : Type} (e : exn) (o : option A) : result A :=
  match o with
  | Some a => Ok a
  | None => Raise e
  end.

(** [for x in l: acc = f acc x], stopping at the first exception. *)
Fixpoint foldM {A B : Type} (f : A → B → result A) (a : A) (l : list B)
  : result A :=
  match l with
  | [] => Ok a
  | x :: l' => a' ← f a x; foldM f a' l'
  end.

(** ** Numbers *)

(** The float an [int] converts to (exact below [2^53]). *)
Definition of_int (z : Z) : float :=
  match z with
  | Z0 => 0%float
  | Zpos _ => PrimFloat.of_uint63 (Uint63.of_Z z)
  | Zneg p => (- PrimFloat.of_uint63 (Uint63.of_Z (Zpos p)))%float
  end.

(** [x / n] for a float [x] and an int [n]. *)
Definition div_int (x : float) (n : Z) : result float :=
  if decide (n = 0%Z) then Raise ZeroDivisionError
  else Ok (x / of_int n)%float.

Definition half : float := (1 / 2)%float.

(** ** The distance table *)

Abbreviation row := (gmap nat float).
Abbreviation store := (gmap nat (gmap nat float)).

(** [d[i][j]] *)
Definition getd (d : store) (i j : nat) : result float :=
  ro ← of_option KeyError (d !! i);
  of_option KeyError (ro !! j).

(** [d[i][j] = v]: the row must exist, the entry need not. *)
Definition setd (d : store) (i j : nat) (v : float) : result store :=
  ro ← of_option KeyError (d !! i);
  Ok (<[i := <[j := v]> ro]> d).

(** [{i: 0 for i in l}] *)
Definition zero_row (l : list nat) : row :=
  list_to_map ((fun i => (i, 0%float)) <$> l).

(** ** neighbor_join *)

Definition edge : Type := nat * nat.

Record state : Type := State {
  st_L : list nat;
  st_edges : list edge;
  st_d : store;
  st_k : nat
}.

(** Lines 23-28: [r = {i: 0 for i in range(k)}], then
    [r[i] += d[i][j] / (len(L) - 2)] for [i in range(k)], [j in L]. *)
Definition averages (d : store) (L : list nat) (k : nat) : result row :=
  foldM (fun r i =>
    foldM (fun r j =>
      ri ← of_option KeyError (r !! i);
      x ← getd d i j;
      q ← div_int x (Z.of_nat (length L) - 2);
      Ok (<[i := (ri + q)%float]> r)) r L)
    (zero_row (seq 0 k)) (seq 0 k).

(** Lines 22 and 30-32: [D[i][j] = d[i][j] - (r[i] + r[j])] for [i], [j]
    in [L], over the table of zeros [{i: {j: 0 for j in L} for i in L}]. *)
Definition adjusted (d : store) (r : row) (L : list nat) : result store :=
  foldM (fun D i =>
    foldM (fun D j =>
      x ← getd d i j;
      ri ← of_option KeyError (r !! i);
      rj ← of_option KeyError (r !! j);
      setd D i j (x - (ri + rj))%float) D L)
    (list_to_map ((fun i => (i, zero_row L)) <$> L)) L.

(** Lines 35-43: the scan for the smallest entry of [D]. *)
Definition scan_step (D : store) (acc : nat * nat * float) (i j : nat)
  : result (nat * nat * float) :=
  let '(i_min, j_min, min_val) := acc in
  if decide (i = j) then Ok acc
  else
    x ← getd D i j;
    if (x <? min_val)%float then Ok (i, j, x) else Ok acc.

Definition find_min (D : store) (L : list nat) : result (nat * nat) :=
  i_min ← of_option IndexError (L !! 0);
  j_min ← of_option IndexError (L !! 1);
  min_val ← getd D i_min j_min;
  '(i_min, j_min, _) ←
      foldM (fun acc i => foldM (fun acc j => scan_step D acc i j) acc L)
            (i_min, j_min, min_val) L;
  Ok (i_min, j_min).

(** [l.remove(x)]: the first occurrence goes, [ValueError] without one. *)
Fixpoint list_remove {A : Type} `{EqDecision A} (x : A) (l : list A)
  : result (list A) :=
  match l with
  | [] => Raise ValueError
  | y :: l' =>
      if decide (x = y) then Ok l'
      else l'' ← list_remove x l'; Ok (y :: l'')
  end.

(** Lines 55-57: one round of [for m in d[k]]. *)
Definition join_row (i_min j_min k : nat) (d : store) (m : nat)
  : result store :=
  a ← getd d i_min m;
  b ← getd d j_min m;
  c ← getd d i_min j_min;
  d ← setd d k m (half * (a + b - c))%float;
  v ← getd d k m;
  setd d m k v.

(** Lines 53-65: the table grows by the node [k]. *)
Definition extend (d : store) (r : row) (i_min j_min k : nat)
  : result store :=
  let d := <[k := zero_row (seq 0 (k + 1))]> d in
  d ← foldM (join_row i_min j_min k) d (seq 0 (k + 1));
  dij ← getd d i_min j_min;
  ri ← of_option KeyError (r !! i_min);
  rj ← of_option KeyError (r !! j_min);
  d ← setd d i_min k (half * (dij + ri - rj))%float;
  dij ← getd d i_min j_min;
  dik ← getd d i_min k;
  d ← setd d j_min k (dij - dik)%float;
  dik ← getd d i_min k;
  d ← setd d k i_min dik;
  djk ← getd d j_min k;
  d ← setd d k j_min djk;
  setd d k k 0%float.

(** Lines 22-43: what one iteration selects. *)
Definition select (s : state) : result (nat * nat * row) :=
  r ← averages (st_d s) (st_L s) (st_k s);
  D ← adjusted (st_d s) r (st_L s);
  '(i_min, j_min) ← find_min D (st_L s);
  Ok (i_min, j_min, r).

(** Lines 21-67: the body of the loop. *)
Definition nj_step (s : state) : result state :=
  '(i_min, j_min, r) ← select s;
  let k := st_k s in
  let edges := st_edges s ++ [(i_min, k); (j_min, k)] in
  L ← list_remove i_min (st_L s);
  L ← list_remove j_min L;
  let L := L ++ [k] in
  d ← extend (st_d s) r i_min j_min k;
  Ok (State L edges d (k + 1)).

(** Line 20: [while len(L) > 2]. *)
Fixpoint nj_loop (fuel : nat) (s : state) : result state :=
  if decide (2 < length (st_L s)) then
    match fuel with
    | 0 => Raise LoopFuel
    | S fuel' => s' ← nj_step s; nj_loop fuel' s'
    end
  else Ok s.

Definition nj_init (d : store) : state :=
  State (seq 0 (size d)) [] d (size d).

(** Lines 69-72: the last edge, and what is returned. *)
Definition nj_finish (s : state) : result (list edge * store) :=
  a ← of_option IndexError (st_L s !! 0);
  b ← of_option IndexError (st_L s !! 1);
  Ok (st_edges s ++ [(a, b)], st_d s).

Definition neighbor_join (d : store) : result (list edge * store) :=
  s ← nj_loop (size d) (nj_init d);
  nj_finish s.

(** ** The root: lines 180-194 of [main] *)

(** Lines 181-188: the scan for the longest edge. *)
Definition max_step (d : store) (acc : float * nat * nat) (e : edge)
  : result (float * nat * nat) :=
  w ← getd d e.1 e.2;
  if (acc.1.1 <? w)%float then w' ← getd d e.1 e.2; Ok (w', e.1, e.2)
  else Ok acc.

Definition find_max (edges : list edge) (d : store)
  : result (float * nat * nat) :=
  foldM (max_step d) (0%float, 0, 0) edges.

(** Lines 181-194: the longest edge makes room for the root. *)
Definition insert_root (edges : list edge) (d : store)
  : result (nat * list edge) :=
  '(_, i_max, j_max) ← find_max edges d;
  let root := size d in
  edges ← list_remove (i_max, j_max) edges;
  Ok (root, edges ++ [(i_max, root); (j_max, root)]).

(** ** assemble_tree *)

Abbreviation tree := (gmap nat (list nat)).

(** Lines 87-97: the neighbours of [root], and the edges away from it. *)
Definition split_edges (root : nat) (edges : list edge)
  : list nat * list edge :=
  fold_left (fun acc e =>
    if decide (e.1 = root) then (acc.1 ++ [e.2], acc.2)
    else if decide (e.2 = root) then (acc.1 ++ [e.1], acc.2)
    else (acc.1, acc.2 ++ [e])) edges ([], []).

(** [tree_map.update(other)] is [other ∪ tree_map]: the keys of [other]
    win.  [limit] is the depth the interpreter still allows. *)
Fixpoint assemble_tree (limit : nat) (root : nat) (edges : list edge)
  : result tree :=
  match limit with
  | 0 => Raise RecursionError
  | S limit' =>
      let children := (split_edges root edges).1 in
      let new_edges := (split_edges root edges).2 in
      foldM (fun tree_map child =>
               sub ← assemble_tree limit' child new_edges;
               Ok (sub ∪ tree_map))
            {[root := children]} children
  end.

(** ** generate_newick *)

(** [str(n)] *)
Definition str (n : nat) : string := NilZero.string_of_uint (Nat.to_uint n).

Definition digit (n : Z) : string :=
  String (ascii_of_N (48 + Z.to_N n)) EmptyString.

(** The integer nearest to [num / den], the even one of two. *)
Definition round_half_even (num den : Z) : Z :=
  let q := (num / den)%Z in
  match (2 * (num mod den) ?= den)%Z with
  | Lt => q
  | Gt => (q + 1)%Z
  | Eq => if Z.even q then q else (q + 1)%Z
  end.

(** The six digits of [v], a number below [10^6]. *)
Definition frac6 (v : Z) : string :=
  digit (v / 100000 mod 10) +:+ digit (v / 10000 mod 10)
  +:+ digit (v / 1000 mod 10) +:+ digit (v / 100 mod 10)
  +:+ digit (v / 10 mod 10) +:+ digit (v mod 10).

(** ['{:.6f}'.format(x)]: the decimal with six digits after the point
    that is nearest to [x], the even one of two. *)
Definition format_6f (x : float) : string :=
  match Prim2SF x with
  | S754_nan => "nan"
  | S754_infinity s => if s then "-inf" else "inf"
  | S754_zero s => (if s then "-" else "") +:+ "0.000000"
  | S754_finite s m e =>
      let n :=
        match e with
        | Zneg p => round_half_even (Zpos m * 1000000) (2 ^ Zpos p)
        | _ => (Zpos m * 2 ^ e * 1000000)%Z
        end in
      (if s then "-" else "")
      +:+ NilZero.string_of_uint (N.to_uint (Z.to_N (n / 1000000)))
      +:+ "." +:+ frac6 (n mod 1000000)
  end.

(** ["({}:{:.6f},{}:{:.6f})".format(ti, li, tj, lj)] *)
Definition node_format (ti : string) (li : float) (tj : string) (lj : float)
  : string :=
  "(" +:+ ti +:+ ":" +:+ format_6f li +:+ "," +:+ tj +:+ ":" +:+ format_6f lj
  +:+ ")".

(** Lines 141-163.  [limit] is the depth the interpreter still allows. *)
Fixpoint generate_newick (limit : nat) (root : nat) (tree_map : tree)
    (d : store) (mapping : option (gmap nat string)) (first : bool)
  : result string :=
  match limit with
  | 0 => Raise RecursionError
  | S limit' =>
      children ← of_option KeyError (tree_map !! root);
      match children with
      | [] =>
          match mapping with
          | Some names => of_option KeyError (names !! root)
          | None => Ok (str root)
          end
      | [i; j] =>
          i_length ← (if first then x ← getd d i j; div_int x 2
                      else getd d root i);
          j_length ← (if first then x ← getd d i j; div_int x 2
                      else getd d root j);
          ti ← generate_newick limit' i tree_map d mapping false;
          tj ← generate_newick limit' j tree_map d mapping false;
          let output := node_format ti i_length tj j_length in
          Ok (if first then output +:+ ";" else output)
      | _ => Raise ValueError
      end
  end.

(** ** bfs *)

(** Lines 118-126: the loop on the queue. *)
Fixpoint bfs_loop (fuel : nat) (tree_map : tree) (visited queue : list nat)
  : result (list nat) :=
  match queue with
  | [] => Ok visited
  | node :: queue =>
      match fuel with
      | 0 => Raise LoopFuel
      | S fuel' =>
          if decide (node ∈ visited) then bfs_loop fuel' tree_map visited queue
          else
            neighbours ← of_option KeyError (tree_map !! node);
            bfs_loop fuel' tree_map (visited ++ [node]) (queue ++ neighbours)
      end
  end.

(** The number of children in the whole map. *)
Definition children_count (tree_map : tree) : nat :=
  sum_list_with (fun kv : nat * list nat => length kv.2) (map_to_list tree_map).

(** Lines 114-128.  The loop takes an id off the queue at each round;
    one more than the number of children in the map is as many rounds
    as it can do ([bfs_loop_spec]). *)
Definition bfs (root : nat) (tree_map : tree) : result (list nat) :=
  bfs_loop (S (children_count tree_map)) tree_map [] [root].

(** ** The table of [main] *)

Abbreviation point := (Z * Z)%type.

(** Line 176: [np.sqrt((p[0] - q[0])**2 + (p[1] - q[1])**2)], the
    coordinates being integers. *)
Definition distance (p q : point) : float :=
  PrimFloat.sqrt (of_int ((p.1 - q.1) ^ 2 + (p.2 - q.2) ^ 2)).

(** Lines 173-176: [d = {i: {} for i in range(n)}], filled entry by
    entry. *)
Definition distance_table (n : nat) (points : list point) : result store :=
  foldM (fun d i =>
    foldM (fun d j =>
      p ← of_option IndexError (points !! i);
      q ← of_option IndexError (points !! j);
      setd d i j (distance p q)) d (seq 0 n))
    (list_to_map ((fun i => (i, ∅)) <$> seq 0 n)) (seq 0 n).

(** ** Tables of the examples *)

(** The table with entries [f i j] over the ids [0..n-1]. *)
Definition table (n : nat) (f : nat → nat → float) : store :=
  list_to_map ((fun i => (i, list_to_map ((fun j => (j, f i j)) <$> seq 0 n)))
                 <$> seq 0 n).

(** Four leaves in two close pairs: [d[0][1] = d[2][3] = 1], the other
    distances are [10]. *)
Definition two_pairs : store :=
  table 4 (fun i j =>
    if decide (i = j) then 0%float
    else if decide (i `div` 2 = j `div` 2) then 1%float else 10%float).

(** Three leaves at distance zero of one another. *)
Definition zeros3 : store := table 3 (fun _ _ => 0%float).

(** Two leaves. *)
Definition two_leaves : store :=
  table 2 (fun i j => if decide (i = j) then 0%float else 3%float).

(** * Vocabulary of the statements *)

(** The entry at [(i, j)], when there is one. *)
Definition lookup2 (d : store) (i j : nat) : option float :=
  d !! i ≫= fun ro => ro !! j.

(** Every pair of ids below [k] has an entry. *)
Definition complete (k : nat) (d : store) : Prop :=
  ∀ a b, a < k → b < k → is_Some (lookup2 d a b).

(** [d'] differs from [d] in row [k] and column [k] at most. *)
Definition off_node (k : nat) (d d' : store) : Prop :=
  ∀ a b, a ≠ k → b ≠ k → lookup2 d' a b = lookup2 d a b.

(** What a table looks like once the node [k] has been added to a table
    complete below [k]. *)
Record extended (k : nat) (d0 d' : store) : Prop := {
  ext_off : off_node k d0 d';
  ext_row : ∀ a, a ≤ k → is_Some (lookup2 d' k a);
  ext_sym : ∀ a, a ≤ k → lookup2 d' a k = lookup2 d' k a;
  ext_diag : lookup2 d' k k = Some 0%float;
  ext_dom : dom d' = {[k]} ∪ dom d0
}.

(** The table while [for m in d[k]] runs on a table [d0] complete below
    [k], [pre] being the ids done. *)
Record join_inv (k : nat) (d0 : store) (pre : list nat) (dm : store)
  : Prop := {
  ji_off : off_node k d0 dm;
  ji_row : ∀ b, b ≤ k → is_Some (lookup2 dm k b);
  ji_sym : ∀ m, m ∈ pre → lookup2 dm m k = lookup2 dm k m;
  ji_dom : dom dm = {[k]} ∪ dom d0
}.

(** The entry at [(i, j)] of a table that has it. *)
Definition dget (d : store) (i j : nat) : float :=
  default 0%float (lookup2 d i j).

(** [r[i]] after lines 23-28: the quotients [d[i][j] / (len(L) - 2)],
    added up over [L] from the left. *)
Definition rsum (d : store) (L : list nat) (i : nat) : float :=
  fold_left (fun acc j => (acc + dget d i j / of_int (Z.of_nat (length L) - 2))%float)
            L 0%float.

(** [D[i][j]] after lines 30-32. *)
Definition score (d : store) (L : list nat) (i j : nat) : float :=
  (dget d i j - (rsum d L i + rsum d L j))%float.

(** The weight of an edge. *)
Definition weight (d : store) (e : edge) : float := dget d e.1 e.2.

(** The pairs [(i, j)] in the order in which [for i in L: for j in L]
    meets them. *)
Definition scan_pairs (L : list nat) : list (nat * nat) :=
  flat_map (fun i => map (pair i) L) L.

(** One round of the scan over a table with entries [q i j]. *)
Definition scan_pure (q : nat → nat → float) (acc : nat * nat * float)
    (p : nat * nat) : nat * nat * float :=
  if decide (p.1 = p.2) then acc
  else if (q p.1 p.2 <? acc.2)%float then (p.1, p.2, q p.1 p.2) else acc.

(** What the scan holds once the pairs of [done] have gone by: a pair of
    distinct ids met at some position [a], no entry strictly below its
    own, and, numbers being comparable, every pair met before
    position [a] strictly above it. *)
Record best (q : nat → nat → float) (done : list (nat * nat))
    (acc : nat * nat * float) : Prop := {
  best_val : acc.2 = q acc.1.1 acc.1.2;
  best_ne : acc.1.1 ≠ acc.1.2;
  best_min : ∀ i j, (i, j) ∈ done → i ≠ j → (q i j <? acc.2)%float = false;
  best_first : ∃ a, done !! a = Some acc.1 ∧
    ((∀ i j, (i, j) ∈ done → i ≠ j → PrimFloat.is_nan (q i j) = false) →
     ∀ b i j, b < a → done !! b = Some (i, j) → i ≠ j →
       (acc.2 <? q i j)%float = true)
}.

(** The states of a run on a table over [0..n-1]: the active ids are in
    increasing order and below the next id [k]; the table is complete
    below [k]; each merge so far made one node and two edges. *)
Record nj_inv (n : nat) (s : state) : Prop := {
  inv_sorted : StronglySorted lt (st_L s);
  inv_below : ∀ x, x ∈ st_L s → x < st_k s;
  inv_complete : complete (st_k s) (st_d s);
  inv_dom : dom (st_d s) = set_seq 0 (st_k s);
  inv_k : n ≤ st_k s;
  inv_len : length (st_L s) + st_k s = 2 * n;
  inv_edges : length (st_edges s) = 2 * (st_k s - n);
  inv_new : (st_edges s).*2 = flat_map (fun x => [x; x]) (seq n (st_k s - n))
}.

(** A table over the ids [0..n-1]. *)
Definition matrix_over (n : nat) (d : store) : Prop :=
  dom d = set_seq 0 n ∧ complete n d.

Definition symmetric (n : nat) (d : store) : Prop :=
  ∀ a b, a < n → b < n → lookup2 d a b = lookup2 d b a.

Definition zero_diagonal (n : nat) (d : store) : Prop :=
  ∀ a, a < n → lookup2 d a a = Some 0%float.

(** The input of the reducer: a symmetric table over [0..n-1] with a
    zero diagonal. *)
Definition valid_matrix (n : nat) (d : store) : Prop :=
  matrix_over n d ∧ symmetric n d ∧ zero_diagonal n d.

(** [nj_run s s']: the loop, started in [s], is in [s'] after some
    number of iterations. *)
Inductive nj_run : state → state → Prop :=
  | nj_run_refl s : nj_run s s
  | nj_run_step s s1 s2 :
      2 < length (st_L s) → nj_step s = Ok s1 → nj_run s1 s2 → nj_run s s2.

(** No statement of the program raises [LoopFuel]: it is what the loop
    of the model answers when its counter is used up. *)
Definition no_fuel {A : Type} (m : result A) : Prop := m ≠ Raise LoopFuel.

(** The order of the pairs: by the first id, then by the second. *)
Definition pair_lt (p q : nat * nat) : Prop :=
  p.1 < q.1 ∨ (p.1 = q.1 ∧ p.2 < q.2).

(** [reaches tm x y]: the calls of [generate_newick] on [x] get to [y],
    going down through nodes with two children. *)
Inductive reaches (tm : tree) : nat → nat → Prop :=
  | reaches_here x : reaches tm x x
  | reaches_left x i j y :
      tm !! x = Some [i; j] → reaches tm i y → reaches tm x y
  | reaches_right x i j y :
      tm !! x = Some [i; j] → reaches tm j y → reaches tm x y.

(** A root over a node with three children. *)
Definition three_children : tree :=
  {[ 5 := [3; 4]; 3 := []; 4 := [0; 1; 2]; 0 := []; 1 := []; 2 := [] ]}.

Definition is_digit (c : ascii) : bool :=
  (48 <=? N_of_ascii c)%N && (N_of_ascii c <=? 57)%N.

Fixpoint all_digits (s : string) : bool :=
  match s with
  | EmptyString => true
  | String c s' => is_digit c && all_digits s'
  end.

(** A sign, digits, a point and six digits. *)
Definition six_decimals (s : string) : Prop :=
  ∃ sign ip fp,
    s = sign +:+ ip +:+ "." +:+ fp
    ∧ (sign = "" ∨ sign = "-")
    ∧ ip ≠ "" ∧ all_digits ip = true
    ∧ all_digits fp = true ∧ String.length fp = 6.

(** A root [2] over the leaves [0] and [1]. *)
Definition cherry : tree := {[ 2 := [0; 1]; 0 := []; 1 := [] ]}.

Definition cherry_store : store :=
  table 3 (fun i j => if decide (i = j) then 0%float else 3%float).

(** What the scan of lines 181-188 holds once the edges of [done] have
    gone by, the weights being numbers: either no edge was longer than
    [0] and the scan holds what it started with, or it holds the first
    of the longest edges. *)
Definition longest (d : store) (done : list edge)
    (acc : float * nat * nat) : Prop :=
  (acc = (0%float, 0, 0)
   ∧ ∀ e, e ∈ done → (0 <? weight d e)%float = false)
  ∨ (∃ pre post,
       done = pre ++ (acc.1.2, acc.2) :: post
       ∧ acc.1.1 = weight d (acc.1.2, acc.2)
       ∧ (0 <? acc.1.1)%float = true
       ∧ (∀ e, e ∈ done → (acc.1.1 <? weight d e)%float = false)
       ∧ (∀ e, e ∈ pre → (weight d e <? acc.1.1)%float = true)).

(** The edges of a run on a table over [0..n-1]: an edge goes from an id
    to a later one; the ids that are the first end of an edge and the
    active ids are, together, the ids made so far, once each; the last
    active id is the last id made. *)
Record nj_shape (n : nat) (s : state) : Prop := {
  shape_up : ∀ e, e ∈ st_edges s → e.1 < e.2;
  shape_perm : (st_edges s).*1 ++ st_L s ≡ₚ seq 0 (st_k s);
  shape_last : n < st_k s → last (st_L s) = Some (st_k s - 1)
}.

(** Every exception that [m] can raise is one of [P]. *)
Definition raises_only {A : Type} (P : exn → Prop) (m : result A) : Prop :=
  ∀ e, m = Raise e → P e.

(** Three leaves at distance zero, the entry [d[1][2]] missing. *)
Definition ragged3 : store :=
  <[1 := {[ 0 := 0%float; 1 := 0%float ]}]> zeros3.

(** The ids at the other end of the edges at [root], in the order of the
    edges. *)
Definition neighbours (root : nat) (edges : list edge) : list nat :=
  omap (fun e : edge =>
          if decide (e.1 = root) then Some e.2
          else if decide (e.2 = root) then Some e.1 else None) edges.

(** The edges that do not touch [root]. *)
Definition away (root : nat) (edges : list edge) : list edge :=
  filter (fun e : edge => e.1 ≠ root ∧ e.2 ≠ root) edges.

(** [x] is an end of some edge. *)
Definition is_end (edges : list edge) (x : nat) : Prop :=
  ∃ e, e ∈ edges ∧ (e.1 = x ∨ e.2 = x).

(** Some edge joins [x] and [c]. *)
Definition adjacent (edges : list edge) (x c : nat) : Prop :=
  (x, c) ∈ edges ∨ (c, x) ∈ edges.

(** Every child is a key. *)
Definition closed (tm : tree) : Prop :=
  ∀ x cs c, tm !! x = Some cs → c ∈ cs → is_Some (tm !! c).

(** [c] is a child of [x]. *)
Definition child (tm : tree) (x c : nat) : Prop :=
  ∃ cs, tm !! x = Some cs ∧ c ∈ cs.

(** The children of the keys that are not in [visited], counted. *)
Definition pending (tm : tree) (visited : list nat) : nat :=
  children_count (filter (fun kv : nat * list nat => kv.1 ∉ visited) tm).

(** [printable tm d mapping x h]: below [x] the map is a binary tree
    with [h] levels, the table has the length of every branch, and
    every leaf has a name where names are given. *)
Inductive printable (tm : tree) (d : store)
    (mapping : option (gmap nat string)) : nat → nat → Prop :=
  | printable_leaf x :
      tm !! x = Some [] →
      (∀ names, mapping = Some names → is_Some (names !! x)) →
      printable tm d mapping x 1
  | printable_node x i j hi hj :
      tm !! x = Some [i; j] →
      is_Some (lookup2 d x i) → is_Some (lookup2 d x j) →
      printable tm d mapping i hi → printable tm d mapping j hj →
      printable tm d mapping x (S (hi `max` hj)).

(** Three points of the plane. *)
Definition three_points : list point := [(1, 1); (4, 5); (1, 5)]%Z.

(** The coordinates [main] draws: [np.random.randint(100) + 1]. *)
Definition drawn (p : point) : Prop :=
  (1 ≤ p.1 ≤ 100 ∧ 1 ≤ p.2 ≤ 100)%Z.

(** The root of [z] is a number, above [0] for [z] above [0]. *)
Definition sqrt_number (z : Z) : bool :=
  negb (PrimFloat.is_nan (PrimFloat.sqrt (of_int z)))
  && (bool_decide (z = 0%Z) || (0 <? PrimFloat.sqrt (of_int z))%float).

(** [f] holds on the [n] integers from [z] on. *)
Fixpoint all_from (f : Z → bool) (n : nat) (z : Z) : bool :=
  match n with
  | 0 => true
  | S n' => f z && all_from f n' (Z.succ z)
  end.

(** The neighbours of [y] of a higher rank: with ranks that grow away
    from the root, the children of [y] in the rooted tree. *)
Definition up (rank : nat → nat) (edges : list edge) (y : nat) : list nat :=
  filter (fun c => rank y < rank c) (neighbours y edges).

(** [rank] roots the edges at [root]: the two ends of an edge differ in
    rank, a node has at most one neighbour of a lower rank, and the root
    has none. *)
Record rooted (rank : nat → nat) (edges : list edge) (root : nat) : Prop := {
  rooted_strict : ∀ y z, z ∈ neighbours y edges → rank z ≠ rank y;
  rooted_down : ∀ y z z', z ∈ neighbours y edges → z' ∈ neighbours y edges →
                rank z < rank y → rank z' < rank y → z = z';
  rooted_root : ∀ z, z ∈ neighbours root edges → rank root < rank z
}.

(** The state of the recursion at the node [x]: of the edges at [x]
    those to its children are left, and the edges at the nodes below [x]
    are all there. *)
Definition at_node (rank : nat → nat) (edges : list edge) (x : nat)
    (es : list edge) : Prop :=
  neighbours x es = up rank edges x
  ∧ ∀ y, tc (fun a b => b ∈ up rank edges a) x y →
         neighbours y es = neighbours y edges.

(** The other end of the first edge that starts at [y]. *)
Fixpoint parent (edges : list edge) (y : nat) : option nat :=
  match edges with
  | [] => None
  | e :: edges' => if decide (e.1 = y) then Some e.2 else parent edges' y
  end.

(** The ids met from [y] upwards, each the parent of the one before. *)
Fixpoint path_up (edges : list edge) (fuel y : nat) : list nat :=
  match fuel with
  | 0 => []
  | S fuel' =>
      y :: match parent edges y with
           | Some z => path_up edges fuel' z
           | None => []
           end
  end.

(** Ranks for the edges of [neighbor_join], with last id [top], once the
    root [S top] is put on the edge from some id to [j]: the root comes
    first, then the ids from [j] upwards, then the other ids, from the
    later ones to the earlier ones. *)
Definition root_rank (edges : list edge) (top j y : nat) : nat :=
  if decide (y = S top) then 0
  else if decide (y ∈ path_up edges (S top) j) then S (y - j)
  else 2 * top + 2 - y.

(** A path of four nodes, and ranks that root it at the node [1]. *)
Definition path4 : list edge := [(0, 1); (1, 2); (2, 3)].

Definition path4_rank (y : nat) : nat := if decide (y = 0) then 1 else y - 1.

(** The lists of [bfs] with, beside every id, the number of steps after
    which the traversal met it: the ids visited were met after [D] steps
    at most, the ids of the queue after [D] or [D + 1] steps, and the
    children of a visited id are in the lists, one step later at most. *)
Record level_inv (tm : tree) (root D : nat) (vd qd : list (nat * nat))
  : Prop := {
  lv_reach : ∀ p, p ∈ vd ++ qd → bsteps (child tm) p.2 root p.1;
  lv_root : (root, 0) ∈ vd ++ qd;
  lv_visited : StronglySorted le vd.*2;
  lv_queue : StronglySorted le qd.*2;
  lv_low : ∀ p, p ∈ vd → p.2 ≤ D;
  lv_high : ∀ q, q ∈ qd → D ≤ q.2 ≤ S D;
  lv_kids : ∀ p c, p ∈ vd → child tm p.1 c →
            ∃ m, m ≤ S p.2 ∧ (c, m) ∈ vd ++ qd
}.

(** The number a digit stands for. *)
Definition digit_value (c : ascii) : Z := (Z.of_N (N_of_ascii c) - 48)%Z.

(** The digits at the head of [s], read as a number after [acc], and the
    rest of [s]. *)
Fixpoint read_digits (acc : Z) (s : string) : Z * string :=
  match s with
  | EmptyString => (acc, EmptyString)
  | String c s' =>
      if is_digit c then read_digits (10 * acc + digit_value c) s'
      else (acc, s)
  end.

(** The number that digits, a point and digits stand for, with its sign
    changed where [negative]. *)
Definition unsigned_decimal (negative : bool) (s : string)
  : option QArith_base.Q :=
  let '(ip, s) := read_digits 0 s in
  match s with
  | String "." fraction =>
      let '(fp, s) := read_digits 0 fraction in
      let k := Z.of_nat (String.length fraction) in
      match s with
      | EmptyString =>
          let q := QArith_base.Qmake (ip * 10 ^ k + fp) (Z.to_pos (10 ^ k)) in
          Some (if negative then QArith_base.Qopp q else q)
      | _ => None
      end
  | _ => None
  end.

(** The number that a decimal text stands for: an optional [-], digits,
    a point, digits. *)
Definition decimal (s : string) : option QArith_base.Q :=
  match s with
  | String "-" s' => unsigned_decimal true s'
  | _ => unsigned_decimal false s
  end.

(** The number that a finite binary64 value is. *)
Definition float_value (x : float) : option QArith_base.Q :=
  match Prim2SF x with
  | S754_zero _ => Some (QArith_base.Qmake 0 1)
  | S754_finite s m e =>
      let q :=
        match e with
        | Zneg p => QArith_base.Qmake (Zpos m) (2 ^ p)
        | _ => QArith_base.inject_Z (Zpos m * 2 ^ e)
        end in
      Some (if s then QArith_base.Qopp q else q)
  | _ => None
  end.

(** [q] is within half a millionth of [v]. *)
Definition nearest_millionth (q v : QArith_base.Q) : Prop :=
  QArith_base.Qle (Qabs.Qabs (QArith_base.Qminus q v)) (QArith_base.Qmake 1 2000000).

(** The number that the digits [u] stand for, read after [acc]. *)
Fixpoint uint_value (acc : Z) (u : Decimal.uint) : Z :=
  match u with
  | Decimal.Nil => acc
  | Decimal.D0 u => uint_value (10 * acc) u
  | Decimal.D1 u => uint_value (10 * acc + 1) u
  | Decimal.D2 u => uint_value (10 * acc + 2) u
  | Decimal.D3 u => uint_value (10 * acc + 3) u
  | Decimal.D4 u => uint_value (10 * acc + 4) u
  | Decimal.D5 u => uint_value (10 * acc + 5) u
  | Decimal.D6 u => uint_value (10 * acc + 6) u
  | Decimal.D7 u => uint_value (10 * acc + 7) u
  | Decimal.D8 u => uint_value (10 * acc + 8) u
  | Decimal.D9 u => uint_value (10 * acc + 9) u
  end.

(** A table over six ids, every two of them at distance [1]. *)
Definition ones6 : store :=
  table 6 (fun i j => if decide (i = j) then 0%float else 1%float).

(** Three ids at the distances [d[i][j] = i + j]. *)
Definition ramp3 : store := table 3 (fun i j => of_int (Z.of_nat (i + j))).

(** Four edges over [ramp3]: the second and the third are the longest. *)
Definition ramp_edges : list edge := [(0, 1); (1, 2); (2, 1); (0, 2)].

(** * Lemmas *)

(** ** Basic facts: the monad *)

Lemma bind_Ok {A B : Type} (m : result A) (f : A → result B) (b : B) :
  m ≫= f = Ok b ↔ ∃ a, m = Ok a ∧ f a = Ok b.
Proof.
  destruct m as [a|e]; simpl.
  - split; [eauto | intros (a' & [= <-] & H); exact H].
  - split; [discriminate | intros (a' & [=] & _)].
Qed.

Lemma bind_Ok_l {A B : Type} (a : A) (f : A → result B) :
  Ok a ≫= f = f a.
Proof. reflexivity. Qed.

Lemma of_option_Ok {A : Type} (e : exn) (o : option A) (a : A) :
  of_option e o = Ok a ↔ o = Some a.
Proof. destruct o; simpl; split; congruence. Qed.

Ltac inv_ok :=
  repeat match goal with
  | H : _ ≫= _ = Ok _ |- _ =>
      apply bind_Ok in H; destruct H as (? & ? & H)
  | H : of_option _ _ = Ok _ |- _ => apply of_option_Ok in H
  | H : Ok _ = Ok _ |- _ => injection H as H
  | H : Raise _ = Ok _ |- _ => discriminate H
  | H : (let '(_, _) := ?p in _) = Ok _ |- _ => destruct p
  end.

Lemma foldM_app {A B : Type} (f : A → B → result A) (a : A) (l1 l2 : list B) :
  foldM f a (l1 ++ l2) = foldM f a l1 ≫= fun a' => foldM f a' l2.
Proof.
  revert a; induction l1 as [|x l1 IH]; intros a; simpl; [done|].
  destruct (f a x); simpl; [apply IH | done].
Qed.

(** An invariant indexed by the part of the list already visited. *)
Lemma foldM_inv {A B : Type} (I : list B → A → Prop)
    (f : A → B → result A) (l : list B) (a : A) :
  I [] a →
  (∀ pre x post a, l = pre ++ x :: post → I pre a →
     ∃ a', f a x = Ok a' ∧ I (pre ++ [x]) a') →
  ∃ a', foldM f a l = Ok a' ∧ I l a'.
Proof.
  intros H0 Hstep.
  cut (∀ post pre a, l = pre ++ post → I pre a →
         ∃ a', foldM f a post = Ok a' ∧ I l a').
  { intros H. apply (H l [] a); done. }
  induction post as [|x post IH]; intros pre a0 Hl Hpre; simpl.
  - rewrite app_nil_r in Hl. subst pre. eauto.
  - destruct (Hstep pre x post a0 Hl Hpre) as (a1 & -> & H1); simpl.
    apply (IH (pre ++ [x])); [by rewrite <- app_assoc | done].
Qed.

(** What every successful round preserves, the whole loop preserves. *)
Lemma foldM_pres {A B : Type} (R : A → A → Prop)
    (f : A → B → result A) (l : list B) :
  (∀ a, R a a) →
  (∀ a b c, R a b → R b c → R a c) →
  (∀ a x a', x ∈ l → f a x = Ok a' → R a a') →
  ∀ a a', foldM f a l = Ok a' → R a a'.
Proof.
  intros Hrefl Htrans. induction l as [|x l IH]; intros Hf a a' H; simpl in H.
  - injection H as <-. apply Hrefl.
  - inv_ok. eapply Htrans.
    + eapply Hf; [left | eassumption].
    + eapply IH; [|eassumption]. intros ? ? ? ?. apply Hf. by right.
Qed.

(** ** Basic facts: the distance table *)

Lemma getd_Ok (d : store) (i j : nat) (v : float) :
  getd d i j = Ok v ↔ lookup2 d i j = Some v.
Proof.
  unfold getd, lookup2. destruct (d !! i) as [ro|]; simpl.
  - apply of_option_Ok.
  - split; discriminate.
Qed.

Lemma getd_lookup2 (d : store) (i j : nat) :
  getd d i j = of_option KeyError (lookup2 d i j).
Proof. unfold getd, lookup2. by destruct (d !! i). Qed.

Lemma setd_Ok (d d' : store) (i j : nat) (v : float) :
  setd d i j v = Ok d' ↔ ∃ ro, d !! i = Some ro ∧ d' = <[i := <[j := v]> ro]> d.
Proof.
  unfold setd. destruct (d !! i) as [ro|]; simpl.
  - split; [intros [= <-]; eauto | intros (? & [= <-] & ->); done].
  - split; [discriminate | intros (? & [=] & _)].
Qed.

Lemma setd_is_Some (d : store) (i j : nat) (v : float) :
  is_Some (d !! i) → ∃ d', setd d i j v = Ok d'.
Proof. intros [ro H]. unfold setd. rewrite H. simpl. eauto. Qed.

Lemma lookup2_setd (d d' : store) (i j a b : nat) (v : float) :
  setd d i j v = Ok d' →
  lookup2 d' a b = if decide (a = i ∧ b = j) then Some v else lookup2 d a b.
Proof.
  intros (ro & Hro & ->)%setd_Ok. unfold lookup2.
  destruct (decide (a = i)) as [->|Hne].
  - rewrite lookup_insert_eq, Hro. simpl.
    destruct (decide (b = j)) as [->|Hb].
    + rewrite lookup_insert_eq. by rewrite decide_True.
    + rewrite lookup_insert_ne by done. rewrite decide_False; [done | tauto].
  - rewrite lookup_insert_ne by done. rewrite decide_False; [done | tauto].
Qed.

Lemma rows_setd (d d' : store) (i j a : nat) (v : float) :
  setd d i j v = Ok d' → is_Some (d' !! a) ↔ is_Some (d !! a).
Proof.
  intros (ro & Hro & ->)%setd_Ok.
  destruct (decide (a = i)) as [->|Hne].
  - rewrite lookup_insert_eq, Hro. split; eauto.
  - by rewrite lookup_insert_ne.
Qed.

Lemma dom_setd (d d' : store) (i j : nat) (v : float) :
  setd d i j v = Ok d' → dom d' = dom d.
Proof.
  intros H. apply set_eq. intros a. rewrite !elem_of_dom.
  eapply rows_setd, H.
Qed.

Lemma lookup2_is_Some_row (d : store) (i j : nat) :
  is_Some (lookup2 d i j) → is_Some (d !! i).
Proof. unfold lookup2. destruct (d !! i); [eauto | intros [? [=]]]. Qed.

Lemma zero_row_cons (x : nat) (l : list nat) :
  zero_row (x :: l) = <[x := 0%float]> (zero_row l).
Proof. reflexivity. Qed.

Lemma zero_row_lookup (l : list nat) (i : nat) :
  zero_row l !! i = if decide (i ∈ l) then Some 0%float else None.
Proof.
  induction l as [|x l IH]; [done|].
  rewrite zero_row_cons. destruct (decide (i = x)) as [->|Hne].
  - rewrite lookup_insert_eq, decide_True; [done | by left].
  - rewrite lookup_insert_ne, IH by done.
    destruct (decide (i ∈ l)) as [Hin|Hin].
    + rewrite decide_True; [done | by right].
    + rewrite decide_False; [done | by intros [?|?]%elem_of_cons].
Qed.

Lemma zero_row_seq (n i : nat) :
  zero_row (seq 0 n) !! i = if decide (i < n) then Some 0%float else None.
Proof.
  rewrite zero_row_lookup. destruct (decide (i < n)) as [H|H].
  - rewrite decide_True; [done | apply elem_of_seq; lia].
  - rewrite decide_False; [done | rewrite elem_of_seq; lia].
Qed.

(** Where an element sits in [seq s n]. *)
Lemma seq_split (s n x : nat) (pre post : list nat) :
  seq s n = pre ++ x :: post →
  x = s + length pre ∧ pre = seq s (length pre) ∧ x < s + n.
Proof.
  revert s n; induction pre as [|y pre IH]; intros s n H.
  - destruct n as [|n]; [done|]. simpl in H. injection H as <- _.
    simpl. split; [lia | split; [done | lia]].
  - destruct n as [|n]; [done|]. simpl in H. injection H as <- H.
    apply IH in H as (-> & Hpre & Hlt). simpl.
    split; [lia | split; [by rewrite <- Hpre | lia]].
Qed.

Lemma seq_split_elem (n x y : nat) (pre post : list nat) :
  seq 0 n = pre ++ x :: post → y ∈ pre ↔ y < x.
Proof.
  intros (-> & Hpre & _)%seq_split. rewrite Hpre at 1.
  rewrite elem_of_seq. simpl. lia.
Qed.

Lemma lookup2_insert_row (d : store) (k a b : nat) (ro : row) :
  lookup2 (<[k := ro]> d) a b = if decide (a = k) then ro !! b else lookup2 d a b.
Proof.
  unfold lookup2. destruct (decide (a = k)) as [->|Hne].
  - by rewrite lookup_insert_eq.
  - by rewrite lookup_insert_ne.
Qed.

Lemma off_node_refl (k : nat) (d : store) : off_node k d d.
Proof. by intros a b _ _. Qed.

Lemma off_node_trans (k : nat) (d1 d2 d3 : store) :
  off_node k d1 d2 → off_node k d2 d3 → off_node k d1 d3.
Proof. intros H12 H23 a b Ha Hb. rewrite H23, H12; done. Qed.

Lemma off_node_setd_row (k : nat) (d d' : store) (j : nat) (v : float) :
  setd d k j v = Ok d' → off_node k d d'.
Proof.
  intros H a b Ha Hb. rewrite (lookup2_setd _ _ _ _ _ _ _ H).
  rewrite decide_False; [done | tauto].
Qed.

Lemma off_node_setd_col (k : nat) (d d' : store) (i : nat) (v : float) :
  setd d i k v = Ok d' → off_node k d d'.
Proof.
  intros H a b Ha Hb. rewrite (lookup2_setd _ _ _ _ _ _ _ H).
  rewrite decide_False; [done | tauto].
Qed.

Lemma off_node_join_row (i_min j_min k m : nat) (d d' : store) :
  join_row i_min j_min k d m = Ok d' → off_node k d d'.
Proof.
  unfold join_row. intros H. inv_ok.
  eapply off_node_trans; [eapply off_node_setd_row | eapply off_node_setd_col];
    eassumption.
Qed.

(** The frame of [extend]: whatever the table, a successful call writes
    in row [k] and in column [k] only. *)
Lemma extend_off_node (d d' : store) (r : row) (i_min j_min k : nat) :
  extend d r i_min j_min k = Ok d' → off_node k d d'.
Proof.
  unfold extend. intros H. inv_ok.
  repeat match goal with
  | H : setd _ _ k _ = Ok _ |- _ => apply off_node_setd_col in H
  | H : setd _ k _ _ = Ok _ |- _ => apply off_node_setd_row in H
  end.
  match goal with
  | H : foldM _ _ _ = Ok _ |- _ =>
      apply (foldM_pres (off_node k)) in H;
        [| apply off_node_refl | apply off_node_trans
         | intros ? ? ? _; apply off_node_join_row]
  end.
  assert (off_node k d (<[k := zero_row (seq 0 (k + 1))]> d)) as Hrow.
  { intros a b Ha Hb. rewrite lookup2_insert_row. by rewrite decide_False. }
  repeat (eapply off_node_trans; [|eassumption]). apply off_node_refl.
Qed.

Section Extend.
Variables (d0 : store) (r : row) (i_min j_min k : nat).
Hypothesis Hc : complete k d0.
Hypothesis Hi : i_min < k.
Hypothesis Hj : j_min < k.
Hypothesis Hri : is_Some (r !! i_min).
Hypothesis Hrj : is_Some (r !! j_min).

Lemma join_inv_start : join_inv k d0 [] (<[k := zero_row (seq 0 (k + 1))]> d0).
Proof using All.
  split.
  - intros a b Ha Hb. rewrite lookup2_insert_row. by rewrite decide_False.
  - intros b Hb. rewrite lookup2_insert_row, decide_True by done.
    rewrite zero_row_seq, decide_True by lia. eauto.
  - intros m []%elem_of_nil.
  - by rewrite dom_insert_L.
Qed.

Lemma join_inv_entry (pre : list nat) (dm : store) (a x : nat) :
  join_inv k d0 pre dm → a < k → x ≤ k → (x = k → a ∈ pre) →
  is_Some (lookup2 dm a x).
Proof using All.
  intros [Hoff Hrow Hsym _] Ha Hx Hpre.
  destruct (decide (x = k)) as [->|Hne].
  - rewrite Hsym by auto. apply Hrow. lia.
  - rewrite Hoff by lia. apply Hc; lia.
Qed.

Lemma join_inv_step (pre post : list nat) (x : nat) (dm : store) :
  seq 0 (k + 1) = pre ++ x :: post → join_inv k d0 pre dm →
  ∃ dm', join_row i_min j_min k dm x = Ok dm' ∧ join_inv k d0 (pre ++ [x]) dm'.
Proof using All.
  intros Hseq Hinv.
  pose proof (fun y => seq_split_elem _ _ y _ _ Hseq) as Hpre.
  apply seq_split in Hseq as (_ & _ & Hx).
  destruct (join_inv_entry pre dm i_min x) as [a Ha];
    [done | done | lia | intros ->; by apply Hpre |].
  destruct (join_inv_entry pre dm j_min x) as [b Hb];
    [done | done | lia | intros ->; by apply Hpre |].
  destruct (join_inv_entry pre dm i_min j_min) as [c Hcc];
    [done | done | lia | lia |].
  assert (is_Some (dm !! k)) as Hk.
  { eapply lookup2_is_Some_row, (ji_row _ _ _ _ Hinv k). lia. }
  destruct (setd_is_Some dm k x (half * (a + b - c))%float Hk) as [d1 Hd1].
  assert (is_Some (d1 !! x)) as Hrx.
  { apply (rows_setd _ _ _ _ _ _ Hd1).
    destruct (decide (x = k)) as [->|Hne]; [done|].
    apply (lookup2_is_Some_row _ _ x).
    rewrite (ji_off _ _ _ _ Hinv) by done. apply Hc; lia. }
  destruct (setd_is_Some d1 x k (half * (a + b - c))%float Hrx) as [d2 Hd2].
  pose proof (fun u v => lookup2_setd _ _ _ _ u v _ Hd1) as E1.
  pose proof (fun u v => lookup2_setd _ _ _ _ u v _ Hd2) as E2.
  exists d2. split.
  - unfold join_row.
    rewrite (proj2 (getd_Ok _ _ _ _) Ha), (proj2 (getd_Ok _ _ _ _) Hb),
      (proj2 (getd_Ok _ _ _ _) Hcc). simpl. rewrite Hd1. simpl.
    assert (getd d1 k x = Ok (half * (a + b - c))%float) as ->.
    { apply getd_Ok. rewrite E1. by rewrite decide_True. }
    simpl. exact Hd2.
  - destruct Hinv as [Hoff Hrow Hsym Hdom]. split.
    + eapply off_node_trans; [exact Hoff|].
      eapply off_node_trans;
        [eapply off_node_setd_row | eapply off_node_setd_col]; eassumption.
    + intros v Hv. rewrite E2, E1. repeat case_decide; eauto.
    + intros m [Hm| ->%list_elem_of_singleton]%elem_of_app.
      * apply Hpre in Hm. rewrite !E2, !E1.
        repeat case_decide; try lia; auto.
        apply Hsym. by apply Hpre.
      * rewrite !E2, !E1. repeat case_decide; first [done | exfalso; tauto].
    + by rewrite (dom_setd _ _ _ _ _ Hd2), (dom_setd _ _ _ _ _ Hd1).
Qed.

Lemma join_fold :
  ∃ d2, foldM (join_row i_min j_min k)
          (<[k := zero_row (seq 0 (k + 1))]> d0) (seq 0 (k + 1)) = Ok d2
        ∧ join_inv k d0 (seq 0 (k + 1)) d2.
Proof using All.
  apply foldM_inv; [apply join_inv_start|].
  intros pre x post dm Hseq Hinv. by eapply join_inv_step.
Qed.

Lemma extend_spec :
  ∃ d', extend d0 r i_min j_min k = Ok d' ∧ extended k d0 d'.
Proof using All.
  destruct join_fold as (d2 & Hfold & [Hoff Hrow Hsym Hdom]).
  destruct Hri as [ri Ei], Hrj as [rj Ej].
  assert (∀ a, a ≤ k → is_Some (d2 !! a)) as Hrows.
  { intros a Ha. destruct (decide (a = k)) as [->|Hne].
    - apply (lookup2_is_Some_row _ _ k), Hrow. lia.
    - apply (lookup2_is_Some_row _ _ a). rewrite Hoff by done.
      apply Hc; lia. }
  assert (is_Some (lookup2 d2 i_min j_min)) as [dij Hdij].
  { rewrite Hoff by lia. by apply Hc. }
  destruct (setd_is_Some d2 i_min k (half * (dij + ri - rj))%float)
    as [d3 Hd3]; [apply Hrows; lia|].
  pose proof (fun u v => lookup2_setd _ _ _ _ u v _ Hd3) as E3.
  pose proof (fun u => rows_setd _ _ _ _ u _ Hd3) as R3.
  assert (lookup2 d3 i_min j_min = Some dij) as Hdij3.
  { rewrite E3, decide_False; [done | lia]. }
  assert (lookup2 d3 i_min k = Some (half * (dij + ri - rj))%float) as Hdik.
  { rewrite E3, decide_True; done. }
  destruct (setd_is_Some d3 j_min k
              (dij - half * (dij + ri - rj))%float) as [d4 Hd4];
    [apply R3, Hrows; lia|].
  pose proof (fun u v => lookup2_setd _ _ _ _ u v _ Hd4) as E4.
  pose proof (fun u => rows_setd _ _ _ _ u _ Hd4) as R4.
  assert (is_Some (lookup2 d4 i_min k)) as [dik Hdik4].
  { rewrite E4, E3. repeat case_decide; eauto. exfalso; tauto. }
  destruct (setd_is_Some d4 k i_min dik) as [d5 Hd5];
    [apply R4, R3, Hrows; lia|].
  pose proof (fun u v => lookup2_setd _ _ _ _ u v _ Hd5) as E5.
  pose proof (fun u => rows_setd _ _ _ _ u _ Hd5) as R5.
  assert (is_Some (lookup2 d5 j_min k)) as [djk Hdjk5].
  { rewrite E5, E4. repeat case_decide; eauto. exfalso; tauto. }
  destruct (setd_is_Some d5 k j_min djk) as [d6 Hd6];
    [apply R5, R4, R3, Hrows; lia|].
  pose proof (fun u v => lookup2_setd _ _ _ _ u v _ Hd6) as E6.
  pose proof (fun u => rows_setd _ _ _ _ u _ Hd6) as R6.
  destruct (setd_is_Some d6 k k 0%float) as [d7 Hd7];
    [apply R6, R5, R4, R3, Hrows; lia|].
  pose proof (fun u v => lookup2_setd _ _ _ _ u v _ Hd7) as E7.
  exists d7. split.
  - unfold extend. rewrite Hfold. simpl.
    rewrite (proj2 (getd_Ok _ _ _ _) Hdij), Ei, Ej. simpl.
    rewrite Hd3. simpl.
    rewrite (proj2 (getd_Ok _ _ _ _) Hdij3), (proj2 (getd_Ok _ _ _ _) Hdik).
    simpl. rewrite Hd4. simpl.
    rewrite (proj2 (getd_Ok _ _ _ _) Hdik4). simpl. rewrite Hd5. simpl.
    rewrite (proj2 (getd_Ok _ _ _ _) Hdjk5). simpl. rewrite Hd6. simpl.
    exact Hd7.
  - rewrite E5, E4 in Hdjk5. rewrite E4, E3 in Hdik4. split.
    + intros a b Ha Hb. rewrite E7, E6, E5, E4, E3.
      repeat case_decide; simplify_eq; try (exfalso; lia);
        try (exfalso; tauto); by apply Hoff.
    + intros a Ha. rewrite E7, E6, E5, E4, E3.
      repeat case_decide; simplify_eq; eauto.
    + intros a Ha. rewrite !E7, !E6, !E5, !E4, !E3.
      repeat case_decide; simplify_eq; try done; try (exfalso; lia);
        try (exfalso; tauto); apply Hsym, elem_of_seq; lia.
    + rewrite E7, decide_True; done.
    + by rewrite (dom_setd _ _ _ _ _ Hd7), (dom_setd _ _ _ _ _ Hd6),
        (dom_setd _ _ _ _ _ Hd5), (dom_setd _ _ _ _ _ Hd4),
        (dom_setd _ _ _ _ _ Hd3).
Qed.
End Extend.

(** ** The order on binary64 numbers

    [<] on floats is irreflexive and transitive, and it is a strict weak
    order once the not-a-number is left out.  The facts come from the
    comparison of the specification floats, through [ltb_spec]. *)

Ltac cmp_cases :=
  repeat match goal with
  | |- context [Z.compare ?a ?b] => destruct (Z.compare_spec a b)
  | H : context [Z.compare ?a ?b] |- _ => destruct (Z.compare_spec a b)
  | |- context [Pos.compare_cont Eq ?a ?b] =>
      change (Pos.compare_cont Eq a b) with (Pos.compare a b);
      destruct (Pos.compare_spec a b)
  | H : context [Pos.compare_cont Eq ?a ?b] |- _ =>
      change (Pos.compare_cont Eq a b) with (Pos.compare a b) in H;
      destruct (Pos.compare_spec a b)
  end.

Ltac sf_cases :=
  unfold SFltb, SFcompare;
  repeat match goal with
  | x : spec_float |- _ => destruct x
  | s : bool |- _ => destruct s
  end;
  simpl; try discriminate; try tauto; auto;
  cmp_cases; simpl in *; subst; try discriminate; try lia; auto.

Lemma SFltb_irrefl (a : spec_float) : SFltb a a = false.
Proof. sf_cases. Qed.

Lemma SFltb_trans (a b c : spec_float) :
  SFltb a b = true → SFltb b c = true → SFltb a c = true.
Proof. sf_cases. Qed.

Lemma SFltb_negtrans (a b c : spec_float) :
  SFltb a b = true → c ≠ S754_nan → SFltb a c = true ∨ SFltb c b = true.
Proof. sf_cases. Qed.

Lemma Prim2SF_not_nan (x : float) :
  PrimFloat.is_nan x = false → Prim2SF x ≠ S754_nan.
Proof.
  intros H. unfold Prim2SF. rewrite H.
  destruct (PrimFloat.is_zero x); [done|].
  destruct (PrimFloat.is_infinity x); [done|].
  destruct (Z.frexp x) as [m e].
  destruct (shr_fexp _ _ _ _ _) as [sh e'].
  by destruct (shr_m sh).
Qed.

Lemma ltb_irrefl (x : float) : (x <? x)%float = false.
Proof. rewrite ltb_spec. apply SFltb_irrefl. Qed.

Lemma ltb_trans (x y z : float) :
  (x <? y)%float = true → (y <? z)%float = true → (x <? z)%float = true.
Proof. rewrite !ltb_spec. apply SFltb_trans. Qed.

Lemma ltb_negtrans (x y z : float) :
  (x <? y)%float = true → PrimFloat.is_nan z = false →
  (x <? z)%float = true ∨ (z <? y)%float = true.
Proof.
  rewrite !ltb_spec. intros H Hz.
  by apply SFltb_negtrans, Prim2SF_not_nan.
Qed.

(** ** The selection of one iteration *)

Lemma lookup2_dget (d : store) (i j : nat) :
  is_Some (lookup2 d i j) → lookup2 d i j = Some (dget d i j).
Proof. intros [v H]. unfold dget. by rewrite H. Qed.

Section Averages.
Variables (d : store) (L : list nat) (k : nat).
Hypothesis Hd : ∀ i j, i < k → j ∈ L → is_Some (lookup2 d i j).
Hypothesis HL : 2 < length L.

Let c : float := of_int (Z.of_nat (length L) - 2).
Let g (i : nat) (acc : float) (j : nat) : float :=
  (acc + dget d i j / c)%float.

Lemma averages_row (i : nat) (r : row) :
  i < k → r !! i = Some 0%float →
  ∃ r', foldM (fun r j =>
                 ri ← of_option KeyError (r !! i);
                 x ← getd d i j;
                 q ← div_int x (Z.of_nat (length L) - 2);
                 Ok (<[i := (ri + q)%float]> r)) r L = Ok r'
        ∧ r' !! i = Some (rsum d L i)
        ∧ ∀ i', i' ≠ i → r' !! i' = r !! i'.
Proof using All.
  intros Hi Hr.
  apply (foldM_inv (fun pre r' =>
           r' !! i = Some (fold_left (g i) pre 0%float)
           ∧ ∀ i', i' ≠ i → r' !! i' = r !! i')).
  - done.
  - intros pre j post r' HLeq [Hri Hoth].
    assert (j ∈ L) as Hj.
    { rewrite HLeq. apply elem_of_app. right. by left. }
    rewrite Hri. simpl.
    rewrite getd_lookup2, (lookup2_dget d i j) by auto. simpl.
    unfold div_int. rewrite decide_False by lia. simpl.
    eexists. split; [done|]. split.
    + rewrite lookup_insert_eq, fold_left_app. done.
    + intros i' Hne. rewrite lookup_insert_ne by done. auto.
Qed.

Lemma averages_spec :
  ∃ r, averages d L k = Ok r
       ∧ ∀ i, r !! i = if decide (i < k) then Some (rsum d L i) else None.
Proof using All.
  unfold averages.
  destruct (foldM_inv (fun pre r =>
              ∀ i, r !! i =
                if decide (i < k)
                then Some (if decide (i ∈ pre) then rsum d L i else 0%float)
                else None)
            (fun r i =>
              foldM (fun r j =>
                 ri ← of_option KeyError (r !! i);
                 x ← getd d i j;
                 q ← div_int x (Z.of_nat (length L) - 2);
                 Ok (<[i := (ri + q)%float]> r)) r L)
            (seq 0 k) (zero_row (seq 0 k))) as (r & Hr & Hinv).
  - intros i. rewrite zero_row_seq. case_decide; [|done].
    rewrite decide_False; [done | apply not_elem_of_nil].
  - intros pre x post r Hseq Hinv.
    pose proof (fun y => seq_split_elem _ _ y _ _ Hseq) as Hpre.
    apply seq_split in Hseq as (_ & _ & Hx).
    destruct (averages_row x r) as (r' & Hr' & Hx' & Hoth); [lia | |].
    { rewrite Hinv, decide_True by lia.
      rewrite decide_False; [done | rewrite Hpre; lia]. }
    exists r'. split; [done|]. intros i.
    destruct (decide (i = x)) as [->|Hne].
    + rewrite Hx', decide_True by lia.
      rewrite decide_True; [done | apply elem_of_app; right; by left].
    + rewrite Hoth, Hinv by done. case_decide; [|done]. f_equal.
      destruct (decide (i ∈ pre)) as [Hin|Hin].
      * rewrite decide_True; [done | apply elem_of_app; by left].
      * rewrite decide_False; [done|].
        intros [?| ->%list_elem_of_singleton]%elem_of_app; done.
  - exists r. split; [done|]. intros i. rewrite Hinv.
    case_decide; [|done]. rewrite decide_True; [done | apply elem_of_seq; lia].
Qed.
End Averages.

Section Adjusted.
Variables (d : store) (r : row) (L : list nat) (rs : nat → float).
Hypothesis Hd : ∀ i j, i ∈ L → j ∈ L → is_Some (lookup2 d i j).
Hypothesis Hr : ∀ i, i ∈ L → r !! i = Some (rs i).

Let q (i j : nat) : float := (dget d i j - (rs i + rs j))%float.

Lemma adjusted_row (i : nat) (D : store) :
  i ∈ L → is_Some (D !! i) →
  ∃ D', foldM (fun D j =>
                 x ← getd d i j;
                 ri ← of_option KeyError (r !! i);
                 rj ← of_option KeyError (r !! j);
                 setd D i j (x - (ri + rj))%float) D L = Ok D'
        ∧ (∀ j, j ∈ L → lookup2 D' i j = Some (q i j))
        ∧ (∀ i' j, i' ≠ i → lookup2 D' i' j = lookup2 D i' j)
        ∧ (∀ i', is_Some (D' !! i') ↔ is_Some (D !! i')).
Proof using All.
  intros Hi HDi.
  apply (foldM_inv (fun pre D' =>
           (∀ j, j ∈ pre → lookup2 D' i j = Some (q i j))
           ∧ (∀ i' j, i' ≠ i → lookup2 D' i' j = lookup2 D i' j)
           ∧ (∀ i', is_Some (D' !! i') ↔ is_Some (D !! i')))).
  - split; [by intros j ?%elem_of_nil | done].
  - intros pre j post D' HLeq (Hdone & Hoth & Hrows).
    assert (j ∈ L) as Hj.
    { rewrite HLeq. apply elem_of_app. right. by left. }
    rewrite getd_lookup2, (lookup2_dget d i j), !Hr by auto. simpl.
    destruct (setd_is_Some D' i j (q i j)) as [D'' HD''];
      [by apply Hrows|].
    pose proof (fun u v => lookup2_setd _ _ _ _ u v _ HD'') as E.
    exists D''. split; [done|]. split; [|split].
    + intros j' Hj'. rewrite E. case_decide as Hc.
      * destruct Hc as [_ ->]. done.
      * apply elem_of_app in Hj' as [?| ->%list_elem_of_singleton];
          [auto | tauto].
    + intros i' j' Hne. rewrite E, decide_False by tauto. auto.
    + intros i'. rewrite (rows_setd _ _ _ _ _ _ HD''). apply Hrows.
Qed.

Lemma adjusted_spec :
  ∃ D, adjusted d r L = Ok D
       ∧ ∀ i j, i ∈ L → j ∈ L → lookup2 D i j = Some (q i j).
Proof using All.
  unfold adjusted.
  set (D0 := list_to_map ((fun i => (i, zero_row L)) <$> L) : store).
  assert (∀ i, i ∈ L → is_Some (D0 !! i)) as HD0.
  { intros i Hi. unfold D0.
    destruct (list_to_map ((fun i => (i, zero_row L)) <$> L) !! i)
      as [ro|] eqn:E; [eauto|].
    apply not_elem_of_list_to_map in E. exfalso. apply E.
    rewrite <- list_fmap_compose. simpl.
    apply list_elem_of_fmap. by exists i. }
  destruct (foldM_inv (fun pre D =>
              (∀ i, i ∈ L → is_Some (D !! i))
              ∧ ∀ i j, i ∈ pre → j ∈ L → lookup2 D i j = Some (q i j))
            (fun D i =>
              foldM (fun D j =>
                 x ← getd d i j;
                 ri ← of_option KeyError (r !! i);
                 rj ← of_option KeyError (r !! j);
                 setd D i j (x - (ri + rj))%float) D L)
            L D0) as (D & HD & _ & Hinv).
  - split; [done | by intros i j ?%elem_of_nil].
  - intros pre x post D HLeq [Hrows Hdone].
    assert (x ∈ L) as Hx.
    { rewrite HLeq. apply elem_of_app. right. by left. }
    destruct (adjusted_row x D) as (D' & HD' & Hrow & Hoth & Hrows');
      [done | by apply Hrows |].
    exists D'. split; [done|]. split.
    + intros i Hi. by apply Hrows', Hrows.
    + intros i j Hi Hj. destruct (decide (i = x)) as [->|Hne]; [by apply Hrow|].
      rewrite Hoth by done.
      apply elem_of_app in Hi as [?| ->%list_elem_of_singleton]; [auto | done].
  - exists D. split; [done | auto].
Qed.
End Adjusted.

Section Scan.
Variables (D : store) (L : list nat) (q : nat → nat → float).
Hypothesis HD : ∀ i j, i ∈ L → j ∈ L → lookup2 D i j = Some (q i j).

Lemma scan_step_pure (acc : nat * nat * float) (i j : nat) :
  i ∈ L → j ∈ L → scan_step D acc i j = Ok (scan_pure q acc (i, j)).
Proof using All.
  intros Hi Hj. unfold scan_step, scan_pure. destruct acc as [[a b] m]. simpl.
  case_decide; [done|].
  rewrite getd_lookup2, HD by done. simpl. by destruct (q i j <? m)%float.
Qed.

Lemma scan_inner (acc : nat * nat * float) (i : nat) (L2 : list nat) :
  i ∈ L → L2 ⊆ L →
  foldM (fun acc j => scan_step D acc i j) acc L2
  = Ok (fold_left (scan_pure q) (map (pair i) L2) acc).
Proof using All.
  intros Hi. revert acc. induction L2 as [|j L2 IH]; intros acc Hsub; [done|].
  simpl. rewrite scan_step_pure; [| done | apply Hsub; by left]. simpl.
  apply IH. intros x Hx. apply Hsub. by right.
Qed.

Lemma scan_outer (acc : nat * nat * float) (L1 : list nat) :
  L1 ⊆ L →
  foldM (fun acc i => foldM (fun acc j => scan_step D acc i j) acc L) acc L1
  = Ok (fold_left (scan_pure q) (flat_map (fun i => map (pair i) L) L1) acc).
Proof using All.
  revert acc. induction L1 as [|i L1 IH]; intros acc Hsub; [done|].
  simpl. rewrite scan_inner; [| apply Hsub; by left | done]. simpl.
  rewrite fold_left_app. apply IH. intros x Hx. apply Hsub. by right.
Qed.

Lemma find_min_pure (a b : nat) (L' : list nat) :
  L = a :: b :: L' →
  find_min D L
  = Ok (fold_left (scan_pure q) (scan_pairs L) (a, b, q a b)).1.
Proof using All.
  intros HL. unfold find_min.
  assert (L !! 0 = Some a) as -> by (by rewrite HL).
  assert (L !! 1 = Some b) as -> by (by rewrite HL).
  cbn [of_option]. rewrite !bind_Ok_l.
  rewrite getd_lookup2, HD by (rewrite HL; set_solver).
  cbn [of_option]. rewrite bind_Ok_l, scan_outer, bind_Ok_l by done.
  fold (scan_pairs L).
  by destruct (fold_left _ _ _) as [[? ?] ?].
Qed.
End Scan.

Lemma best_step (q : nat → nat → float) (done : list (nat * nat))
    (acc : nat * nat * float) (p : nat * nat) :
  best q done acc → best q (done ++ [p]) (scan_pure q acc p).
Proof.
  intros [Hval Hne Hmin (a & Ha & Hfirst)]. destruct p as [i j].
  unfold scan_pure. simpl. destruct (decide (i = j)) as [->|Hij].
  { split; [done | done | |].
    - intros i' j' [?|[=]%list_elem_of_singleton]%elem_of_app ?; [auto|].
      congruence.
    - exists a. split; [by apply lookup_app_l_Some|].
      intros Hnan b i' j' Hb Hlk. apply (fun H => Hfirst H b i' j' Hb).
      + intros ? ? ? ?. apply Hnan; [|done]. apply elem_of_app. by left.
      + apply lookup_lt_Some in Ha. by rewrite lookup_app_l in Hlk by lia. }
  destruct (q i j <? acc.2)%float eqn:Hlt.
  - split; simpl; [done | done | |].
    + intros i' j' [Hin|[= -> ->]%list_elem_of_singleton]%elem_of_app Hne';
        [|apply ltb_irrefl].
      destruct (q i' j' <? q i j)%float eqn:Hlt'; [|done].
      rewrite <- (Hmin i' j' Hin Hne'). symmetry. by eapply ltb_trans.
    + exists (length done). split.
      { by rewrite lookup_app_r, Nat.sub_diag by lia. }
      intros Hnan b i' j' Hb Hlk Hne'.
      rewrite lookup_app_l in Hlk by done.
      assert ((i', j') ∈ done) as Hin by (by eapply list_elem_of_lookup_2).
      destruct (ltb_negtrans _ _ (q i' j') Hlt) as [?|Hbad]; [|done|].
      * apply Hnan; [|done]. apply elem_of_app. by left.
      * by rewrite Hmin in Hbad.
  - split; [done | done | |].
    + intros i' j' [?|[= -> ->]%list_elem_of_singleton]%elem_of_app ?; auto.
    + exists a. split; [by apply lookup_app_l_Some|].
      intros Hnan b i' j' Hb Hlk. apply (fun H => Hfirst H b i' j' Hb).
      * intros ? ? ? ?. apply Hnan; [|done]. apply elem_of_app. by left.
      * apply lookup_lt_Some in Ha. by rewrite lookup_app_l in Hlk by lia.
Qed.

Lemma best_fold (q : nat → nat → float) (rest done : list (nat * nat))
    (acc : nat * nat * float) :
  best q done acc → best q (done ++ rest) (fold_left (scan_pure q) rest acc).
Proof.
  revert done acc. induction rest as [|p rest IH]; intros done acc H; simpl.
  - by rewrite app_nil_r.
  - rewrite (assoc_L _ done [p] rest : done ++ p :: rest = (done ++ [p]) ++ rest).
    by apply IH, best_step.
Qed.

Lemma best_scan (q : nat → nat → float) (a b : nat) (L' : list nat) :
  a ≠ b →
  best q (scan_pairs (a :: b :: L'))
    (fold_left (scan_pure q) (scan_pairs (a :: b :: L')) (a, b, q a b)).
Proof.
  intros Hab.
  assert (∃ rest, scan_pairs (a :: b :: L') = [(a, a); (a, b)] ++ rest)
    as [rest ->] by (eexists; reflexivity).
  rewrite fold_left_app.
  assert (fold_left (scan_pure q) [(a, a); (a, b)] (a, b, q a b) = (a, b, q a b))
    as ->.
  { simpl. unfold scan_pure at 2. simpl. rewrite decide_True by done.
    unfold scan_pure. simpl. rewrite decide_False by done.
    by rewrite ltb_irrefl. }
  apply best_fold. split; simpl; [done | done | |].
  - intros i j Hin Hne. apply elem_of_cons in Hin as [[= -> ->]|Hin]; [done|].
    apply list_elem_of_singleton in Hin as [= -> ->]. apply ltb_irrefl.
  - exists 1. split; [done|].
    intros _ n i j Hn Hlk Hne. destruct n; [|lia].
    injection Hlk as <- <-. done.
Qed.

Lemma elem_of_scan_pairs (L : list nat) (i j : nat) :
  (i, j) ∈ scan_pairs L ↔ i ∈ L ∧ j ∈ L.
Proof.
  unfold scan_pairs. rewrite list_elem_of_In, in_flat_map. split.
  - intros (x & Hx & Hin). apply in_map_iff in Hin as (y & [= <- <-] & Hy).
    by rewrite !list_elem_of_In.
  - intros [Hi Hj]. exists i. rewrite <- list_elem_of_In. split; [done|].
    apply in_map. by apply list_elem_of_In.
Qed.

(** ** [L.remove] on the active list *)

Lemma list_remove_length (x : nat) (l l' : list nat) :
  list_remove x l = Ok l' → S (length l') = length l.
Proof.
  revert l'; induction l as [|y l IH]; intros l' H; simpl in H; [done|].
  case_decide; inv_ok; subst; simpl; [done|].
  f_equal. by apply IH.
Qed.

Lemma list_remove_spec (x : nat) (l : list nat) :
  StronglySorted lt l → x ∈ l →
  ∃ l', list_remove x l = Ok l' ∧ StronglySorted lt l'
        ∧ ∀ y, y ∈ l' ↔ y ∈ l ∧ y ≠ x.
Proof.
  induction l as [|y l IH]; intros Hs Hx; [by apply elem_of_nil in Hx|].
  apply StronglySorted_cons in Hs as [Hall Hs]. rewrite Forall_forall in Hall.
  simpl. destruct (decide (x = y)) as [->|Hne].
  - exists l. split; [done|]. split; [done|].
    intros z. rewrite elem_of_cons. split.
    + intros Hz. split; [by right|]. apply Hall in Hz. lia.
    + intros [[->|Hz] Hne]; done.
  - apply elem_of_cons in Hx as [?|Hx]; [done|].
    destruct (IH Hs Hx) as (l' & -> & Hs' & Hl'). simpl.
    exists (y :: l'). split; [done|]. split.
    + apply StronglySorted_cons. split; [|done].
      apply Forall_forall. intros z Hz. apply Hall. by apply Hl'.
    + intros z. rewrite !elem_of_cons, Hl'. split.
      * intros [->|[? ?]]; [split; [by left | congruence] | split; [by right | done]].
      * intros [[->|?] ?]; [by left | by right].
Qed.

Lemma seq_sorted (s n : nat) : StronglySorted lt (seq s n).
Proof.
  revert s; induction n as [|n IH]; intros s; simpl; [constructor|].
  apply StronglySorted_cons. split; [|apply IH].
  apply Forall_forall. intros x Hx%elem_of_seq. lia.
Qed.

(** ** The loop invariant *)

Lemma matrix_over_size (n : nat) (d : store) : matrix_over n d → size d = n.
Proof.
  intros [Hdom _]. rewrite <- size_dom, Hdom. apply size_set_seq.
Qed.

Lemma nj_inv_init (n : nat) (d : store) :
  matrix_over n d → nj_inv n (nj_init d).
Proof.
  intros Hm. pose proof (matrix_over_size _ _ Hm) as Hsz.
  destruct Hm as [Hdom Hc]. unfold nj_init. rewrite Hsz.
  split; simpl; rewrite ?Nat.sub_diag, ?length_seq; try done; try lia.
  - apply seq_sorted.
  - intros x Hx%elem_of_seq. lia.
Qed.

Lemma select_spec (n : nat) (s : state) :
  nj_inv n s → 2 < length (st_L s) →
  ∃ i j r,
    select s = Ok (i, j, r)
    ∧ (∀ x, r !! x = if decide (x < st_k s)
                     then Some (rsum (st_d s) (st_L s) x) else None)
    ∧ best (score (st_d s) (st_L s)) (scan_pairs (st_L s))
        (i, j, score (st_d s) (st_L s) i j).
Proof.
  intros [Hs Hb Hc _ _ _ _ _] HL. destruct s as [L e d k]. simpl in *.
  destruct L as [|a [|b L']]; simpl in HL; try lia.
  assert (a ≠ b) as Hab.
  { apply StronglySorted_cons in Hs as [Hall _].
    rewrite Forall_forall in Hall.
    assert (a < b) by (apply Hall; by left). lia. }
  set (L := a :: b :: L') in *.
  destruct (averages_spec d L k) as (r & Hr & Er).
  { intros i j Hi Hj. apply Hc; auto. }
  { unfold L. simpl. lia. }
  assert (∃ D, adjusted d r L = Ok D
             ∧ ∀ i j, i ∈ L → j ∈ L → lookup2 D i j = Some (score d L i j))
    as (D & HD & ED).
  { apply (adjusted_spec d r L (rsum d L)).
    - intros i j Hi Hj. apply Hc; auto.
    - intros i Hi. rewrite Er, decide_True; auto. }
  pose proof (find_min_pure D L (score d L) ED a b L' eq_refl) as Hfm.
  pose proof (best_scan (score d L) a b L' Hab) as Hbest.
  fold L in Hbest.
  destruct (fold_left (scan_pure (score d L)) (scan_pairs L)
              (a, b, score d L a b)) as [[i j] m] eqn:Hfold.
  exists i, j, r. unfold select. simpl.
  rewrite Hr. simpl. rewrite HD. simpl. rewrite Hfm. simpl.
  split; [done|]. split; [done|].
  pose proof (best_val _ _ _ Hbest) as Hm. simpl in Hm. by rewrite <- Hm.
Qed.

Lemma complete_extended (k : nat) (d d' : store) :
  complete k d → extended k d d' → complete (k + 1) d'.
Proof.
  intros Hc [Hoff Hrow Hsym _ _] a b Ha Hb.
  destruct (decide (a = k)) as [->|Hak]; [apply Hrow; lia|].
  destruct (decide (b = k)) as [->|Hbk].
  - rewrite Hsym by lia. apply Hrow. lia.
  - rewrite Hoff by done. apply Hc; lia.
Qed.

(** One iteration, from a state of the invariant with more than two
    active ids: it succeeds, and this is the state it leaves. *)
Lemma nj_step_spec (n : nat) (s : state) :
  nj_inv n s → 2 < length (st_L s) →
  ∃ s' i j r,
    nj_step s = Ok s' ∧ select s = Ok (i, j, r)
    ∧ nj_inv n s'
    ∧ S (length (st_L s')) = length (st_L s)
    ∧ st_k s' = st_k s + 1
    ∧ st_edges s' = st_edges s ++ [(i, st_k s); (j, st_k s)]
    ∧ extended (st_k s) (st_d s) (st_d s').
Proof.
  intros Hinv HL.
  destruct (select_spec n s Hinv HL) as (i & j & r & Hsel & Er & Hbest).
  destruct Hinv as [Hs Hb Hc Hdom Hk Hlen Hedges Hnew].
  destruct (best_first _ _ _ Hbest) as (pos & Hpos & _).
  apply list_elem_of_lookup_2, elem_of_scan_pairs in Hpos as [Hi Hj].
  pose proof (best_ne _ _ _ Hbest) as Hij. simpl in *.
  destruct (list_remove_spec i (st_L s) Hs Hi) as (L1 & HL1 & Hs1 & E1).
  destruct (list_remove_spec j L1 Hs1) as (L2 & HL2 & Hs2 & E2).
  { apply E1. split; [done | congruence]. }
  destruct (extend_spec (st_d s) r i j (st_k s)) as (d' & Hd' & Hext);
    [done | by apply Hb | by apply Hb | | |].
  { rewrite Er, decide_True; [eauto | by apply Hb]. }
  { rewrite Er, decide_True; [eauto | by apply Hb]. }
  exists (State (L2 ++ [st_k s])
            (st_edges s ++ [(i, st_k s); (j, st_k s)]) d' (st_k s + 1)),
    i, j, r.
  split. { unfold nj_step. rewrite Hsel. simpl. rewrite HL1. simpl.
           rewrite HL2. simpl. rewrite Hd'. done. }
  split; [done|].
  apply list_remove_length in HL1, HL2.
  split;
    [|simpl; rewrite length_app; simpl;
      split; [lia | split; [done | split; done]]].
  split; simpl.
  - apply StronglySorted_app. split; [|split; [done | repeat constructor]].
    intros x y Hx ->%list_elem_of_singleton.
    apply Hb, E1, E2, Hx.
  - intros x [Hx| ->%list_elem_of_singleton]%elem_of_app; [|lia].
    assert (x < st_k s) by apply Hb, E1, E2, Hx. lia.
  - by eapply complete_extended.
  - rewrite (ext_dom _ _ _ Hext), Hdom, Nat.add_1_r.
    rewrite set_seq_S_end_union_L. done.
  - lia.
  - rewrite length_app. simpl. lia.
  - rewrite length_app. simpl. lia.
  - rewrite fmap_app, Hnew. simpl.
    replace (st_k s + 1 - n) with (S (st_k s - n)) by lia.
    rewrite seq_S, flat_map_app. simpl.
    by replace (n + (st_k s - n)) with (st_k s) by lia.
Qed.

(** ** Runs of the loop *)

Lemma nj_loop_run (fuel : nat) (s s' : state) :
  nj_loop fuel s = Ok s' → nj_run s s' ∧ length (st_L s') ≤ 2.
Proof.
  revert s; induction fuel as [|fuel IH]; intros s H; simpl in H;
    case_decide; try discriminate.
  - injection H as <-. split; [constructor | lia].
  - inv_ok. destruct (IH _ H) as [Hrun Hlen].
    split; [by eapply nj_run_step | done].
  - injection H as <-. split; [constructor | lia].
Qed.

(** What a successful iteration does, whatever the table. *)
Lemma nj_step_inv (s s' : state) :
  nj_step s = Ok s' →
  S (length (st_L s')) = length (st_L s)
  ∧ st_k s' = st_k s + 1
  ∧ off_node (st_k s) (st_d s) (st_d s').
Proof.
  unfold nj_step. intros H. inv_ok.
  repeat match goal with
  | H : (let '(_, _) := ?p in _) = Ok _ |- _ => destruct p
  | H : list_remove _ _ = Ok _ |- _ => apply list_remove_length in H
  | H : extend _ _ _ _ _ = Ok _ |- _ => apply extend_off_node in H
  end.
  inv_ok. subst s'. simpl. rewrite length_app. simpl. split; [lia | done].
Qed.

Lemma no_fuel_Ok {A : Type} (a : A) : no_fuel (Ok a).
Proof. done. Qed.

Lemma no_fuel_bind {A B : Type} (m : result A) (f : A → result B) :
  no_fuel m → (∀ a, no_fuel (f a)) → no_fuel (m ≫= f).
Proof.
  intros Hm Hf. destruct m as [a|e]; simpl; [apply Hf|].
  intros [= ->]. by apply Hm.
Qed.

Lemma no_fuel_of_option {A : Type} (e : exn) (o : option A) :
  e ≠ LoopFuel → no_fuel (of_option e o).
Proof. destruct o; simpl; [done | congruence]. Qed.

Lemma no_fuel_foldM {A B : Type} (f : A → B → result A) (a : A) (l : list B) :
  (∀ a x, no_fuel (f a x)) → no_fuel (foldM f a l).
Proof.
  intros Hf. revert a; induction l as [|x l IH]; intros a; simpl; [done|].
  apply no_fuel_bind; auto.
Qed.

Lemma no_fuel_list_remove (x : nat) (l : list nat) : no_fuel (list_remove x l).
Proof.
  induction l as [|y l IH]; simpl; [done|].
  case_decide; [done|]. apply no_fuel_bind; [done | by intros].
Qed.

Ltac no_fuel :=
  repeat first
    [ apply no_fuel_Ok
    | apply no_fuel_list_remove
    | apply no_fuel_of_option; discriminate
    | apply no_fuel_foldM; intros
    | apply no_fuel_bind; [|intros]
    | progress unfold getd, setd, div_int, scan_step, join_row
    | case_decide
    | match goal with
      | |- no_fuel (match ?p with _ => _ end) => destruct p
      | |- no_fuel (let '(_, _) := ?p in _) => destruct p
      end
    | discriminate ].

Lemma no_fuel_nj_step (s : state) : no_fuel (nj_step s).
Proof.
  unfold nj_step, select, averages, adjusted, find_min, extend. no_fuel.
Qed.

(** The fuel [neighbor_join] gives never runs out. *)
Lemma nj_loop_fuel (fuel : nat) (s : state) :
  length (st_L s) ≤ fuel + 2 → no_fuel (nj_loop fuel s).
Proof.
  revert s; induction fuel as [|fuel IH]; intros s Hlen; simpl;
    case_decide; try done; try lia.
  destruct (nj_step s) as [s'|e] eqn:Hstep; simpl.
  - apply IH. apply nj_step_inv in Hstep as (Hl & _). lia.
  - rewrite <- Hstep. apply no_fuel_nj_step.
Qed.

Lemma neighbor_join_fuel (d : store) : no_fuel (neighbor_join d).
Proof.
  unfold neighbor_join, nj_finish. apply no_fuel_bind.
  - apply nj_loop_fuel. simpl. rewrite length_seq. lia.
  - intros s. no_fuel.
Qed.

Lemma nj_run_inv (n : nat) (s s' : state) :
  nj_inv n s → nj_run s s' → nj_inv n s'.
Proof.
  intros Hinv Hrun. induction Hrun as [s|s s1 s2 HL Hstep _ IH]; [done|].
  apply IH.
  destruct (nj_step_spec n s Hinv HL) as (s' & ? & ? & ? & Hs' & _ & Hinv' & _).
  congruence.
Qed.

Lemma nj_run_length (s s' : state) :
  nj_run s s' → 2 ≤ length (st_L s) → 2 ≤ length (st_L s').
Proof.
  induction 1 as [s|s s1 s2 HL Hstep _ IH]; [done|]. intros _.
  apply IH. apply nj_step_inv in Hstep as (Hl & _). lia.
Qed.

(** The entries between ids below [n] stay as they are. *)
Lemma nj_run_frame (n : nat) (s s' : state) :
  nj_run s s' → n ≤ st_k s →
  ∀ a b, a < n → b < n → lookup2 (st_d s') a b = lookup2 (st_d s) a b.
Proof.
  induction 1 as [s|s s1 s2 HL Hstep _ IH]; [done|]. intros Hk a b Ha Hb.
  apply nj_step_inv in Hstep as (_ & Hk1 & Hoff).
  rewrite IH by lia. apply Hoff; lia.
Qed.

Lemma symmetric_extended (k : nat) (d d' : store) :
  symmetric k d → extended k d d' → symmetric (k + 1) d'.
Proof.
  intros Hsym [Hoff _ Hs _ _] a b Ha Hb.
  destruct (decide (a = k)) as [->|Hak].
  { symmetry. apply Hs. lia. }
  destruct (decide (b = k)) as [->|Hbk].
  { apply Hs. lia. }
  rewrite !Hoff by done. apply Hsym; lia.
Qed.

Lemma zero_diagonal_extended (k : nat) (d d' : store) :
  zero_diagonal k d → extended k d d' → zero_diagonal (k + 1) d'.
Proof.
  intros Hz [Hoff _ _ Hd _] a Ha.
  destruct (decide (a = k)) as [->|Hak]; [done|].
  rewrite Hoff by done. apply Hz. lia.
Qed.

Lemma nj_run_symmetric (n : nat) (s s' : state) :
  nj_inv n s → nj_run s s' →
  symmetric (st_k s) (st_d s) → zero_diagonal (st_k s) (st_d s) →
  symmetric (st_k s') (st_d s') ∧ zero_diagonal (st_k s') (st_d s').
Proof.
  intros Hinv Hrun. induction Hrun as [s|s s1 s2 HL Hstep _ IH]; [done|].
  intros Hsym Hz.
  destruct (nj_step_spec n s Hinv HL)
    as (s' & ? & ? & ? & Hs' & _ & Hinv' & _ & Hk & _ & Hext).
  assert (s' = s1) as -> by congruence.
  apply IH; [done | |]; rewrite Hk.
  - by eapply symmetric_extended.
  - by eapply zero_diagonal_extended.
Qed.

(** From a state of the invariant the loop ends, with two active ids. *)
Lemma nj_loop_spec (n fuel : nat) (s : state) :
  nj_inv n s → length (st_L s) ≤ fuel + 2 → 2 ≤ length (st_L s) →
  ∃ s', nj_loop fuel s = Ok s' ∧ nj_run s s' ∧ nj_inv n s'
        ∧ length (st_L s') = 2 ∧ st_k s' = 2 * n - 2.
Proof.
  intros Hinv Hfuel Hlen.
  assert (∃ s', nj_loop fuel s = Ok s') as [s' Hs'].
  { clear Hlen. revert s Hinv Hfuel.
    induction fuel as [|fuel IH]; intros s Hinv Hfuel; simpl;
      case_decide; try lia; eauto.
    destruct (nj_step_spec n s Hinv) as (s1 & ? & ? & ? & -> & _ & Hinv1 & Hl & _);
      [done|].
    simpl. apply IH; [done | lia]. }
  exists s'. split; [done|].
  destruct (nj_loop_run _ _ _ Hs') as [Hrun Hle].
  pose proof (nj_run_length _ _ Hrun Hlen) as Hge.
  pose proof (nj_run_inv _ _ _ Hinv Hrun) as Hinv'.
  split; [done|]. split; [done|]. split; [lia|].
  pose proof (inv_len _ _ Hinv'). lia.
Qed.

(** ** Tables given by a function *)

Lemma list_to_map_seq {A : Type} (g : nat → A) (s n i : nat) :
  (list_to_map ((fun j => (j, g j)) <$> seq s n) : gmap nat A) !! i
  = if decide (s ≤ i < s + n) then Some (g i) else None.
Proof.
  revert s; induction n as [|n IH]; intros s; simpl.
  - rewrite lookup_empty, decide_False; [done | lia].
  - destruct (decide (i = s)) as [->|Hne].
    + rewrite lookup_insert_eq, decide_True; [done | lia].
    + rewrite lookup_insert_ne, IH by done.
      destruct (decide (S s ≤ i < S s + n)).
      * rewrite decide_True; [done | lia].
      * rewrite decide_False; [done | lia].
Qed.

Lemma lookup2_table (n : nat) (f : nat → nat → float) (i j : nat) :
  lookup2 (table n f) i j
  = if decide (i < n ∧ j < n) then Some (f i j) else None.
Proof.
  unfold lookup2, table.
  rewrite (list_to_map_seq
             (fun i => list_to_map ((fun j => (j, f i j)) <$> seq 0 n))).
  destruct (decide (0 ≤ i < 0 + n)); simpl.
  - rewrite (list_to_map_seq (f i)).
    destruct (decide (0 ≤ j < 0 + n)).
    + rewrite decide_True; [done | lia].
    + rewrite decide_False; [done | lia].
  - rewrite decide_False; [done | lia].
Qed.

Lemma matrix_over_table (n : nat) (f : nat → nat → float) :
  matrix_over n (table n f).
Proof.
  split.
  - apply set_eq. intros i. rewrite elem_of_dom, elem_of_set_seq. unfold table.
    rewrite (list_to_map_seq
               (fun i => list_to_map ((fun j => (j, f i j)) <$> seq 0 n))).
    case_decide; split; intros H'; try lia; eauto.
    by destruct H'.
  - intros a b Ha Hb. rewrite lookup2_table, decide_True; eauto.
Qed.

Lemma valid_matrix_table (n : nat) (f : nat → nat → float) :
  (∀ i j, i < n → j < n → f i j = f j i) →
  (∀ i, i < n → f i i = 0%float) →
  valid_matrix n (table n f).
Proof.
  intros Hsym Hz. split; [apply matrix_over_table|]. split.
  - intros a b Ha Hb. rewrite !lookup2_table, !decide_True by done.
    f_equal. by apply Hsym.
  - intros a Ha. rewrite lookup2_table, decide_True by done.
    f_equal. by apply Hz.
Qed.

Lemma valid_two_pairs : valid_matrix 4 two_pairs.
Proof.
  apply valid_matrix_table.
  - intros i j Hi Hj. repeat case_decide; done || lia.
  - intros i Hi. by rewrite decide_True.
Qed.

Lemma valid_zeros3 : valid_matrix 3 zeros3.
Proof. by apply valid_matrix_table. Qed.

Lemma valid_two_leaves : valid_matrix 2 two_leaves.
Proof.
  apply valid_matrix_table.
  - intros i j Hi Hj. repeat case_decide; done || lia.
  - intros i Hi. by rewrite decide_True.
Qed.

(** ** The reducer as a whole *)

(** On a table over [0..n-1], [n >= 2], the loop ends in a state of the
    invariant with two active ids, and the last edge joins them. *)
Lemma neighbor_join_run (n : nat) (d : store) :
  matrix_over n d → 2 ≤ n →
  ∃ s a b,
    nj_loop (size d) (nj_init d) = Ok s
    ∧ nj_run (nj_init d) s ∧ nj_inv n s
    ∧ st_L s = [a; b] ∧ st_k s = 2 * n - 2
    ∧ neighbor_join d = Ok (st_edges s ++ [(a, b)], st_d s).
Proof.
  intros Hm Hn. pose proof (matrix_over_size _ _ Hm) as Hsz.
  destruct (nj_loop_spec n (size d) (nj_init d))
    as (s & Hloop & Hrun & Hinv & Hlen & Hk).
  - by apply nj_inv_init.
  - simpl. rewrite length_seq. lia.
  - simpl. rewrite length_seq. lia.
  - destruct (st_L s) as [|a [|b [|? ?]]] eqn:HL; try done.
    exists s, a, b. repeat (split; [done|]).
    unfold neighbor_join. rewrite Hloop. simpl.
    unfold nj_finish. by rewrite HL.
Qed.

Lemma scan_pairs_sorted (L : list nat) :
  StronglySorted lt L → StronglySorted pair_lt (scan_pairs L).
Proof.
  intros HL. unfold scan_pairs.
  assert (∀ L1, StronglySorted lt L1 →
            StronglySorted pair_lt (flat_map (fun i => map (pair i) L) L1)) as H.
  { induction L1 as [|i L1 IH]; intros Hs; simpl; [constructor|].
    apply StronglySorted_cons in Hs as [Hall Hs].
    rewrite Forall_forall in Hall.
    apply StronglySorted_app. split; [|split; [|by apply IH]].
    - intros p q Hp Hq. left.
      apply list_elem_of_In, in_map_iff in Hp as (? & <- & _).
      apply list_elem_of_In, in_flat_map in Hq as (y & Hy & Hq).
      apply in_map_iff in Hq as (? & <- & _). simpl.
      by apply Hall, list_elem_of_In.
    - clear -HL. induction HL as [|x l _ IH Hx]; simpl; constructor; [done|].
      rewrite Forall_forall in Hx. apply Forall_forall.
      intros q (y & -> & Hy)%list_elem_of_fmap. right. simpl. auto. }
  by apply H.
Qed.

(** ** Serialization *)

Lemma generate_newick_bad_node (limit x : nat) (tm : tree) (d : store)
    (mapping : option (gmap nat string)) (first : bool) (cs : list nat) :
  tm !! x = Some cs → length cs ≠ 0 → length cs ≠ 2 →
  generate_newick (S limit) x tm d mapping first = Raise ValueError.
Proof.
  intros Hx H0 H2. simpl. rewrite Hx. simpl.
  by destruct cs as [|a [|b [|c cs]]].
Qed.

Ltac step_raise :=
  match goal with
  | |- ∃ e, ?m ≫= _ = Raise e => destruct m as [?|?]; simpl; [|by eexists]
  end.

Lemma generate_newick_reaches (tm : tree) (d : store)
    (mapping : option (gmap nat string)) (root x : nat) (cs : list nat) :
  reaches tm root x → tm !! x = Some cs → length cs ≠ 0 → length cs ≠ 2 →
  ∀ limit first, ∃ e, generate_newick limit root tm d mapping first = Raise e.
Proof.
  intros Hr Hx H0 H2.
  induction Hr as [x|x i j y Hxy _ IH|x i j y Hxy _ IH];
    intros [|limit] first; try (by eexists).
  - eexists. by eapply generate_newick_bad_node.
  - simpl. rewrite Hxy. simpl. do 2 step_raise.
    destruct (IH Hx limit false) as [e ->]. by eexists.
  - simpl. rewrite Hxy. simpl. do 3 step_raise.
    destruct (IH Hx limit false) as [e ->]. by eexists.
Qed.

(** ** The text of a length *)

Lemma all_digits_app (s t : string) :
  all_digits (s +:+ t) = all_digits s && all_digits t.
Proof.
  induction s as [|c s IH]; simpl; [done|].
  by rewrite IH, andb_assoc.
Qed.

Lemma digit_spec (n : Z) :
  (0 ≤ n < 10)%Z →
  all_digits (digit n) = true ∧ String.length (digit n) = 1.
Proof.
  intros Hn.
  assert (n ∈ [0; 1; 2; 3; 4; 5; 6; 7; 8; 9]%Z) as Hin.
  { rewrite !elem_of_cons. lia. }
  rewrite !elem_of_cons in Hin.
  repeat (destruct Hin as [->|Hin]; [by vm_compute|]).
  by apply elem_of_nil in Hin.
Qed.

Lemma length_append (s t : string) :
  String.length (s +:+ t) = String.length s + String.length t.
Proof. induction s as [|c s IH]; simpl; [done | by rewrite IH]. Qed.

Lemma frac6_spec (v : Z) :
  all_digits (frac6 v) = true ∧ String.length (frac6 v) = 6.
Proof.
  unfold frac6.
  repeat match goal with
  | |- context [digit ?n] =>
      let H := fresh in
      let Hl := fresh in
      destruct (digit_spec n) as [H Hl]; [apply Z.mod_pos_bound; lia|];
      generalize dependent (digit n); intros
  end.
  rewrite !all_digits_app, !length_append.
  repeat match goal with H : _ = _ |- _ => rewrite H; clear H end.
  done.
Qed.

Lemma string_of_uint_digits (u : Decimal.uint) :
  all_digits (NilEmpty.string_of_uint u) = true.
Proof. induction u; simpl; auto. Qed.

Lemma string_of_uint_nonempty (u : Decimal.uint) :
  all_digits (NilZero.string_of_uint u) = true
  ∧ NilZero.string_of_uint u ≠ "".
Proof.
  destruct u; (split; [|done]); try done;
    apply (string_of_uint_digits (_ u)).
Qed.

Lemma format_6f_finite (x : float) :
  PrimFloat.is_finite x = true → six_decimals (format_6f x).
Proof.
  unfold PrimFloat.is_finite. intros H.
  apply negb_true_iff, orb_false_iff in H as [Hnan Hinf].
  assert (∀ s : bool, six_decimals ((if s then "-" else "") +:+ "0.000000"))
    as Hzero.
  { intros s. exists (if s then "-" else ""), "0", "000000".
    repeat split; try done. destruct s; auto. }
  unfold format_6f, Prim2SF. rewrite Hnan.
  destruct (PrimFloat.is_zero x); [apply Hzero|]. rewrite Hinf.
  destruct (Z.frexp x) as [m e].
  destruct (shr_fexp _ _ _ _ _) as [sh e'].
  destruct (shr_m sh) as [|p|p]; try apply (Hzero false).
  eexists (if get_sign x then "-" else ""), _, _.
  split; [reflexivity|]. split; [destruct (get_sign x); auto|].
  destruct (string_of_uint_nonempty
              (N.to_uint (Z.to_N
                 (match e' with
                  | Zneg p0 => round_half_even (Z.pos p * 1000000) (2 ^ Z.pos p0)
                  | _ => (Z.pos p * 2 ^ e' * 1000000)%Z
                  end / 1000000)))) as [Hd Hne].
  split; [exact Hne|]. split; [exact Hd|]. apply frac6_spec.
Qed.

Example cherry_newick :
  generate_newick 2 2 cherry cherry_store None true
  = Ok "(0:1.500000,1:1.500000);".
Proof. vm_compute. reflexivity. Qed.

Example two_pairs_newick :
  (neighbor_join two_pairs ≫= fun p =>
   insert_root p.1 p.2 ≫= fun q =>
   assemble_tree 100 q.1 q.2 ≫= fun t =>
   generate_newick 100 q.1 t p.2 None true)
  = Ok "((0:0.500000,1:0.500000):4.500000,(2:0.500000,3:0.500000):4.500000);".
Proof. vm_compute. reflexivity. Qed.

(** ** The root *)

Lemma longest_step (d : store) (done : list edge) (acc : float * nat * nat)
    (e : edge) :
  (∀ e', e' ∈ done ++ [e] →
     ∃ w, lookup2 d e'.1 e'.2 = Some w ∧ PrimFloat.is_nan w = false) →
  longest d done acc →
  ∃ acc', max_step d acc e = Ok acc' ∧ longest d (done ++ [e]) acc'.
Proof.
  intros Hw Hacc.
  assert (∀ e', e' ∈ done ++ [e] →
            lookup2 d e'.1 e'.2 = Some (weight d e')
            ∧ PrimFloat.is_nan (weight d e') = false) as Hw'.
  { intros e' (w & Hlk & Hn)%Hw. unfold weight, dget. by rewrite Hlk. }
  destruct (Hw' e) as [Hlk _]; [apply elem_of_app; right; by left|].
  unfold max_step. rewrite !getd_lookup2, Hlk. simpl.
  destruct (acc.1.1 <? weight d e)%float eqn:Hlt; simpl;
    (eexists; split; [reflexivity|]).
  - destruct e as [i j]. right. exists done, []. simpl.
    split; [done|]. split; [done|].
    assert (∀ e', e' ∈ done → (acc.1.1 <? weight d e')%float = false) as Hmax.
    { destruct Hacc as [[-> H0]|(? & ? & _ & _ & _ & Hmax & _)]; done. }
    split; [|split].
    + destruct Hacc as [[-> _]|(? & ? & _ & _ & H0 & _)]; [done|].
      by eapply ltb_trans.
    + intros e' [Hin| ->%list_elem_of_singleton]%elem_of_app;
        [|apply ltb_irrefl].
      destruct (weight d (i, j) <? weight d e')%float eqn:Hlt'; [|done].
      rewrite <- (Hmax e' Hin). symmetry. by eapply ltb_trans.
    + intros e' Hin.
      destruct (ltb_negtrans _ _ (weight d e') Hlt) as [Hbad|?]; [|by rewrite Hmax in Hbad|done].
      apply Hw'. apply elem_of_app. by left.
  - destruct Hacc as [[-> H0]|(pre & post & -> & Hval & Hpos & Hmax & Hpre)].
    + left. split; [done|].
      intros e' [?| ->%list_elem_of_singleton]%elem_of_app; auto.
    + right. exists pre, (post ++ [e]).
      split; [by rewrite <- app_assoc|]. repeat (split; [done|]). split; [|done].
      intros e' [?| ->%list_elem_of_singleton]%elem_of_app; auto.
Qed.

Lemma list_remove_first {A : Type} `{EqDecision A} (x : A) (pre post : list A) :
  x ∉ pre → list_remove x (pre ++ x :: post) = Ok (pre ++ post).
Proof.
  induction pre as [|y pre IH]; intros Hx; simpl.
  - by rewrite decide_True.
  - rewrite decide_False by (intros ->; apply Hx; by left).
    rewrite IH; [done|]. intros ?. apply Hx. by right.
Qed.

(** Where some edge is longer than [0] and the weights are numbers, the
    root insertion takes out the first of the longest edges, puts the
    root at the id [len(d)] and joins the two ends of that edge to it. *)
Lemma insert_root_longest (edges : list edge) (d : store) :
  (∀ e, e ∈ edges →
     ∃ w, lookup2 d e.1 e.2 = Some w ∧ PrimFloat.is_nan w = false) →
  (∃ e, e ∈ edges ∧ (0 <? weight d e)%float = true) →
  ∃ i j pre post,
    edges = pre ++ (i, j) :: post
    ∧ insert_root edges d
      = Ok (size d, (pre ++ post) ++ [(i, size d); (j, size d)])
    ∧ (∀ e, e ∈ edges → (weight d (i, j) <? weight d e)%float = false)
    ∧ (∀ e, e ∈ pre → (weight d e <? weight d (i, j))%float = true).
Proof.
  intros Hw (e0 & He0 & Hpos).
  destruct (foldM_inv (longest d) (max_step d) edges (0%float, 0, 0))
    as ([[m i] j] & Hfold & Hlong).
  - left. split; [done | by intros ? ?%elem_of_nil].
  - intros pre x post acc Heq Hacc. apply longest_step; [|done].
    intros e' He'. apply Hw. rewrite Heq, (assoc_L _ pre [x] post : pre ++ x :: post = (pre ++ [x]) ++ post).
    apply elem_of_app. by left.
  - destruct Hlong as [[_ H0]|(pre & post & Heq & Hval & _ & Hmax & Hpre)].
    { by rewrite H0 in Hpos. }
    simpl in *. subst m. exists i, j, pre, post. split; [done|].
    split; [|done].
    unfold insert_root, find_max. rewrite Hfold. simpl.
    rewrite Heq, list_remove_first; [done|].
    intros Hin. apply Hpre in Hin. by rewrite ltb_irrefl in Hin.
Qed.

(** ** The shape of the edges *)

Lemma list_remove_perm {A : Type} `{EqDecision A} (x : A) (l l' : list A) :
  list_remove x l = Ok l' → l ≡ₚ x :: l'.
Proof.
  revert l'; induction l as [|y l IH]; intros l' H; simpl in H; [done|].
  case_decide; inv_ok; subst; [done|].
  match goal with H : list_remove _ _ = Ok _ |- _ => rewrite (IH _ H) end.
  apply perm_swap.
Qed.

Lemma nj_step_active (s s' : state) (i j : nat) (r : row) :
  select s = Ok (i, j, r) → nj_step s = Ok s' →
  ∃ L1 L2,
    list_remove i (st_L s) = Ok L1 ∧ list_remove j L1 = Ok L2
    ∧ st_L s' = L2 ++ [st_k s].
Proof.
  intros Hsel Hstep. unfold nj_step in Hstep. rewrite Hsel in Hstep.
  simpl in Hstep. inv_ok. subst s'. simpl. eauto.
Qed.

Lemma nj_shape_init (n : nat) (d : store) :
  size d = n → nj_shape n (nj_init d).
Proof.
  intros Hsz. unfold nj_init. rewrite Hsz. split; simpl; [|done|lia].
  by intros e ?%elem_of_nil.
Qed.

Lemma nj_shape_step (n : nat) (s s' : state) :
  nj_inv n s → nj_shape n s → 2 < length (st_L s) → nj_step s = Ok s' →
  nj_shape n s'.
Proof.
  intros Hinv [Hup Hperm _] HL Hstep.
  destruct (nj_step_spec n s Hinv HL)
    as (s1 & i & j & r & Hstep1 & Hsel & _ & _ & Hk & Hedges & _).
  assert (s1 = s') as -> by congruence.
  destruct (select_spec n s Hinv HL) as (i' & j' & r' & Hsel' & _ & Hbest).
  rewrite Hsel in Hsel'. injection Hsel' as <- <- <-.
  destruct (best_first _ _ _ Hbest) as (pos & Hpos & _).
  apply list_elem_of_lookup_2, elem_of_scan_pairs in Hpos as [Hi Hj].
  simpl in Hi, Hj.
  destruct (nj_step_active _ _ _ _ _ Hsel Hstep) as (L1 & L2 & H1 & H2 & HL').
  apply list_remove_perm in H1, H2.
  split.
  - rewrite Hedges. intros e [He|He]%elem_of_app; [by apply Hup|].
    apply elem_of_cons in He as [->|He]; simpl.
    { by apply (inv_below _ _ Hinv). }
    apply list_elem_of_singleton in He as ->. simpl.
    by apply (inv_below _ _ Hinv).
  - rewrite Hedges, HL', Hk, fmap_app. simpl.
    rewrite Nat.add_1_r, seq_S. simpl. rewrite <- Hperm, H1, H2.
    rewrite <- !app_assoc. simpl.
    rewrite (assoc_L _ L2 [st_k s] [] : L2 ++ [st_k s] = (L2 ++ [st_k s]) ++ []).
    solve_Permutation.
  - intros _. rewrite HL', Hk, last_snoc. f_equal. lia.
Qed.

Lemma nj_run_shape (n : nat) (s s' : state) :
  nj_inv n s → nj_shape n s → nj_run s s' → nj_shape n s'.
Proof.
  intros Hinv Hsh Hrun. induction Hrun as [s|s s1 s2 HL Hstep _ IH]; [done|].
  apply IH.
  - eapply nj_run_inv; [done|]. eapply nj_run_step; [done..|constructor].
  - by eapply nj_shape_step.
Qed.

(** ** The entries of a new node *)

Lemma join_fold_values (d0 : store) (r : row) (i j k : nat) :
  complete k d0 → i < k → j < k →
  is_Some (r !! i) → is_Some (r !! j) →
  ∃ d2, foldM (join_row i j k)
          (<[k := zero_row (seq 0 (k + 1))]> d0) (seq 0 (k + 1)) = Ok d2
        ∧ join_inv k d0 (seq 0 (k + 1)) d2
        ∧ ∀ m, m < k →
            lookup2 d2 k m
            = Some (half * (dget d0 i m + dget d0 j m - dget d0 i j))%float.
Proof.
  intros Hc Hi Hj Hri Hrj.
  destruct (foldM_inv (fun pre dm =>
              join_inv k d0 pre dm
              ∧ ∀ m, m ∈ pre → m < k →
                  lookup2 dm k m
                  = Some (half * (dget d0 i m + dget d0 j m - dget d0 i j))%float)
            (join_row i j k) (seq 0 (k + 1))
            (<[k := zero_row (seq 0 (k + 1))]> d0)) as (d2 & Hfold & Hinv & Hval).
  - split; [by apply (join_inv_start d0 r i j) | by intros m ?%elem_of_nil].
  - intros pre x post dm Hseq [Hinv Hval].
    destruct (join_inv_step d0 r i j k Hc Hi Hj Hri Hrj pre post x dm Hseq Hinv)
      as (dm' & Hrow & Hinv').
    exists dm'. split; [done|]. split; [done|].
    pose proof (fun y => seq_split_elem _ _ y _ _ Hseq) as Hpre.
    unfold join_row in Hrow. inv_ok.
    repeat match goal with
    | H : getd _ _ _ = Ok _ |- _ => apply getd_Ok in H
    end.
    repeat match goal with
    | H : setd _ _ _ _ = Ok _ |- _ =>
        pose proof (fun u v => lookup2_setd _ _ _ _ u v _ H); clear H
    end.
    intros m Hm Hmk.
    match goal with
    | E2 : ∀ u v, lookup2 dm' u v = _, E1 : ∀ u v, lookup2 ?d1 u v = _ |- _ =>
        rewrite E2, E1 in *
    end.
    rewrite decide_False by lia.
    rewrite decide_True in * by done. simplify_eq.
    apply elem_of_app in Hm as [Hm| ->%list_elem_of_singleton].
    + rewrite decide_False; [by apply Hval|].
      apply Hpre in Hm. lia.
    + rewrite decide_True by done.
      pose proof (ji_off _ _ _ _ Hinv) as Hoff.
      rewrite !Hoff in * by lia.
      unfold dget.
      repeat match goal with H : lookup2 d0 _ _ = Some _ |- _ => rewrite H end.
      done.
  - exists d2. split; [done|]. split; [done|].
    intros m Hm. apply Hval; [apply elem_of_seq; lia | done].
Qed.

(** The entries that [extend] writes for the node [k] made of [i] and
    [j]. *)
Lemma extend_values (d0 : store) (r : row) (i j k : nat) (ri rj : float) :
  complete k d0 → i < k → j < k → i ≠ j →
  r !! i = Some ri → r !! j = Some rj →
  ∃ d', extend d0 r i j k = Ok d'
    ∧ (∀ m, m < k → m ≠ i → m ≠ j →
         lookup2 d' k m
         = Some (half * (dget d0 i m + dget d0 j m - dget d0 i j))%float)
    ∧ lookup2 d' i k = Some (half * (dget d0 i j + ri - rj))%float
    ∧ lookup2 d' j k
      = Some (dget d0 i j - half * (dget d0 i j + ri - rj))%float.
Proof.
  intros Hc Hi Hj Hij Ei Ej.
  destruct (join_fold_values d0 r i j k Hc Hi Hj)
    as (d2 & Hfold & [Hoff Hrow Hsym Hdom] & Hval); [eauto..|].
  assert (∀ a, a ≤ k → is_Some (d2 !! a)) as Hrows.
  { intros a Ha. destruct (decide (a = k)) as [->|Hne].
    - apply (lookup2_is_Some_row _ _ k), Hrow. lia.
    - apply (lookup2_is_Some_row _ _ a). rewrite Hoff by done.
      apply Hc; lia. }
  assert (lookup2 d2 i j = Some (dget d0 i j)) as Hdij.
  { rewrite Hoff by lia. apply lookup2_dget, Hc; lia. }
  set (dij := dget d0 i j) in *.
  set (bi := (half * (dij + ri - rj))%float).
  destruct (setd_is_Some d2 i k bi) as [d3 Hd3]; [apply Hrows; lia|].
  pose proof (fun u v => lookup2_setd _ _ _ _ u v _ Hd3) as E3.
  pose proof (fun u => rows_setd _ _ _ _ u _ Hd3) as R3.
  assert (lookup2 d3 i j = Some dij) as Hdij3.
  { rewrite E3, decide_False; [done | lia]. }
  assert (lookup2 d3 i k = Some bi) as Hdik.
  { rewrite E3, decide_True; done. }
  destruct (setd_is_Some d3 j k (dij - bi)%float) as [d4 Hd4];
    [apply R3, Hrows; lia|].
  pose proof (fun u v => lookup2_setd _ _ _ _ u v _ Hd4) as E4.
  pose proof (fun u => rows_setd _ _ _ _ u _ Hd4) as R4.
  assert (lookup2 d4 i k = Some bi) as Hdik4.
  { rewrite E4, decide_False, Hdik; [done | tauto]. }
  destruct (setd_is_Some d4 k i bi) as [d5 Hd5]; [apply R4, R3, Hrows; lia|].
  pose proof (fun u v => lookup2_setd _ _ _ _ u v _ Hd5) as E5.
  pose proof (fun u => rows_setd _ _ _ _ u _ Hd5) as R5.
  assert (lookup2 d5 j k = Some (dij - bi)%float) as Hdjk5.
  { rewrite E5, decide_False, E4, decide_True; [done | done | lia]. }
  destruct (setd_is_Some d5 k j (dij - bi)%float) as [d6 Hd6];
    [apply R5, R4, R3, Hrows; lia|].
  pose proof (fun u v => lookup2_setd _ _ _ _ u v _ Hd6) as E6.
  pose proof (fun u => rows_setd _ _ _ _ u _ Hd6) as R6.
  destruct (setd_is_Some d6 k k 0%float) as [d7 Hd7];
    [apply R6, R5, R4, R3, Hrows; lia|].
  pose proof (fun u v => lookup2_setd _ _ _ _ u v _ Hd7) as E7.
  exists d7. split; [|split; [|split]].
  - unfold extend. rewrite Hfold. simpl.
    rewrite (proj2 (getd_Ok _ _ _ _) Hdij), Ei, Ej. simpl.
    fold bi. rewrite Hd3. simpl.
    rewrite (proj2 (getd_Ok _ _ _ _) Hdij3), (proj2 (getd_Ok _ _ _ _) Hdik).
    simpl. rewrite Hd4. simpl.
    rewrite (proj2 (getd_Ok _ _ _ _) Hdik4). simpl. rewrite Hd5. simpl.
    rewrite (proj2 (getd_Ok _ _ _ _) Hdjk5). simpl. rewrite Hd6. simpl.
    exact Hd7.
  - intros m Hm Hmi Hmj. rewrite E7, E6, E5, E4, E3.
    repeat (rewrite decide_False by (intros [? ?]; lia)). by apply Hval.
  - rewrite E7, E6, E5, E4, E3.
    repeat (rewrite decide_False by (intros [? ?]; lia)).
    by rewrite decide_True.
  - rewrite E7, E6, E5, E4.
    repeat (rewrite decide_False by (intros [? ?]; lia)).
    by rewrite decide_True.
Qed.

(** ** Which exceptions *)

Lemma raises_Ok {A : Type} (P : exn → Prop) (a : A) : raises_only P (Ok a).
Proof. intros e [=]. Qed.

Lemma raises_Raise {A : Type} (P : exn → Prop) (e : exn) :
  P e → raises_only P (Raise e : result A).
Proof. intros He e' [= <-]. exact He. Qed.

Lemma raises_bind {A B : Type} (P : exn → Prop) (m : result A)
    (f : A → result B) :
  raises_only P m → (∀ a, raises_only P (f a)) → raises_only P (m ≫= f).
Proof.
  intros Hm Hf. destruct m as [a|e]; simpl; [apply Hf|].
  intros e' [= <-]. by apply Hm.
Qed.

Lemma raises_of_option {A : Type} (P : exn → Prop) (e : exn) (o : option A) :
  P e → raises_only P (of_option e o).
Proof. intros He. destruct o; [apply raises_Ok | by apply raises_Raise]. Qed.

Lemma raises_foldM {A B : Type} (P : exn → Prop) (f : A → B → result A)
    (a : A) (l : list B) :
  (∀ a x, raises_only P (f a x)) → raises_only P (foldM f a l).
Proof.
  intros Hf. revert a; induction l as [|x l IH]; intros a; simpl.
  - apply raises_Ok.
  - apply raises_bind; auto.
Qed.

Lemma raises_getd (d : store) (i j : nat) :
  raises_only (eq KeyError) (getd d i j).
Proof.
  unfold getd. apply raises_bind; [|intros ?]; by apply raises_of_option.
Qed.

Lemma raises_setd (d : store) (i j : nat) (v : float) :
  raises_only (eq KeyError) (setd d i j v).
Proof.
  unfold setd. apply raises_bind; [by apply raises_of_option|].
  intros ?. apply raises_Ok.
Qed.

(** A loop that ends has done every round. *)
Lemma foldM_Ok_all {A B : Type} (f : A → B → result A) (l : list B) (a a' : A) :
  foldM f a l = Ok a' → ∀ x, x ∈ l → ∃ a1 a2, f a1 x = Ok a2.
Proof.
  revert a; induction l as [|y l IH]; intros a H x Hx; simpl in H.
  - by apply elem_of_nil in Hx.
  - inv_ok. apply elem_of_cons in Hx as [->|Hx]; [eauto|].
    by eapply IH.
Qed.

Lemma averages_Ok_entries (d : store) (L : list nat) (k : nat) (r : row) :
  averages d L k = Ok r → ∀ i j, i < k → j ∈ L → is_Some (lookup2 d i j).
Proof.
  unfold averages. intros H i j Hi Hj.
  destruct (foldM_Ok_all _ _ _ _ H i) as (r1 & r2 & Hin);
    [apply elem_of_seq; lia|].
  destruct (foldM_Ok_all _ _ _ _ Hin j Hj) as (r3 & r4 & Hstep).
  inv_ok.
  match goal with H : getd d i j = Ok _ |- _ => apply getd_Ok in H end.
  eauto.
Qed.

Lemma raises_averages (d : store) (L : list nat) (k : nat) :
  2 < length L → raises_only (eq KeyError) (averages d L k).
Proof.
  intros HL. unfold averages.
  apply raises_foldM. intros r i. apply raises_foldM. intros r' j.
  apply raises_bind; [by apply raises_of_option|]. intros ri.
  apply raises_bind; [apply raises_getd|]. intros x.
  apply raises_bind; [|intros ?; apply raises_Ok].
  unfold div_int. rewrite decide_False by lia. apply raises_Ok.
Qed.

(** ** The root, when no edge is longer than [0] *)

Lemma list_remove_absent {A : Type} `{EqDecision A} (x : A) (l : list A) :
  x ∉ l → list_remove x l = Raise ValueError.
Proof.
  induction l as [|y l IH]; intros Hx; simpl; [done|].
  rewrite decide_False by (intros ->; apply Hx; by left).
  rewrite IH; [done|]. intros ?. apply Hx. by right.
Qed.

Lemma find_max_none (edges : list edge) (d : store) (acc : float * nat * nat) :
  (∀ e, e ∈ edges →
     ∃ w, lookup2 d e.1 e.2 = Some w ∧ (acc.1.1 <? w)%float = false) →
  foldM (max_step d) acc edges = Ok acc.
Proof.
  induction edges as [|e edges IH]; intros Hw; [done|].
  destruct (Hw e) as (w & Hlk & Hlt); [by left|].
  cbn [foldM].
  assert (max_step d acc e = Ok acc) as ->.
  { unfold max_step. rewrite getd_lookup2, Hlk. simpl. by rewrite Hlt. }
  rewrite bind_Ok_l. apply IH. intros e' He'. apply Hw. by right.
Qed.

Lemma find_max_Ok_weights (edges : list edge) (d : store)
    (acc acc' : float * nat * nat) :
  foldM (max_step d) acc edges = Ok acc' →
  ∀ e, e ∈ edges → is_Some (lookup2 d e.1 e.2).
Proof.
  intros H e He.
  destruct (foldM_Ok_all _ _ _ _ H e He) as (a1 & a2 & Hstep).
  unfold max_step in Hstep. inv_ok.
  match goal with H : getd d _ _ = Ok _ |- _ => apply getd_Ok in H end.
  eauto.
Qed.

Lemma raises_find_max (edges : list edge) (d : store) :
  raises_only (eq KeyError) (find_max edges d).
Proof.
  unfold find_max. apply raises_foldM. intros acc e. unfold max_step.
  apply raises_bind; [apply raises_getd|]. intros w.
  destruct (acc.1.1 <? w)%float; [|apply raises_Ok].
  apply raises_bind; [apply raises_getd|]. intros ?. apply raises_Ok.
Qed.

(** ** assemble_tree *)

Lemma split_edges_spec (root : nat) (edges : list edge) :
  split_edges root edges = (neighbours root edges, away root edges).
Proof.
  unfold split_edges.
  assert (∀ acc : list nat * list edge,
            fold_left (fun acc e =>
              if decide (e.1 = root) then (acc.1 ++ [e.2], acc.2)
              else if decide (e.2 = root) then (acc.1 ++ [e.1], acc.2)
              else (acc.1, acc.2 ++ [e])) edges acc
            = (acc.1 ++ neighbours root edges, acc.2 ++ away root edges)) as H.
  { induction edges as [|e edges IH]; intros [cs es]; simpl.
    - by rewrite !app_nil_r.
    - rewrite IH. unfold neighbours, away. simpl.
      rewrite filter_cons.
      destruct (decide (e.1 = root)) as [H1|H1]; simpl.
      + rewrite decide_False by tauto. by rewrite <- app_assoc.
      + destruct (decide (e.2 = root)) as [H2|H2]; simpl.
        * rewrite decide_False by tauto. by rewrite <- app_assoc.
        * rewrite decide_True by tauto. by rewrite <- app_assoc. }
  apply H.
Qed.

Lemma elem_of_neighbours (root c : nat) (edges : list edge) :
  c ∈ neighbours root edges ↔ adjacent edges root c.
Proof.
  unfold neighbours, adjacent. rewrite list_elem_of_omap. split.
  - intros ([a b] & He & Hc). simpl in Hc.
    repeat case_decide; simplify_eq; auto.
  - intros [H|H]; eexists; (split; [exact H|]); simpl.
    + by rewrite decide_True.
    + case_decide; [by subst|]. by rewrite decide_True.
Qed.

Lemma elem_of_away (root : nat) (e : edge) (edges : list edge) :
  e ∈ away root edges ↔ e ∈ edges ∧ e.1 ≠ root ∧ e.2 ≠ root.
Proof. unfold away. rewrite list_elem_of_filter. tauto. Qed.

Lemma neighbours_cons (root : nat) (e : edge) (edges : list edge) :
  neighbours root (e :: edges)
  = (if decide (e.1 = root) then [e.2]
     else if decide (e.2 = root) then [e.1] else [])
    ++ neighbours root edges.
Proof. unfold neighbours. simpl. by repeat case_decide. Qed.

Lemma away_cons (root : nat) (e : edge) (edges : list edge) :
  away root (e :: edges)
  = (if decide (e.1 ≠ root ∧ e.2 ≠ root) then [e] else [])
    ++ away root edges.
Proof. unfold away. rewrite filter_cons. by case_decide. Qed.

Lemma length_split (root : nat) (edges : list edge) :
  length (neighbours root edges) + length (away root edges) = length edges.
Proof.
  induction edges as [|e edges IH]; [done|].
  rewrite neighbours_cons, away_cons, !length_app. simpl. rewrite <- IH.
  repeat case_decide; simpl; try lia; tauto.
Qed.

Lemma assemble_tree_unfold (limit root : nat) (edges : list edge) :
  assemble_tree (S limit) root edges
  = foldM (fun tree_map child =>
             sub ← assemble_tree limit child (away root edges);
             Ok (sub ∪ tree_map))
          {[root := neighbours root edges]} (neighbours root edges).
Proof. simpl. by rewrite split_edges_spec. Qed.

(** What [assemble_tree] returns, given a limit above the number of
    edges. *)
Lemma assemble_tree_spec (limit : nat) :
  ∀ root edges, length edges < limit →
  ∃ t, assemble_tree limit root edges = Ok t
    ∧ is_Some (t !! root)
    ∧ closed t
    ∧ (∀ x cs, t !! x = Some cs →
         (x = root ∨ is_end edges x) ∧ ∀ c, c ∈ cs → adjacent edges x c)
    ∧ ((root, root) ∉ edges → t !! root = Some (neighbours root edges)).
Proof.
  induction limit as [|limit IH]; intros root edges Hlen; [lia|].
  rewrite assemble_tree_unfold.
  set (children := neighbours root edges).
  set (new_edges := away root edges).
  pose proof (length_split root edges) as Hsplit.
  fold children new_edges in Hsplit.
  destruct (foldM_inv (fun pre tm =>
              is_Some (tm !! root)
              ∧ (∀ x cs c, tm !! x = Some cs → c ∈ cs →
                   is_Some (tm !! c) ∨ (cs = children ∧ c ∉ pre))
              ∧ (∀ x cs, tm !! x = Some cs →
                   (x = root ∨ is_end edges x)
                   ∧ ∀ c, c ∈ cs → adjacent edges x c)
              ∧ ((root, root) ∉ edges → tm !! root = Some children))
            (fun tree_map child =>
               sub ← assemble_tree limit child new_edges;
               Ok (sub ∪ tree_map))
            children {[root := children]}) as (t & Ht & Hroot & Hcl & Hkeys & Hval).
  - split; [by rewrite lookup_singleton_eq|]. split; [|split].
    + intros x cs c Hx Hc. right.
      apply lookup_singleton_Some in Hx as [_ <-]. split; [done|].
      apply not_elem_of_nil.
    + intros x cs Hx. apply lookup_singleton_Some in Hx as [<- <-].
      split; [by left|]. intros c Hc. by apply elem_of_neighbours.
    + intros _. by rewrite lookup_singleton_eq.
  - intros pre c0 post tm Heq (Hroot & Hcl & Hkeys & Hval).
    assert (c0 ∈ children) as Hc0.
    { rewrite Heq. apply elem_of_app. right. by left. }
    assert (length new_edges < limit) as Hnew.
    { destruct children; [by apply elem_of_nil in Hc0 | simpl in *; lia]. }
    destruct (IH c0 new_edges Hnew) as (sub & -> & Hsroot & Hscl & Hskeys & _).
    simpl. eexists. split; [reflexivity|].
    assert (∀ e, e ∈ new_edges → e ∈ edges) as Hsub.
    { intros e He. by apply elem_of_away in He as [? _]. }
    assert (adjacent edges root c0) as Hadj by (by apply elem_of_neighbours).
    split; [|split; [|split]].
    + destruct Hroot as [cs Hcs].
      destruct (sub !! root) as [cs'|] eqn:E.
      * exists cs'. by apply lookup_union_Some_l.
      * exists cs. by rewrite lookup_union_r.
    + intros x cs c Hx Hc.
      apply lookup_union_Some_raw in Hx as [Hx|[Hnone Hx]].
      * left. destruct (Hscl x cs c Hx Hc) as [cs' Hcs'].
        exists cs'. by apply lookup_union_Some_l.
      * destruct (Hcl x cs c Hx Hc) as [[cs' Hcs']|[-> Hpre]].
        -- left. destruct (sub !! c) as [cs''|] eqn:E.
           ++ exists cs''. by apply lookup_union_Some_l.
           ++ exists cs'. by rewrite lookup_union_r.
        -- destruct (decide (c = c0)) as [->|Hne].
           ++ left. destruct Hsroot as [cs' Hcs'].
              exists cs'. by apply lookup_union_Some_l.
           ++ right. split; [done|].
              intros [?| ->%list_elem_of_singleton]%elem_of_app; done.
    + intros x cs Hx.
      apply lookup_union_Some_raw in Hx as [Hx|[Hnone Hx]]; [|by apply Hkeys].
      destruct (Hskeys x cs Hx) as [Hk Hadj'].
      split.
      * right. destruct Hk as [->|(e & He & Hend)].
        -- destruct Hadj as [H|H]; eexists; (split; [exact H|]); simpl; auto.
        -- exists e. split; [by apply Hsub | done].
      * intros c Hc. destruct (Hadj' c Hc) as [H|H]; [left | right];
          by apply Hsub.
    + intros Hloop. rewrite lookup_union_r; [by apply Hval|].
      destruct (sub !! root) as [cs|] eqn:E; [|done]. exfalso.
      destruct (Hskeys root cs E) as [[->|(e & He & Hend)] _].
      * destruct Hadj as [H|H]; done.
      * apply elem_of_away in He as (_ & H1 & H2). tauto.
  - exists t. split; [done|]. split; [done|]. split; [|by split].
    intros x cs c Hx Hc.
    destruct (Hcl x cs c Hx Hc) as [?|[-> Hpre]]; [done | by destruct Hpre].
Qed.

(** ** bfs *)

Lemma pending_nil (tm : tree) : pending tm [] = children_count tm.
Proof.
  unfold pending. rewrite map_filter_id; [done|].
  intros i x _. apply not_elem_of_nil.
Qed.

Lemma pending_visit (tm : tree) (visited : list nat) (node : nat)
    (cs : list nat) :
  node ∉ visited → tm !! node = Some cs →
  pending tm visited = length cs + pending tm (visited ++ [node]).
Proof.
  intros Hnode Hcs. unfold pending, children_count.
  set (m := filter (fun kv : nat * list nat => kv.1 ∉ visited) tm).
  assert (filter (fun kv : nat * list nat => kv.1 ∉ visited ++ [node]) tm
          = delete node m) as ->.
  { apply map_eq. intros k. apply option_eq. intros x. unfold m.
    rewrite map_lookup_filter_Some, lookup_delete_Some, map_lookup_filter_Some.
    simpl. rewrite elem_of_app, list_elem_of_singleton.
    intuition (subst; eauto). }
  assert (m !! node = Some cs) as Hm.
  { unfold m. by apply map_lookup_filter_Some. }
  by rewrite <- (map_to_list_delete m node cs Hm).
Qed.

(** The loop of [bfs], from a state where the ids seen are within reach
    of the root: it visits the ids within reach of the root, once each
    and the root first, or it finds that one of them is no key. *)
Ltac list_mem :=
  repeat match goal with
  | H : _ ∈ _ ++ _ |- _ => apply elem_of_app in H
  | H : _ ∈ _ :: _ |- _ => apply elem_of_cons in H
  | H : _ ∈ [] |- _ => by apply elem_of_nil in H
  | H : _ ∨ _ |- _ => destruct H
  end;
  subst; rewrite ?elem_of_app, ?elem_of_cons; auto 7.

Lemma bfs_loop_spec (tm : tree) (root : nat) (fuel : nat) :
  ∀ visited queue,
  NoDup visited →
  (∀ x, x ∈ visited ++ queue → rtc (child tm) root x) →
  (∀ x, x ∈ visited → is_Some (tm !! x)) →
  (∀ x c, x ∈ visited → child tm x c → c ∈ visited ++ queue) →
  head (visited ++ queue) = Some root →
  length queue + pending tm visited ≤ fuel →
  match bfs_loop fuel tm visited queue with
  | Ok v =>
      NoDup v ∧ head v = Some root
      ∧ (∀ x, x ∈ v ↔ rtc (child tm) root x)
      ∧ ∀ x, x ∈ v → is_Some (tm !! x)
  | Raise e => e = KeyError ∧ ∃ x, rtc (child tm) root x ∧ tm !! x = None
  end.
Proof.
  assert (∀ visited,
            NoDup visited →
            (∀ x, x ∈ visited ++ [] → rtc (child tm) root x) →
            (∀ x, x ∈ visited → is_Some (tm !! x)) →
            (∀ x c, x ∈ visited → child tm x c → c ∈ visited ++ []) →
            head (visited ++ []) = Some root →
            NoDup visited ∧ head visited = Some root
            ∧ (∀ x, x ∈ visited ↔ rtc (child tm) root x)
            ∧ ∀ x, x ∈ visited → is_Some (tm !! x)) as Hdone.
  { intros visited Hnd Hreach Hkeys Hcl Hhd. rewrite app_nil_r in Hhd.
    setoid_rewrite app_nil_r in Hreach. setoid_rewrite app_nil_r in Hcl.
    split; [done|]. split; [done|]. split; [|done].
    intros x. split; [by apply Hreach|]. intros Hx.
    assert (root ∈ visited) as Hroot.
    { destruct visited as [|r vs]; [done|]. injection Hhd as ->. by left. }
    clear -Hx Hroot Hcl. induction Hx as [|x y z Hxy _ IHx]; [done|].
    apply IHx. by eapply Hcl. }
  induction fuel as [|fuel IH]; intros visited queue Hnd Hreach Hkeys Hcl Hhd Hfuel.
  all: destruct queue as [|node queue]; [by apply Hdone|]; simpl in *; try lia.
  destruct (decide (node ∈ visited)) as [Hin|Hin].
  - apply IH; try done.
    + intros x Hx. apply Hreach. list_mem.
    + intros x c Hx Hc. specialize (Hcl x c Hx Hc). list_mem.
    + destruct visited; [by apply elem_of_nil in Hin | done].
    + lia.
  - assert (rtc (child tm) root node) as Hnode by (apply Hreach; list_mem).
    destruct (tm !! node) as [cs|] eqn:Hcs; simpl; [|by eauto].
    apply IH.
    + apply NoDup_app. split; [done|]. split; [|apply NoDup_singleton].
      intros x Hx ->%list_elem_of_singleton. done.
    + intros x Hx.
      assert (x ∈ visited ++ node :: queue ∨ x ∈ cs) as [?|?] by list_mem;
        [by apply Hreach|].
      eapply rtc_r; [exact Hnode|]. by exists cs.
    + intros x [?| ->%list_elem_of_singleton]%elem_of_app; [auto | eauto].
    + intros x c [Hx| ->%list_elem_of_singleton]%elem_of_app Hc.
      * specialize (Hcl x c Hx Hc). list_mem.
      * destruct Hc as (cs' & Hcs' & Hc). simplify_eq. list_mem.
    + destruct visited; simpl in *; [by simplify_eq | done].
    + rewrite length_app. rewrite (pending_visit tm visited node cs) in Hfuel by done.
      lia.
Qed.

Lemma bfs_spec_aux (tm : tree) (root : nat) :
  match bfs root tm with
  | Ok v =>
      NoDup v ∧ head v = Some root
      ∧ (∀ x, x ∈ v ↔ rtc (child tm) root x)
      ∧ ∀ x, x ∈ v → is_Some (tm !! x)
  | Raise e => e = KeyError ∧ ∃ x, rtc (child tm) root x ∧ tm !! x = None
  end.
Proof.
  unfold bfs. apply bfs_loop_spec; simpl.
  - apply NoDup_nil_2.
  - intros x ->%list_elem_of_singleton. done.
  - by intros x ?%elem_of_nil.
  - by intros x c ?%elem_of_nil.
  - done.
  - rewrite pending_nil. lia.
Qed.

(** ** Serialization of a binary tree *)

Lemma generate_newick_printable (tm : tree) (d : store)
    (mapping : option (gmap nat string)) (x h : nat) :
  printable tm d mapping x h →
  ∀ limit, h ≤ limit →
  ∃ s, generate_newick limit x tm d mapping false = Ok s.
Proof.
  induction 1 as [x Hx Hname|x i j hi hj Hx [li Hli] [lj Hlj] _ IHi _ IHj];
    intros [|limit] Hlimit; try lia; simpl; rewrite Hx; simpl.
  - destruct mapping as [names|]; [|by eexists].
    destruct (Hname names eq_refl) as [s ->]. by eexists.
  - rewrite (proj2 (getd_Ok _ _ _ _) Hli), (proj2 (getd_Ok _ _ _ _) Hlj).
    simpl.
    destruct (IHi limit) as [ti ->]; [lia|].
    destruct (IHj limit) as [tj ->]; [lia|]. simpl. by eexists.
Qed.

(** ** The table of [main] *)

Section DistanceTable.
Variables (n : nat) (points : list point).
Hypothesis Hlen : length points = n.

Let f (i j : nat) : float :=
  distance (default (0, 0)%Z (points !! i)) (default (0, 0)%Z (points !! j)).

Lemma distance_table_row (i : nat) (d : store) :
  i < n → is_Some (d !! i) →
  ∃ d', foldM (fun d j =>
                 p ← of_option IndexError (points !! i);
                 q ← of_option IndexError (points !! j);
                 setd d i j (distance p q)) d (seq 0 n) = Ok d'
        ∧ (∀ j, j < n → lookup2 d' i j = Some (f i j))
        ∧ (∀ i' j, i' ≠ i → lookup2 d' i' j = lookup2 d i' j)
        ∧ (∀ i', is_Some (d' !! i') ↔ is_Some (d !! i')).
Proof using All.
  intros Hi Hdi.
  destruct (foldM_inv (fun pre d' =>
              (∀ j, j ∈ pre → lookup2 d' i j = Some (f i j))
              ∧ (∀ i' j, i' ≠ i → lookup2 d' i' j = lookup2 d i' j)
              ∧ (∀ i', is_Some (d' !! i') ↔ is_Some (d !! i')))
            (fun d j =>
               p ← of_option IndexError (points !! i);
               q ← of_option IndexError (points !! j);
               setd d i j (distance p q)) (seq 0 n) d)
    as (d' & Hd' & Hrow & Hoth & Hrows).
  - split; [by intros j ?%elem_of_nil | done].
  - intros pre j post d' Hseq (Hdone & Hoth & Hrows).
    apply seq_split in Hseq as (_ & _ & Hj).
    destruct (lookup_lt_is_Some_2 points i) as [p Hp]; [lia|].
    destruct (lookup_lt_is_Some_2 points j) as [q Hq]; [lia|].
    cbv beta. rewrite Hp, Hq. simpl.
    destruct (setd_is_Some d' i j (distance p q)) as [d'' Hd''];
      [by apply Hrows|].
    pose proof (fun u v => lookup2_setd _ _ _ _ u v _ Hd'') as E.
    exists d''. split; [done|]. split; [|split].
    + intros j' Hj'. rewrite E. case_decide as Hc.
      * destruct Hc as [_ Hc]. subst j'. subst f. cbv beta. by rewrite Hp, Hq.
      * apply elem_of_app in Hj' as [?| ->%list_elem_of_singleton];
          [auto | tauto].
    + intros i' j' Hne. rewrite E, decide_False by tauto. auto.
    + intros i'. rewrite (rows_setd _ _ _ _ _ _ Hd''). apply Hrows.
  - exists d'. split; [done|]. split; [|done].
    intros j Hj. apply Hrow, elem_of_seq. lia.
Qed.

Lemma distance_table_spec :
  ∃ d, distance_table n points = Ok d
    ∧ dom d = set_seq 0 n
    ∧ ∀ i j, i < n → j < n → lookup2 d i j = Some (f i j).
Proof using All.
  unfold distance_table.
  set (d0 := list_to_map ((fun i => (i, ∅)) <$> seq 0 n) : store).
  assert (∀ i, is_Some (d0 !! i) ↔ i < n) as Hd0.
  { intros i. unfold d0. rewrite (list_to_map_seq (fun _ => ∅)).
    case_decide; split; intros H'; try lia; eauto. by destruct H'. }
  destruct (foldM_inv (fun pre d =>
              (∀ i, is_Some (d !! i) ↔ i < n)
              ∧ ∀ i j, i ∈ pre → j < n → lookup2 d i j = Some (f i j))
            (fun d i =>
               foldM (fun d j =>
                 p ← of_option IndexError (points !! i);
                 q ← of_option IndexError (points !! j);
                 setd d i j (distance p q)) d (seq 0 n))
            (seq 0 n) d0) as (d & Hd & Hrows & Hall).
  - split; [done | by intros i j ?%elem_of_nil].
  - intros pre x post d Hseq [Hrows Hdone].
    apply seq_split in Hseq as (_ & _ & Hx).
    destruct (distance_table_row x d) as (d' & Hd' & Hrow & Hoth & Hrows');
      [lia | by apply Hrows |].
    exists d'. split; [done|]. split.
    + intros i. rewrite Hrows'. apply Hrows.
    + intros i j Hi Hj. destruct (decide (i = x)) as [->|Hne]; [by apply Hrow|].
      rewrite Hoth by done.
      apply elem_of_app in Hi as [?| ->%list_elem_of_singleton]; [auto | done].
  - exists d. split; [done|]. split.
    + apply set_eq. intros i. rewrite elem_of_dom, elem_of_set_seq, Hrows. lia.
    + intros i j Hi Hj. apply Hall; [apply elem_of_seq; lia | done].
Qed.
End DistanceTable.

Lemma distance_sym (p q : point) : distance p q = distance q p.
Proof. unfold distance. do 2 f_equal. lia. Qed.

Lemma distance_diag (p : point) : distance p p = 0%float.
Proof. unfold distance. by rewrite !Z.sub_diag. Qed.

Lemma all_from_spec (f : Z → bool) (n : nat) (z k : Z) :
  all_from f n z = true → (z ≤ k < z + Z.of_nat n)%Z → f k = true.
Proof.
  revert z; induction n as [|n IH]; intros z H Hk; [lia|].
  simpl in H. apply andb_true_iff in H as [Hz H].
  destruct (decide (k = z)) as [->|Hne]; [done|].
  apply (IH (Z.succ z)); [done|lia].
Qed.

(** The squared distance of two drawn points is at most [2 * 99^2]; the
    roots of these integers are checked one by one. *)
Lemma sqrt_number_range (z : Z) :
  (0 ≤ z ≤ 19602)%Z → sqrt_number z = true.
Proof.
  intros Hz.
  assert (all_from sqrt_number (Z.to_nat 19603) 0 = true) as Hall
    by (vm_compute; reflexivity).
  apply (all_from_spec _ _ _ _ Hall). lia.
Qed.

Lemma distance_number (p q : point) :
  drawn p → drawn q →
  PrimFloat.is_nan (distance p q) = false
  ∧ (p ≠ q → (0 <? distance p q)%float = true).
Proof.
  intros [Hp1 Hp2] [Hq1 Hq2]. unfold distance.
  set (z := ((p.1 - q.1) ^ 2 + (p.2 - q.2) ^ 2)%Z).
  assert (0 ≤ z ≤ 19602)%Z as Hz by (unfold z; nia).
  pose proof (sqrt_number_range z Hz) as Hs. unfold sqrt_number in Hs.
  apply andb_true_iff in Hs as [Hnan Hpos].
  apply negb_true_iff in Hnan. split; [done|].
  intros Hne. apply orb_true_iff in Hpos as [Hz0|Hpos]; [|done].
  apply bool_decide_eq_true in Hz0. exfalso. apply Hne.
  destruct p as [p1 p2], q as [q1 q2]. simpl in *.
  assert (p1 - q1 = 0 ∧ p2 - q2 = 0)%Z as [??] by (unfold z in Hz0; nia).
  f_equal; lia.
Qed.

(** ** assemble_tree on a rooted tree *)

Lemma filter_ext_elem {A : Type} (P Q : A → Prop)
    `{∀ x, Decision (P x)} `{∀ x, Decision (Q x)} (l : list A) :
  (∀ x, x ∈ l → P x ↔ Q x) → filter P l = filter Q l.
Proof.
  induction l as [|a l IH]; intros Hext; [done|].
  rewrite !filter_cons.
  assert (P a ↔ Q a) as Ha by (apply Hext; by left).
  rewrite IH by (intros x Hx; apply Hext; by right).
  destruct (decide (P a)), (decide (Q a)); tauto.
Qed.

Lemma filter_all {A : Type} (P : A → Prop) `{∀ x, Decision (P x)}
    (l : list A) :
  (∀ x, x ∈ l → P x) → filter P l = l.
Proof.
  induction l as [|a l IH]; intros Hall; [done|].
  rewrite filter_cons, decide_True by (apply Hall; by left).
  f_equal. apply IH. intros x Hx. apply Hall. by right.
Qed.

Lemma neighbours_away (x y : nat) (es : list edge) :
  x ≠ y →
  neighbours y (away x es) = filter (fun c => c ≠ x) (neighbours y es).
Proof.
  intros Hxy. induction es as [|[a b] es IH]; [done|].
  rewrite away_cons, neighbours_cons, filter_app, <- IH.
  destruct (decide ((a, b).1 ≠ x ∧ (a, b).2 ≠ x)) as [[Ha Hb]|Hab];
    simpl in *.
  - destruct (decide (a = y)); [by rewrite filter_cons, decide_True|].
    destruct (decide (b = y)); [by rewrite filter_cons, decide_True|done].
  - destruct (decide (a = y)) as [->|Hay].
    + rewrite filter_cons, decide_False; [done|].
      intros Hb. apply Hab. done.
    + destruct (decide (b = y)) as [->|Hby]; [|done].
      rewrite filter_cons, decide_False; [done|].
      intros Ha. apply Hab. done.
Qed.

Lemma neighbours_sym (x y : nat) (es : list edge) :
  x ∈ neighbours y es → y ∈ neighbours x es.
Proof. rewrite !elem_of_neighbours. unfold adjacent. tauto. Qed.

Lemma tc_inv_r {A : Type} (R : relation A) (x z : A) :
  tc R x z → ∃ y, rtc R x y ∧ R y z.
Proof.
  induction 1 as [x z H|x y z H _ (p & Hp & Hpz)].
  - exists x. by split.
  - exists p. split; [by eapply rtc_l | done].
Qed.

Section Rooted.
Variables (rank : nat → nat) (edges : list edge) (root : nat).
Hypothesis Hrooted : rooted rank edges root.

Let kid (a b : nat) : Prop := b ∈ up rank edges a.

Lemma kid_spec (a b : nat) :
  kid a b ↔ b ∈ neighbours a edges ∧ rank a < rank b.
Proof using All. unfold kid, up. rewrite list_elem_of_filter. tauto. Qed.

Lemma kid_rtc_rank (a b : nat) : rtc kid a b → rank a ≤ rank b.
Proof using All.
  induction 1 as [|a b c Hab _ IH]; [done|].
  apply kid_spec in Hab. lia.
Qed.

Lemma kid_tc_rank (a b : nat) : tc kid a b → rank a < rank b.
Proof using All.
  induction 1 as [a b Hab|a b c Hab _ IH]; apply kid_spec in Hab; lia.
Qed.

Lemma at_node_root : at_node rank edges root edges.
Proof using All.
  split; [|done]. unfold up. symmetry. apply filter_all.
  apply (rooted_root _ _ _ Hrooted).
Qed.

Lemma at_node_step (x c : nat) (es : list edge) :
  at_node rank edges x es → kid x c → at_node rank edges c (away x es).
Proof using All.
  intros [Hx Hbelow] Hc.
  pose proof Hc as [Hadj Hrank]%kid_spec.
  split.
  - rewrite neighbours_away by (intros ->; lia).
    rewrite (Hbelow c) by (by apply tc_once).
    unfold up. apply filter_ext_elem. intros z Hz. split.
    + intros Hzx.
      destruct (decide (rank c < rank z)) as [|Hle]; [done|]. exfalso.
      pose proof (rooted_strict _ _ _ Hrooted c z Hz).
      apply Hzx, (rooted_down _ _ _ Hrooted c z x);
        [done | by apply neighbours_sym | lia | lia].
    + intros Hlt ->. lia.
  - intros y Hy.
    pose proof (kid_tc_rank _ _ Hy) as Hcy.
    rewrite neighbours_away by (intros ->; lia).
    rewrite (Hbelow y) by (by eapply tc_l).
    apply filter_all. intros z Hz Hzx.
    destruct (tc_inv_r _ _ _ Hy) as (p & Hcp & [Hpy Hrk]%kid_spec).
    apply kid_rtc_rank in Hcp.
    assert (z = p); [|subst; lia].
    apply (rooted_down _ _ _ Hrooted y z p);
      [done | by apply neighbours_sym | subst; lia | lia].
Qed.

(** What [assemble_tree] returns at a node of a rooted tree: the nodes
    below it, each with its children. *)
Lemma assemble_tree_at_node (limit : nat) :
  ∀ x es, length es < limit → at_node rank edges x es →
  ∃ t, assemble_tree limit x es = Ok t
    ∧ (∀ y, is_Some (t !! y) ↔ rtc kid x y)
    ∧ (∀ y cs, t !! y = Some cs → cs = up rank edges y).
Proof using All.
  induction limit as [|limit IH]; intros x es Hlen Hat; [lia|].
  rewrite assemble_tree_unfold.
  pose proof (length_split x es) as Hsplit.
  pose proof Hat as [Hx _]. rewrite Hx in *.
  destruct (foldM_inv (fun pre tm =>
              (∀ y, is_Some (tm !! y) ↔ y = x ∨ ∃ c, c ∈ pre ∧ rtc kid c y)
              ∧ (∀ y cs, tm !! y = Some cs → cs = up rank edges y))
            (fun tree_map child =>
               sub ← assemble_tree limit child (away x es);
               Ok (sub ∪ tree_map))
            (up rank edges x) {[x := up rank edges x]})
    as (t & Ht & Hkeys & Hval).
  - split.
    + intros y. rewrite lookup_singleton_is_Some. split; [by left|].
      intros [->|(c & Hc & _)]; [done|]. by apply elem_of_nil in Hc.
    + intros y cs [<- <-]%lookup_singleton_Some. done.
  - intros pre c0 post tm Heq [Hkeys Hval].
    assert (kid x c0) as Hc0.
    { unfold kid. rewrite Heq. apply elem_of_app. right. by left. }
    assert (length (away x es) < limit) as Hnew.
    { assert (0 < length (up rank edges x)); [|lia].
      rewrite Heq, length_app. simpl. lia. }
    destruct (IH c0 (away x es) Hnew (at_node_step _ _ _ Hat Hc0))
      as (sub & -> & Hskeys & Hsval).
    simpl. eexists. split; [reflexivity|]. split.
    + intros y. rewrite lookup_union_is_Some, Hskeys, Hkeys.
      split.
      * intros [Hy|[->|(c & Hc & Hy)]]; [|by left|].
        -- right. exists c0. split; [|done].
           apply elem_of_app. right. by left.
        -- right. exists c. split; [|done]. apply elem_of_app. by left.
      * intros [->|(c & [Hc| ->%list_elem_of_singleton]%elem_of_app & Hy)];
          eauto.
    + intros y cs [Hy|[_ Hy]]%lookup_union_Some_raw; eauto.
  - exists t. split; [done|]. split; [|done].
    intros y. rewrite Hkeys. split.
    + intros [->|(c & Hc & Hy)]; [done | by eapply rtc_l].
    + intros [->|(c & Hc & Hy)]%rtc_inv; [by left|]. right. eauto.
Qed.

(** The whole tree. *)
Lemma assemble_rooted (limit : nat) :
  length edges < limit →
  ∃ t, assemble_tree limit root edges = Ok t
    ∧ (∀ y, is_Some (t !! y) ↔ rtc kid root y)
    ∧ (∀ y cs, t !! y = Some cs → cs = up rank edges y).
Proof using All.
  intros Hlen. apply assemble_tree_at_node; [done | apply at_node_root].
Qed.

End Rooted.

(** ** The edges of [neighbor_join], rooted *)

Lemma parent_elem (edges : list edge) (y z : nat) :
  parent edges y = Some z → (y, z) ∈ edges.
Proof.
  induction edges as [|[a b] edges IH]; simpl; [done|].
  case_decide; [|intros Hp; right; by apply IH].
  intros [= <-]. subst. by left.
Qed.

Lemma firsts_fun {A B : Type} (l : list (A * B)) (x : A) (y z : B) :
  NoDup l.*1 → (x, y) ∈ l → (x, z) ∈ l → y = z.
Proof.
  induction l as [|[a b] l IH]; intros Hnd Hy Hz; [by apply elem_of_nil in Hy|].
  rewrite fmap_cons in Hnd. apply NoDup_cons in Hnd as [Ha Hnd]. simpl in Ha.
  assert (∀ c, (a, c) ∉ l) as Hnot.
  { intros c Hc. apply Ha, list_elem_of_fmap. by exists (a, c). }
  apply elem_of_cons in Hy as [Hy|Hy]; apply elem_of_cons in Hz as [Hz|Hz];
    simplify_eq; try done;
    try (by destruct (Hnot z)); try (by destruct (Hnot y)).
  by apply IH.
Qed.

Lemma parent_first (edges : list edge) (y z : nat) :
  NoDup edges.*1 → (y, z) ∈ edges → parent edges y = Some z.
Proof.
  intros Hnd Hyz.
  destruct (parent edges y) as [z'|] eqn:Hp.
  - apply parent_elem in Hp. f_equal.
    by apply (firsts_fun edges y z' z).
  - exfalso. induction edges as [|[a b] edges IH]; [by apply elem_of_nil in Hyz|].
    simpl in Hp. case_decide; [done|].
    apply NoDup_cons in Hnd as [_ Hnd].
    apply elem_of_cons in Hyz as [[= -> ->]|Hyz]; [done|]. by apply IH.
Qed.

Lemma count_seq (y a m : nat) :
  length (filter (eq y) (seq a m)) = if decide (a ≤ y < a + m) then 1 else 0.
Proof.
  revert a; induction m as [|m IH]; intros a; simpl.
  - rewrite decide_False by lia. done.
  - pose proof (IH (S a)) as IH'. rewrite filter_cons.
    repeat case_decide; simpl; lia.
Qed.

Lemma count_twice (y a m : nat) :
  length (filter (eq y) (flat_map (fun x => [x; x]) (seq a m)))
  = if decide (a ≤ y < a + m) then 2 else 0.
Proof.
  revert a; induction m as [|m IH]; intros a; simpl.
  - rewrite decide_False by lia. done.
  - pose proof (IH (S a)) as IH'. rewrite !filter_cons.
    repeat case_decide; simpl; lia.
Qed.

Lemma count_fmap {A B : Type} (f : A → B) `{EqDecision B} (y : B)
    (l : list A) :
  length (filter (fun x => y = f x) l) = length (filter (eq y) (f <$> l)).
Proof.
  induction l as [|a l IH]; [done|].
  rewrite fmap_cons, !filter_cons. case_decide; simpl; by rewrite IH.
Qed.

Lemma rtc_fun_linear {A : Type} (R : relation A) (a b c : A) :
  (∀ x y z, R x y → R x z → y = z) →
  rtc R a b → rtc R a c → rtc R b c ∨ rtc R c b.
Proof.
  intros Hfun Hab. revert c.
  induction Hab as [a|a a' b Haa' Ha'b IH]; intros c Hac; [by left|].
  apply rtc_inv in Hac as [<-|(a'' & Haa'' & Hac)].
  - right. by eapply rtc_l.
  - rewrite <- (Hfun _ _ _ Haa' Haa'') in Hac. by apply IH.
Qed.

Lemma neighbours_app (y : nat) (es es' : list edge) :
  neighbours y (es ++ es') = neighbours y es ++ neighbours y es'.
Proof. apply omap_app. Qed.

Lemma neighbours_length (y : nat) (es : list edge) :
  (∀ e, e ∈ es → e.1 ≠ e.2) →
  length (neighbours y es)
  = length (filter (fun e : edge => y = e.1) es)
    + length (filter (fun e : edge => y = e.2) es).
Proof.
  induction es as [|[a b] es IH]; intros Hloop; [done|].
  assert (a ≠ b) as Hab by (apply (Hloop (a, b)); by left).
  rewrite neighbours_cons, length_app, !filter_cons, IH
    by (intros e He; apply Hloop; by right).
  simpl. repeat case_decide; subst; simpl; lia.
Qed.

Lemma neighbours_NoDup (y : nat) (es : list edge) :
  NoDup es.*1 → (∀ e, e ∈ es → e.1 < e.2) → NoDup (neighbours y es).
Proof.
  induction es as [|[a b] es IH]; intros Hnd Hup; [apply NoDup_nil_2|].
  rewrite fmap_cons in Hnd. apply NoDup_cons in Hnd as [Ha Hnd].
  simpl in Ha.
  assert (a < b) as Hab by (apply (Hup (a, b)); by left).
  assert (∀ e, e ∈ es → e.1 < e.2) as Hup'
    by (intros e He; apply Hup; by right).
  assert (∀ c, (a, c) ∉ es) as Hnot.
  { intros c Hc. apply Ha, list_elem_of_fmap. by exists (a, c). }
  rewrite neighbours_cons. simpl.
  destruct (decide (a = y)) as [->|Hay]; simpl.
  - apply NoDup_cons. split; [|by apply IH].
    intros [Hyb|Hby]%elem_of_neighbours; [by destruct (Hnot b)|].
    apply Hup' in Hby. simpl in Hby. lia.
  - destruct (decide (b = y)) as [->|Hby]; simpl; [|by apply IH].
    apply NoDup_cons. split; [|by apply IH].
    intros [Hya|Hay']%elem_of_neighbours; [|by destruct (Hnot y)].
    apply Hup' in Hya. simpl in Hya. lia.
Qed.

Lemma length_one {A : Type} (l : list A) (z : A) :
  NoDup l → z ∈ l → (∀ x, x ∈ l → x = z) → length l = 1.
Proof.
  intros Hnd Hz Hall. destruct l as [|a [|b l]]; [by apply elem_of_nil in Hz|done|].
  exfalso. apply NoDup_cons in Hnd as [Hab _]. apply Hab.
  rewrite (Hall a) by (by left). rewrite <- (Hall b) at 1; [by left|].
  right. by left.
Qed.

(** In a rooted tree a node has one neighbour less above it than it has
    neighbours. *)
Lemma up_length (rank : nat → nat) (es : list edge) (root y : nat) :
  rooted rank es root → NoDup (neighbours y es) →
  (∃ z, z ∈ neighbours y es ∧ rank z < rank y) →
  S (length (up rank es y)) = length (neighbours y es).
Proof.
  intros Hrooted Hnd (z & Hz & Hzy). unfold up.
  rewrite <- (filter_app_complement (fun c => rank y < rank c)
                (neighbours y es)) at 2.
  rewrite length_app.
  rewrite (length_one (filter (fun c => ¬ rank y < rank c) (neighbours y es)) z).
  - lia.
  - by apply NoDup_filter.
  - apply list_elem_of_filter. split; [lia|done].
  - intros x [Hx Hin]%list_elem_of_filter.
    pose proof (rooted_strict _ _ _ Hrooted y x Hin).
    apply (rooted_down _ _ _ Hrooted y x z); [done | done | lia | lia].
Qed.

Section Rooting.
Variables (n top : nat) (E pre post : list edge) (i j : nat).
Hypothesis Hn : 3 ≤ n.
Hypothesis Htop : top = 2 * n - 3.
Hypothesis Hup : ∀ e, e ∈ E → e.1 < e.2.
Hypothesis Hperm : E.*1 ≡ₚ seq 0 top.
Hypothesis Hnew : E.*2 = flat_map (fun x => [x; x]) (seq n (n - 2)) ++ [top].
Hypothesis Hcut : E = pre ++ (i, j) :: post.

Let par (a b : nat) : Prop := (a, b) ∈ E.
Let rank : nat → nat := root_rank E top j.
Let E' : list edge := (pre ++ post) ++ [(i, S top); (j, S top)].

Lemma firsts_NoDup : NoDup E.*1.
Proof using All. rewrite Hperm. apply NoDup_seq. Qed.

Lemma par_fun (x y z : nat) : par x y → par x z → y = z.
Proof using All. apply firsts_fun, firsts_NoDup. Qed.

Lemma par_bound (a b : nat) : par a b → a < b ∧ n ≤ b ≤ top.
Proof using All.
  intros Hab. split; [apply (Hup _ Hab)|].
  assert (b ∈ E.*2) as Hb.
  { apply list_elem_of_fmap. by exists (a, b). }
  rewrite Hnew in Hb.
  apply elem_of_app in Hb as [Hb| ->%list_elem_of_singleton]; [|lia].
  apply list_elem_of_In, in_flat_map in Hb as (x & Hx & Hb).
  apply in_seq in Hx. simpl in Hb. intuition lia.
Qed.

Lemma has_parent (y : nat) : y < top → ∃ z, par y z.
Proof using All.
  intros Hy.
  assert (y ∈ E.*1) as Hin by (rewrite Hperm; apply elem_of_seq; lia).
  apply list_elem_of_fmap in Hin as ([a b] & -> & Hin). by exists b.
Qed.

Lemma cut_edge : par i j.
Proof using All.
  unfold par. rewrite Hcut. apply elem_of_app. right. by left.
Qed.

Lemma rest_edges (e : edge) : e ∈ pre ++ post ↔ e ∈ E ∧ e.1 ≠ i.
Proof using All.
  pose proof firsts_NoDup as Hnd.
  rewrite Hcut, fmap_app, fmap_cons in Hnd. simpl in Hnd.
  apply NoDup_app in Hnd as (_ & Hpre & [Hpost _]%NoDup_cons).
  rewrite Hcut, !elem_of_app, elem_of_cons. split.
  - intros [He|He]; (split; [tauto|]); intros Hi.
    + apply (Hpre i); [|by left].
      apply list_elem_of_fmap. by exists e.
    + apply Hpost. apply list_elem_of_fmap. by exists e.
  - intros [[He|[->|He]] Hi]; [by left | done | by right].
Qed.

Lemma path_par (fuel : nat) : ∀ x y, y ∈ path_up E fuel x → rtc par x y.
Proof using All.
  induction fuel as [|fuel IH]; intros x y; simpl; [by intros ?%elem_of_nil|].
  intros [->|Hy]%elem_of_cons; [done|].
  destruct (parent E x) as [z|] eqn:Hp; [|by apply elem_of_nil in Hy].
  eapply rtc_l; [by apply parent_elem | by apply IH].
Qed.

Lemma par_path (fuel : nat) :
  ∀ x y, top - x < fuel → rtc par x y → y ∈ path_up E fuel x.
Proof using All.
  induction fuel as [|fuel IH]; intros x y Hfuel Hxy; [lia|]. simpl.
  apply rtc_inv in Hxy as [->|(z & Hxz & Hzy)]; [by left|]. right.
  rewrite (parent_first E x z firsts_NoDup Hxz).
  apply IH; [|done]. apply par_bound in Hxz. lia.
Qed.

Lemma on_path (y : nat) : y ∈ path_up E (S top) j ↔ rtc par j y.
Proof using All.
  split; [apply path_par | apply par_path; lia].
Qed.

Lemma par_rtc_le (x y : nat) : rtc par x y → x ≤ y.
Proof using All.
  induction 1 as [|x z y Hxz _ IH]; [done|]. apply par_bound in Hxz. lia.
Qed.

Lemma par_rtc_top (x y : nat) : x ≤ top → rtc par x y → y ≤ top.
Proof using All.
  intros Hx [->|(z & _ & Hzy)]%rtc_inv_r; [done|].
  apply par_bound in Hzy. lia.
Qed.

Lemma par_top_from (m : nat) : ∀ x, top - x ≤ m → x ≤ top → rtc par x top.
Proof using All.
  induction m as [|m IH]; intros x Hm Hx.
  - by replace x with top by lia.
  - destruct (decide (x = top)) as [->|Hne]; [done|].
    destruct (has_parent x) as [z Hz]; [lia|].
    eapply rtc_l; [exact Hz|]. apply par_bound in Hz. apply IH; lia.
Qed.

Lemma cut_bound : i < j ∧ n ≤ j ≤ top.
Proof using All. apply par_bound, cut_edge. Qed.

Lemma par_top : rtc par j top.
Proof using All.
  pose proof cut_bound. apply (par_top_from top); lia.
Qed.

Lemma cut_off_path : ¬ rtc par j i.
Proof using All.
  intros H%par_rtc_le. pose proof cut_bound. lia.
Qed.

Lemma kid_on_path (c c' y : nat) :
  rtc par j c → rtc par j c' → par c y → par c' y → c = c'.
Proof using All.
  assert (∀ a b, rtc par a b → par a y → par b y → a = b) as Hle.
  { intros a b Hab Ha Hb.
    apply rtc_inv in Hab as [->|(z & Haz & Hzb)]; [done|].
    rewrite <- (par_fun _ _ _ Ha Haz) in Hzb.
    apply par_rtc_le in Hzb. apply par_bound in Hb. lia. }
  intros Hc Hc' Hcy Hc'y.
  destruct (rtc_fun_linear par j c c' par_fun Hc Hc'); [by apply Hle|].
  symmetry. by apply Hle.
Qed.

Lemma rank_root : rank (S top) = 0.
Proof using All. unfold rank, root_rank. by rewrite decide_True. Qed.

Lemma rank_path (y : nat) : y ≤ top → rtc par j y → rank y = S (y - j).
Proof using All.
  intros Hy Hp. unfold rank, root_rank.
  rewrite decide_False by lia. rewrite decide_True; [done|]. by apply on_path.
Qed.

Lemma rank_off (y : nat) :
  y ≤ top → ¬ rtc par j y → rank y = 2 * top + 2 - y.
Proof using All.
  intros Hy Hp. unfold rank, root_rank.
  rewrite decide_False by lia. rewrite decide_False; [done|].
  by rewrite on_path.
Qed.

Lemma on_path_dec (y : nat) : rtc par j y ∨ ¬ rtc par j y.
Proof using All.
  rewrite <- on_path. destruct (decide (y ∈ path_up E (S top) j)); tauto.
Qed.

Lemma rank_pos (y : nat) : y ≤ top → 0 < rank y ≤ 2 * top + 2.
Proof using All.
  intros Hy. destruct (on_path_dec y) as [Hp|Hp].
  - rewrite rank_path by done. lia.
  - rewrite rank_off by done. lia.
Qed.

Lemma rank_par_up (a b : nat) : par a b → rtc par j a → rank a < rank b.
Proof using All.
  intros Hab Ha. pose proof (par_bound _ _ Hab).
  pose proof (par_rtc_le _ _ Ha).
  rewrite !rank_path; [lia | lia | by eapply rtc_r | lia | done].
Qed.

Lemma rank_par_down (a b : nat) : par a b → ¬ rtc par j a → rank b < rank a.
Proof using All.
  intros Hab Ha. pose proof (par_bound _ _ Hab).
  rewrite (rank_off a) by (done || lia).
  destruct (on_path_dec b) as [Hb|Hb].
  - pose proof (par_rtc_le _ _ Hb). rewrite rank_path by (done || lia). lia.
  - rewrite rank_off by (done || lia). lia.
Qed.

Lemma rooted_elem (e : edge) :
  e ∈ E' ↔ (e ∈ E ∧ e.1 ≠ i) ∨ e = (i, S top) ∨ e = (j, S top).
Proof using All.
  unfold E'. rewrite elem_of_app, rest_edges, elem_of_cons,
    list_elem_of_singleton. tauto.
Qed.

Lemma rooted_neighbours (y z : nat) :
  z ∈ neighbours y E'
  ↔ (par y z ∧ y ≠ i) ∨ (par z y ∧ z ≠ i)
    ∨ (y = i ∧ z = S top) ∨ (y = S top ∧ z = i)
    ∨ (y = j ∧ z = S top) ∨ (y = S top ∧ z = j).
Proof using All.
  rewrite elem_of_neighbours. unfold adjacent. rewrite !rooted_elem.
  unfold par. simpl. split.
  - intros [[?|[?|?]]|[?|[?|?]]]; simplify_eq; tauto.
  - intros [?|[?|[[-> ->]|[[-> ->]|[[-> ->]|[-> ->]]]]]]; tauto.
Qed.

Lemma rooted_neighbours_bound (y z : nat) :
  z ∈ neighbours y E' → z ≤ S top.
Proof using All.
  pose proof cut_bound.
  intros [[Hb%par_bound _]|[[Hb%par_bound _]|Hb]]%rooted_neighbours; lia.
Qed.

Lemma down_neighbour (y z : nat) :
  z ∈ neighbours y E' → rank z < rank y →
  (par y z ∧ y ≠ i ∧ ¬ rtc par j y)
  ∨ (par z y ∧ z ≠ i ∧ rtc par j z)
  ∨ ((y = i ∨ y = j) ∧ z = S top).
Proof using All.
  pose proof rank_root as HR.
  intros [[Hyz Hy]|[[Hzy Hz]|H]]%rooted_neighbours Hlt.
  - left. split; [done|]. split; [done|]. intros Hp.
    pose proof (rank_par_up _ _ Hyz Hp). lia.
  - right. left. split; [done|]. split; [done|].
    destruct (on_path_dec z) as [Hp|Hp]; [done|].
    pose proof (rank_par_down _ _ Hzy Hp). lia.
  - right. right.
    destruct H as [[-> ->]|[[-> ->]|[[-> ->]|[-> ->]]]]; auto; lia.
Qed.

Lemma rooted_edges : rooted rank E' (S top).
Proof using All.
  pose proof cut_bound as Hij. pose proof rank_root as HR.
  pose proof (rank_pos i) as Hi. pose proof (rank_pos j) as Hj.
  split.
  - intros y z [[Hyz Hy]|[[Hzy Hz]|H]]%rooted_neighbours.
    + destruct (on_path_dec y) as [Hp|Hp].
      * pose proof (rank_par_up _ _ Hyz Hp). lia.
      * pose proof (rank_par_down _ _ Hyz Hp). lia.
    + destruct (on_path_dec z) as [Hp|Hp].
      * pose proof (rank_par_up _ _ Hzy Hp). lia.
      * pose proof (rank_par_down _ _ Hzy Hp). lia.
    + destruct H as [[-> ->]|[[-> ->]|[[-> ->]|[-> ->]]]]; lia.
  - intros y z z' Hz Hz' Hlt Hlt'.
    destruct (down_neighbour y z Hz Hlt)
      as [(Hyz & Hy & Hp)|[(Hzy & Hzi & Hp)|[Hy ->]]];
    destruct (down_neighbour y z' Hz' Hlt')
      as [(Hyz' & Hy' & Hp')|[(Hzy' & Hzi' & Hp')|[Hy' ->]]].
    + by eapply par_fun.
    + destruct Hp. by eapply rtc_r.
    + destruct Hy' as [-> | ->]; [done|]. by destruct Hp.
    + destruct Hp'. by eapply rtc_r.
    + by eapply kid_on_path.
    + apply par_rtc_le in Hp. apply par_bound in Hzy. lia.
    + destruct Hy as [-> | ->]; [done|]. by destruct Hp'.
    + apply par_rtc_le in Hp'. apply par_bound in Hzy'. lia.
    + done.
  - intros z [[Hb%par_bound _]|[[Hb%par_bound _]|Hb]]%rooted_neighbours;
      [lia | lia |].
    destruct Hb as [[? ->]|[[_ ->]|[[? ->]|[_ ->]]]]; lia.
Qed.

Lemma down_exists (y : nat) :
  y ≤ top → ∃ z, z ∈ neighbours y E' ∧ rank z < rank y.
Proof using All.
  intros Hy. pose proof rank_root as HR. pose proof (rank_pos y Hy).
  destruct (decide (y = i)) as [->|Hyi].
  { exists (S top). split; [apply rooted_neighbours; tauto | lia]. }
  destruct (decide (y = j)) as [->|Hyj].
  { exists (S top). split; [apply rooted_neighbours; tauto | lia]. }
  destruct (on_path_dec y) as [Hp|Hp].
  - pose proof Hp as [?|(c & Hc & Hcy)]%rtc_inv_r; [done|].
    exists c. split; [|by apply rank_par_up].
    apply rooted_neighbours. right. left. split; [done|].
    intros ->. by apply cut_off_path.
  - destruct (has_parent y) as [z Hyz].
    { destruct (decide (y = top)) as [->|]; [|lia].
      destruct Hp. apply par_top. }
    exists z. split; [|by apply rank_par_down].
    apply rooted_neighbours. by left.
Qed.

Lemma degree (y : nat) :
  y ≤ top → length (neighbours y E) = if decide (y < n) then 1 else 3.
Proof using All.
  intros Hy.
  rewrite neighbours_length
    by (intros e He; apply Hup in He; lia).
  rewrite (count_fmap fst y E), (count_fmap snd y E), Hperm, Hnew.
  rewrite filter_app, length_app, count_seq, count_twice, filter_cons.
  simpl. repeat case_decide; simpl; lia.
Qed.

Lemma rooted_split (y : nat) :
  neighbours y E'
  = neighbours y (pre ++ post)
    ++ (if decide (y = i) then [S top]
        else if decide (y = j) then [S top]
        else if decide (y = S top) then [i; j] else []).
Proof using All.
  pose proof cut_bound.
  unfold E'. rewrite neighbours_app, !neighbours_cons. simpl. f_equal.
  repeat case_decide; subst; simpl; try done; lia.
Qed.

Lemma rooted_degree (y : nat) :
  y ≤ top → length (neighbours y E') = if decide (y < n) then 1 else 3.
Proof using All.
  intros Hy. pose proof cut_bound. rewrite <- (degree y Hy).
  rewrite rooted_split, Hcut, !neighbours_app, neighbours_cons, !length_app.
  simpl. repeat case_decide; subst; simpl; lia.
Qed.

Lemma rooted_NoDup (y : nat) : y ≤ top → NoDup (neighbours y E').
Proof using All.
  intros Hy. rewrite rooted_split.
  assert (NoDup (neighbours y (pre ++ post))) as Hnd.
  { apply neighbours_NoDup.
    - pose proof firsts_NoDup as Hnd.
      rewrite Hcut, <- Permutation_middle, fmap_cons in Hnd.
      by apply NoDup_cons in Hnd as [_ Hnd].
    - intros e [He _]%rest_edges. by apply Hup. }
  assert (S top ∉ neighbours y (pre ++ post)) as Hroot.
  { intros [[Hb%par_bound _]%rest_edges|[Hb%par_bound _]%rest_edges]%elem_of_neighbours;
      lia. }
  repeat case_decide; subst; try lia;
    try (by rewrite app_nil_r);
    (apply NoDup_app; split; [done|]; split; [|apply NoDup_singleton]);
    by intros x Hx ->%list_elem_of_singleton.
Qed.

(** A leaf has no child, another id two. *)
Lemma rooted_up_length (y : nat) :
  y ≤ top → length (up rank E' y) = if decide (y < n) then 0 else 2.
Proof using All.
  intros Hy.
  pose proof (up_length rank E' (S top) y rooted_edges
                (rooted_NoDup y Hy) (down_exists y Hy)) as Hlen.
  rewrite (rooted_degree y Hy) in Hlen. case_decide; lia.
Qed.

Lemma rooted_up_root : up rank E' (S top) = [i; j].
Proof using All.
  pose proof cut_bound.
  unfold up. rewrite rooted_split.
  rewrite decide_False, decide_False, decide_True by lia.
  assert (neighbours (S top) (pre ++ post) = []) as ->.
  { destruct (neighbours (S top) (pre ++ post)) as [|z l] eqn:Hl; [done|].
    assert (z ∈ neighbours (S top) (pre ++ post)) as Hz
      by (rewrite Hl; by left).
    apply elem_of_neighbours in Hz
      as [[Hb%par_bound _]%rest_edges|[Hb%par_bound _]%rest_edges]; lia. }
  simpl. pose proof (rank_pos i). pose proof (rank_pos j).
  rewrite !filter_cons, rank_root, !decide_True by lia. done.
Qed.

(** Every id is below the root. *)
Lemma rooted_reach (m : nat) :
  ∀ y, rank y ≤ m → y ≤ S top →
  rtc (fun a b => b ∈ up rank E' a) (S top) y.
Proof using All.
  induction m as [|m IH]; intros y Hm Hy;
    (destruct (decide (y = S top)) as [->|Hne]; [done|]);
    pose proof (rank_pos y ltac:(lia)); [lia|].
  destruct (down_exists y) as (z & Hz & Hlt); [lia|].
  eapply rtc_r.
  - apply (IH z); [lia|]. by eapply rooted_neighbours_bound.
  - apply list_elem_of_filter. split; [done|]. by apply neighbours_sym.
Qed.

Lemma rooted_below (y : nat) :
  rtc (fun a b => b ∈ up rank E' a) (S top) y → y ≤ S top.
Proof using All.
  intros [->|(p & _ & [_ Hy]%list_elem_of_filter)]%rtc_inv_r; [done|].
  by eapply rooted_neighbours_bound.
Qed.

(** What [assemble_tree] makes of the rooted edges. *)
Lemma rooted_tree (limit : nat) :
  length E' < limit →
  ∃ t, assemble_tree limit (S top) E' = Ok t
    ∧ (∀ y, y ≤ S top → t !! y = Some (up rank E' y))
    ∧ (∀ y, S top < y → t !! y = None).
Proof using All.
  intros Hlimit.
  destruct (assemble_rooted rank E' (S top) rooted_edges limit Hlimit)
    as (t & Ht & Hkeys & Hval).
  exists t. split; [done|]. split.
  - intros y Hy.
    destruct (proj2 (Hkeys y) (rooted_reach (rank y) y ltac:(done) Hy))
      as [cs Hcs].
    by rewrite Hcs, (Hval y cs Hcs).
  - intros y Hy. apply eq_None_not_Some. intros Hsome%Hkeys%rooted_below. lia.
Qed.

Lemma rooted_printable (t : tree) (d : store) (m : nat) :
  (∀ y, y ≤ S top → t !! y = Some (up rank E' y)) →
  complete (S top) d →
  ∀ x, x ≤ top → 2 * top + 2 - rank x ≤ m →
  ∃ h, h ≤ S m ∧ printable t d None x h.
Proof using All.
  intros Ht Hd. induction m as [|m IH]; intros x Hx Hm;
    pose proof (rank_pos x Hx) as Hrx;
    pose proof (rooted_up_length x Hx) as Hlen;
    pose proof (Ht x ltac:(lia)) as Htx;
    destruct (up rank E' x) as [|a [|b [|? ?]]] eqn:Hupx;
    try (simpl in Hlen; case_decide; discriminate Hlen || lia);
    try (exists 1; split; [lia|]; by apply printable_leaf).
  - exfalso.
    assert (a ∈ up rank E' x) as [Hlt Ha]%list_elem_of_filter
      by (rewrite Hupx; by left).
    apply rooted_neighbours_bound in Ha as Hb.
    destruct (decide (a = S top)) as [->|]; [rewrite rank_root in Hlt; lia|].
    pose proof (rank_pos a ltac:(lia)). lia.
  - assert (∀ c, c ∈ up rank E' x →
              c ≤ top ∧ 2 * top + 2 - rank c ≤ m) as Hkid.
    { intros c [Hlt Hc]%list_elem_of_filter.
      apply rooted_neighbours_bound in Hc as Hb.
      destruct (decide (c = S top)) as [->|]; [rewrite rank_root in Hlt; lia|].
      pose proof (rank_pos c ltac:(lia)). lia. }
    destruct (Hkid a) as [Ha Hma]; [rewrite Hupx; by left|].
    destruct (Hkid b) as [Hb Hmb]; [rewrite Hupx; right; by left|].
    destruct (IH a Ha Hma) as (ha & Hha & Hpa).
    destruct (IH b Hb Hmb) as (hb & Hhb & Hpb).
    exists (S (ha `max` hb)). split; [lia|].
    apply (printable_node _ _ _ x a b ha hb);
      [done | apply Hd; lia | apply Hd; lia | done | done].
Qed.

Lemma rooted_children (t : tree) (x : nat) :
  (∀ y, y ≤ S top → t !! y = Some (up rank E' y)) →
  (∀ y, S top < y → t !! y = None) →
  rtc (child t) (S top) x ↔ x ≤ S top.
Proof using All.
  intros Ht Hnone. split.
  - intros [->|(p & _ & cs & Hp & Hx)]%rtc_inv_r; [done|].
    destruct (decide (p ≤ S top)) as [Hle|Hgt];
      [|rewrite Hnone in Hp by lia; done].
    rewrite Ht in Hp by done. injection Hp as <-.
    apply list_elem_of_filter in Hx as [_ Hx].
    by eapply rooted_neighbours_bound.
  - intros Hx. pose proof (rooted_reach (rank x) x ltac:(done) Hx) as Hreach.
    revert Hreach.
    apply (rtc_ind_r (R := fun a b => b ∈ up rank E' a)
             (fun x => rtc (child t) (S top) x) (S top)); [done|].
    intros y z Hy Hyz IH.
    eapply rtc_r; [exact IH|].
    exists (up rank E' y). split; [|done]. apply Ht. by apply rooted_below.
Qed.

End Rooting.

(** ** The root, whatever the weights *)

Lemma insert_root_cases (edges : list edge) (d : store) :
  (∀ e, e ∈ edges → is_Some (lookup2 d e.1 e.2)) → (0, 0) ∉ edges →
  ((∀ e, e ∈ edges → (0 <? weight d e)%float = false)
   ∧ insert_root edges d = Raise ValueError)
  ∨ ∃ i j pre post,
      edges = pre ++ (i, j) :: post
      ∧ (0 <? weight d (i, j))%float = true
      ∧ insert_root edges d
        = Ok (size d, (pre ++ post) ++ [(i, size d); (j, size d)]).
Proof.
  intros Hw H00.
  destruct (foldM_inv (fun done acc =>
              (acc = (0%float, 0, 0)
               ∧ ∀ e, e ∈ done → (0 <? weight d e)%float = false)
              ∨ ((acc.1.2, acc.2) ∈ done
                 ∧ acc.1.1 = weight d (acc.1.2, acc.2)
                 ∧ (0 <? acc.1.1)%float = true))
            (max_step d) edges (0%float, 0, 0)) as ([[m i] j] & Hfold & Hacc).
  - left. split; [done|]. by intros e ?%elem_of_nil.
  - intros pre e post acc Heq Hacc.
    destruct (Hw e) as [w Hlk].
    { rewrite Heq. apply elem_of_app. right. by left. }
    assert (weight d e = w) as Hwe by (unfold weight, dget; by rewrite Hlk).
    unfold max_step. rewrite getd_lookup2, Hlk. simpl.
    destruct (acc.1.1 <? w)%float eqn:Hlt.
    + simpl. eexists. split; [reflexivity|]. right. simpl.
      split; [apply elem_of_app; right; destruct e; by left|].
      split; [by destruct e|].
      destruct Hacc as [[-> _]|(_ & _ & Hpos)]; [done | by eapply ltb_trans].
    + eexists. split; [reflexivity|].
      destruct Hacc as [[-> H0]|(Hin & Hval & Hpos)].
      * left. split; [done|].
        intros e' [He'| ->%list_elem_of_singleton]%elem_of_app;
          [by apply H0 | by rewrite Hwe].
      * right. split; [apply elem_of_app; by left | done].
  - unfold insert_root, find_max. rewrite Hfold. simpl.
    destruct Hacc as [[Heq H0]|(Hin & Hval & Hpos)].
    + left. split; [done|]. injection Heq as -> -> ->.
      by rewrite list_remove_absent.
    + right. simpl in *.
      apply list_elem_of_split_l in Hin as (pre & post & Heq & Hpre).
      exists i, j, pre, post. split; [done|]. split; [by rewrite <- Hval|].
      rewrite Heq at 1. by rewrite list_remove_first.
Qed.

(** ** From the table to the text *)

Lemma neighbor_join_edges (n : nat) (d : store) :
  matrix_over n d → 3 ≤ n →
  ∃ edges d',
    neighbor_join d = Ok (edges, d')
    ∧ (∀ e, e ∈ edges → e.1 < e.2)
    ∧ edges.*1 ≡ₚ seq 0 (2 * n - 3)
    ∧ edges.*2 = flat_map (fun x => [x; x]) (seq n (n - 2)) ++ [2 * n - 3]
    ∧ complete (2 * n - 2) d' ∧ size d' = 2 * n - 2.
Proof.
  intros Hm Hn.
  destruct (neighbor_join_run n d Hm)
    as (s & a & b & _ & Hrun & Hinv & HL & Hk & Hnj); [lia|].
  pose proof (nj_run_shape n _ _ (nj_inv_init n d Hm)
                (nj_shape_init n d (matrix_over_size _ _ Hm)) Hrun)
    as [Hup Hperm Hlast].
  pose proof (inv_complete _ _ Hinv) as Hcomplete.
  pose proof (inv_dom _ _ Hinv) as Hdom.
  rewrite HL, Hk in *.
  assert (b = 2 * n - 3) as Hb.
  { specialize (Hlast ltac:(lia)). simpl in Hlast.
    injection Hlast as ->. lia. }
  assert (a < b) as Hab.
  { pose proof (inv_sorted _ _ Hinv) as Hs. rewrite HL in Hs.
    apply StronglySorted_cons in Hs as [Hall _].
    rewrite Forall_forall in Hall. apply Hall. by left. }
  eexists _, _. split; [exact Hnj|].
  split; [|split; [|split; [|split]]].
  - intros e [He| ->%list_elem_of_singleton]%elem_of_app; [by apply Hup|done].
  - rewrite fmap_app. simpl.
    apply (Permutation_app_inv_r [b]). rewrite <- app_assoc. simpl.
    rewrite Hperm, Hb.
    replace (2 * n - 2) with (S (2 * n - 3)) by lia. by rewrite seq_S.
  - rewrite fmap_app, (inv_new _ _ Hinv), Hk, Hb.
    by replace (2 * n - 2 - n) with (n - 2) by lia.
  - done.
  - rewrite <- size_dom, Hdom. apply size_set_seq.
Qed.

Lemma generate_newick_first (limit root i j hi hj : nat) (tm : tree)
    (d : store) (mapping : option (gmap nat string)) :
  tm !! root = Some [i; j] → is_Some (lookup2 d i j) →
  printable tm d mapping i hi → printable tm d mapping j hj →
  hi `max` hj < limit →
  ∃ ti tj x,
    generate_newick (limit - 1) i tm d mapping false = Ok ti
    ∧ generate_newick (limit - 1) j tm d mapping false = Ok tj
    ∧ lookup2 d i j = Some x
    ∧ generate_newick limit root tm d mapping true
      = Ok (node_format ti (x / 2) tj (x / 2) +:+ ";").
Proof.
  intros Hroot [x Hx] Hi Hj Hlimit.
  destruct limit as [|limit]; [lia|].
  replace (S limit - 1) with limit by lia.
  destruct (generate_newick_printable _ _ _ _ _ Hi limit) as [ti Hti]; [lia|].
  destruct (generate_newick_printable _ _ _ _ _ Hj limit) as [tj Htj]; [lia|].
  exists ti, tj, x. repeat (split; [done|]).
  simpl. rewrite Hroot. simpl.
  rewrite (proj2 (getd_Ok _ _ _ _) Hx). simpl. by rewrite Hti, Htj.
Qed.

(** The calls of [main] after the reducer, on its edges cut at
    [(i, j)]. *)
Lemma rooted_run (n top limit : nat) (E pre post : list edge) (i j : nat)
    (d : store) :
  3 ≤ n → top = 2 * n - 3 →
  (∀ e, e ∈ E → e.1 < e.2) →
  E.*1 ≡ₚ seq 0 top →
  E.*2 = flat_map (fun x => [x; x]) (seq n (n - 2)) ++ [top] →
  E = pre ++ (i, j) :: post →
  complete (S top) d → 4 * n ≤ limit →
  ∃ t s v,
    assemble_tree limit (S top) ((pre ++ post) ++ [(i, S top); (j, S top)])
    = Ok t
    ∧ t !! S top = Some [i; j]
    ∧ (∀ y, y < n → t !! y = Some [])
    ∧ (∀ y, n ≤ y ≤ top → ∃ a b, t !! y = Some [a; b])
    ∧ dom t = set_seq 0 (S (S top))
    ∧ generate_newick limit (S top) t d None true = Ok s
    ∧ bfs (S top) t = Ok v
    ∧ v ≡ₚ seq 0 (S (S top)).
Proof.
  intros Hn Htop Hup Hperm Hnew Hcut Hd Hlimit.
  set (E' := (pre ++ post) ++ [(i, S top); (j, S top)]).
  set (rank := root_rank E top j).
  pose proof (cut_bound n top E pre post i j Hn Htop Hup Hperm Hnew Hcut)
    as Hij.
  assert (length E' < limit) as Hlen.
  { assert (length E = top) as HE.
    { assert (length E.*1 = top) as HE1 by (rewrite Hperm; apply length_seq).
      by rewrite length_fmap in HE1. }
    unfold E'. rewrite Hcut, length_app in HE. simpl in HE.
    rewrite !length_app. simpl. lia. }
  destruct (rooted_tree n top E pre post i j Hn Htop Hup Hperm Hnew Hcut
              limit Hlen) as (t & Ht & Hkeys & Hnone).
  fold E' rank in Ht, Hkeys, Hnone.
  assert (t !! S top = Some [i; j]) as Hroot.
  { rewrite Hkeys by done. f_equal.
    apply (rooted_up_root n top E pre post i j Hn Htop Hup Hperm Hnew Hcut). }
  assert (∀ y, y ≤ top →
            length (up rank E' y) = if decide (y < n) then 0 else 2) as Hlens.
  { intros y Hy.
    apply (rooted_up_length n top E pre post i j
             Hn Htop Hup Hperm Hnew Hcut y Hy). }
  assert (∀ x, x ≤ top → ∃ h, h ≤ 2 * top + 2 ∧ printable t d None x h)
    as Hprint.
  { intros x Hx.
    pose proof (rank_pos n top E pre post i j
                  Hn Htop Hup Hperm Hnew Hcut x Hx) as Hrk.
    fold rank in Hrk.
    destruct (rooted_printable n top E pre post i j
                Hn Htop Hup Hperm Hnew Hcut
                t d (2 * top + 1) Hkeys Hd x Hx) as (h & Hh & Hp);
      [fold rank; lia|].
    exists h. split; [lia | done]. }
  destruct (Hprint i) as (hi & Hhi & Hpi); [lia|].
  destruct (Hprint j) as (hj & Hhj & Hpj); [lia|].
  destruct (generate_newick_first limit (S top) i j hi hj t d None Hroot)
    as (ti & tj & x & _ & _ & _ & Hs); [apply Hd; lia | done | done | lia |].
  assert (∀ y, rtc (child t) (S top) y ↔ y ≤ S top) as Hreach.
  { intros y. by apply (rooted_children n top E pre post i j
                          Hn Htop Hup Hperm Hnew Hcut t y). }
  pose proof (bfs_spec_aux t (S top)) as Hbfs.
  destruct (bfs (S top) t) as [v|e] eqn:Hb.
  2:{ destruct Hbfs as (_ & x' & Hx'%Hreach & Hx'none); [done..|].
      rewrite Hkeys in Hx'none by done. done. }
  destruct Hbfs as (Hnd & _ & Hv & _).
  exists t, (node_format ti (x / 2) tj (x / 2) +:+ ";"), v.
  split; [done|]. split; [done|].
  split; [|split; [|split; [|split; [|split]]]]; try done.
  - intros y Hy. rewrite Hkeys by lia. f_equal.
    pose proof (Hlens y ltac:(lia)) as Hl.
    rewrite decide_True in Hl by done. by destruct (up rank E' y).
  - intros y Hy. rewrite Hkeys by lia.
    pose proof (Hlens y ltac:(lia)) as Hl.
    rewrite decide_False in Hl by lia.
    destruct (up rank E' y) as [|a [|b [|? ?]]]; try done. by exists a, b.
  - apply set_eq. intros y. rewrite elem_of_dom, elem_of_set_seq. split.
    + intros Hy. destruct (decide (y ≤ S top)); [lia|].
      rewrite Hnone in Hy by lia. by destruct Hy.
    + intros Hy. rewrite Hkeys by lia. done.
  - apply NoDup_Permutation; [done | apply NoDup_seq|].
    intros y. rewrite Hv, Hreach, elem_of_seq by done. lia.
Qed.

(** ** bfs: the order of the visit *)

Lemma sorted_lookup (l : list nat) :
  StronglySorted le l →
  ∀ a b x y, a ≤ b → l !! a = Some x → l !! b = Some y → x ≤ y.
Proof.
  induction 1 as [|z l _ IH Hall]; intros a b x y Hab Ha Hb; [done|].
  destruct a as [|a], b as [|b]; simpl in *; simplify_eq; try lia.
  - rewrite Forall_forall in Hall. apply Hall.
    by eapply list_elem_of_lookup_2.
  - apply (IH a b); [lia | done | done].
Qed.

Lemma sorted_const {A : Type} (m : nat) (l : list A) :
  StronglySorted le ((fun _ => m) <$> l).
Proof.
  induction l as [|a l IH]; simpl; constructor; [done|].
  apply Forall_forall. intros x (? & -> & _)%list_elem_of_fmap. done.
Qed.

Lemma level_inv_init (tm : tree) (root : nat) :
  level_inv tm root 0 [] [(root, 0)].
Proof.
  split; simpl.
  - intros p ->%list_elem_of_singleton. apply bsteps_refl.
  - by left.
  - constructor.
  - repeat constructor.
  - by intros p ?%elem_of_nil.
  - intros q ->%list_elem_of_singleton. simpl. lia.
  - by intros p c ?%elem_of_nil.
Qed.

Lemma level_inv_skip (tm : tree) (root D x m : nat) (vd qd : list (nat * nat)) :
  level_inv tm root D vd ((x, m) :: qd) → x ∈ vd.*1 →
  level_inv tm root D vd qd.
Proof.
  intros [Hreach Hroot Hv Hq Hlow Hhigh Hkids] Hx.
  apply list_elem_of_fmap in Hx as ([x' m'] & -> & Hx). simpl in *.
  pose proof (Hlow _ Hx) as Hm'. simpl in Hm'.
  destruct (Hhigh (x', m)) as [Hm _]; [by left|]. simpl in Hm.
  split; try done.
  - intros p Hp. apply Hreach.
    rewrite elem_of_app, elem_of_cons. rewrite elem_of_app in Hp. tauto.
  - rewrite elem_of_app, elem_of_cons in Hroot. rewrite elem_of_app.
    destruct Hroot as [?|[[= <- <-]|?]]; [tauto| |tauto].
    left. by replace 0 with m' by lia.
  - by apply StronglySorted_cons in Hq as [_ Hq].
  - intros q Hq'. apply Hhigh. by right.
  - intros p c Hp Hc. destruct (Hkids p c Hp Hc) as (mc & Hmc & Hin).
    rewrite elem_of_app, elem_of_cons in Hin.
    destruct Hin as [?|[[= -> ->]|?]].
    + exists mc. rewrite elem_of_app. tauto.
    + exists m'. rewrite elem_of_app. split; [lia | tauto].
    + exists mc. rewrite elem_of_app. tauto.
Qed.

Lemma level_inv_visit (tm : tree) (root D x m : nat)
    (vd qd : list (nat * nat)) (cs : list nat) :
  level_inv tm root D vd ((x, m) :: qd) → tm !! x = Some cs →
  level_inv tm root m (vd ++ [(x, m)])
    (qd ++ ((fun c => (c, S m)) <$> cs)).
Proof.
  intros [Hreach Hroot Hv Hq Hlow Hhigh Hkids] Hcs.
  destruct (Hhigh (x, m)) as [Hm1 Hm2]; [by left|]. simpl in Hm1, Hm2.
  apply StronglySorted_cons in Hq as [Hhead Hq].
  rewrite Forall_forall in Hhead.
  assert (∀ q, q ∈ qd → m ≤ q.2 ≤ S D) as Hqd.
  { intros q Hq'. split; [|apply Hhigh; by right].
    apply Hhead, list_elem_of_fmap. by exists q. }
  assert (((fun c => (c, S m)) <$> cs).*2 = (fun _ => S m) <$> cs) as Hsnd.
  { rewrite <- list_fmap_compose. done. }
  split.
  - intros p Hp. rewrite !elem_of_app in Hp.
    destruct Hp as [[Hp| ->%list_elem_of_singleton]|[Hp|Hp]].
    + apply Hreach, elem_of_app. by left.
    + apply Hreach, elem_of_app. right. by left.
    + apply Hreach, elem_of_app. right. by right.
    + apply list_elem_of_fmap in Hp as (c & -> & Hc). simpl.
      eapply bsteps_r; [apply (Hreach (x, m)), elem_of_app; right; by left|].
      by exists cs.
  - rewrite !elem_of_app, list_elem_of_singleton.
    rewrite elem_of_app, elem_of_cons in Hroot. tauto.
  - rewrite fmap_app. apply StronglySorted_app. split; [|split; [done|]].
    + intros x1 x2 (p & -> & Hp)%list_elem_of_fmap ->%list_elem_of_singleton.
      apply Hlow in Hp. simpl. lia.
    + repeat constructor.
  - rewrite fmap_app, Hsnd. apply StronglySorted_app.
    split; [|split; [done | apply sorted_const]].
    intros x1 x2 (q & -> & Hq')%list_elem_of_fmap
      (c & -> & _)%list_elem_of_fmap.
    apply Hqd in Hq'. lia.
  - intros p [Hp| ->%list_elem_of_singleton]%elem_of_app; [|done].
    apply Hlow in Hp. lia.
  - intros q [Hq'|(c & -> & _)%list_elem_of_fmap]%elem_of_app;
      [|simpl; lia].
    apply Hqd in Hq'. lia.
  - intros p c [Hp| ->%list_elem_of_singleton]%elem_of_app Hc.
    + destruct (Hkids p c Hp Hc) as (mc & Hmc & Hin).
      exists mc. split; [done|].
      rewrite !elem_of_app, list_elem_of_singleton.
      rewrite elem_of_app, elem_of_cons in Hin. tauto.
    + exists (S m). split; [done|].
      destruct Hc as (cs' & Hcs' & Hc). simpl in Hcs'.
      rewrite Hcs in Hcs'. injection Hcs' as <-.
      rewrite !elem_of_app. right. right.
      apply list_elem_of_fmap. by exists c.
Qed.

Lemma bfs_loop_levels (tm : tree) (root : nat) (fuel : nat) :
  ∀ D vd qd v,
  level_inv tm root D vd qd →
  bfs_loop fuel tm vd.*1 qd.*1 = Ok v →
  ∃ D' vd', v = vd'.*1 ∧ level_inv tm root D' vd' [].
Proof.
  induction fuel as [|fuel IH]; intros D vd [|[x m] qd] v Hinv Hv;
    simpl in Hv; simplify_eq; eauto.
  case_decide.
  - apply (IH D vd qd v); [by eapply level_inv_skip | done].
  - destruct (tm !! x) as [cs|] eqn:Hcs; simpl in Hv; [|done].
    apply (IH m (vd ++ [(x, m)]) (qd ++ ((fun c => (c, S m)) <$> cs)) v).
    + by eapply level_inv_visit.
    + rewrite !fmap_app, <- list_fmap_compose. simpl.
      by rewrite list_fmap_id.
Qed.

(** The ids come in the order of their distance from the root. *)
Lemma bfs_levels (tm : tree) (root : nat) (v : list nat) :
  bfs root tm = Ok v →
  ∀ a b x y k, a ≤ b → v !! a = Some x → v !! b = Some y →
  bsteps (child tm) k root y → bsteps (child tm) k root x.
Proof.
  intros Hv a b x y k Hab Ha Hb Hy.
  pose proof (bfs_spec_aux tm root) as Hspec. rewrite Hv in Hspec.
  destruct Hspec as (Hnd & _).
  destruct (bfs_loop_levels tm root _ 0 [] [(root, 0)] v
              (level_inv_init tm root) Hv)
    as (D & vd & -> & [Hreach Hroot Hsorted _ _ _ Hkids]).
  rewrite app_nil_r in *.
  rewrite list_lookup_fmap in Ha, Hb.
  destruct (vd !! a) as [[x' ma]|] eqn:Hva; [|done].
  destruct (vd !! b) as [[y' mb]|] eqn:Hvb; [|done].
  simpl in Ha, Hb. simplify_eq.
  assert (∃ m, m ≤ k ∧ (y, m) ∈ vd) as (m & Hm & Hin).
  { revert Hy. clear Hvb.
    apply (bsteps_ind_r (R := child tm)
             (fun k y => ∃ m, m ≤ k ∧ (y, m) ∈ vd) root).
    - intros n. exists 0. split; [lia | done].
    - intros n p c _ Hpc (m & Hm & Hp).
      destruct (Hkids (p, m) c Hp Hpc) as (mc & Hmc & Hc).
      exists mc. simpl in Hmc. split; [lia | done]. }
  assert (m = mb) as ->.
  { apply (firsts_fun vd y m mb Hnd Hin). by eapply list_elem_of_lookup_2. }
  assert (ma ≤ mb) as Hle.
  { apply (sorted_lookup vd.*2 Hsorted a b); [done | |];
      by rewrite list_lookup_fmap, ?Hva, ?Hvb. }
  apply (bsteps_weaken ma k); [lia|].
  apply (Hreach (x, ma)). by eapply list_elem_of_lookup_2.
Qed.

(** ** The number written for a length *)

Lemma read_digits_uint_digits (u : Decimal.uint) :
  ∀ acc rest,
  match rest with String c _ => is_digit c = false | EmptyString => True end →
  read_digits acc (NilEmpty.string_of_uint u +:+ rest) = (uint_value acc u, rest).
Proof.
  induction u as [|u IH|u IH|u IH|u IH|u IH|u IH|u IH|u IH|u IH|u IH];
    intros acc rest Hrest; simpl;
    try (rewrite IH by done; f_equal; f_equal; unfold digit_value; simpl; lia).
  destruct rest as [|c rest]; [done|]. simpl. by rewrite Hrest.
Qed.

Lemma read_digits_uint (u : Decimal.uint) (rest : string) :
  match rest with String c _ => is_digit c = false | EmptyString => True end →
  read_digits 0 (NilZero.string_of_uint u +:+ rest) = (uint_value 0 u, rest).
Proof.
  intros Hrest.
  destruct u; try apply (read_digits_uint_digits (_ u) 0 rest Hrest).
  simpl. destruct rest as [|c rest]; [done|]. simpl. by rewrite Hrest.
Qed.

Lemma of_uint_acc_value (u : Decimal.uint) :
  ∀ acc, Zpos (Pos.of_uint_acc u acc) = uint_value (Zpos acc) u.
Proof.
  induction u; intros acc; simpl; [done|..]; rewrite IHu; f_equal; lia.
Qed.

Lemma of_uint_value (u : Decimal.uint) :
  Z.of_N (N.of_uint u) = uint_value 0 u.
Proof.
  unfold N.of_uint.
  induction u; simpl; [done | done |..]; by rewrite of_uint_acc_value.
Qed.

Lemma read_digits_N (k : N) (rest : string) :
  match rest with String c _ => is_digit c = false | EmptyString => True end →
  read_digits 0 (NilZero.string_of_uint (N.to_uint k) +:+ rest)
  = (Z.of_N k, rest).
Proof.
  intros Hrest. rewrite read_digits_uint by done.
  by rewrite <- of_uint_value, DecimalN.Unsigned.of_to.
Qed.

Lemma read_digits_digit (a acc : Z) (s : string) :
  (0 ≤ a < 10)%Z →
  read_digits acc (digit a +:+ s) = read_digits (10 * acc + a) s.
Proof.
  intros Ha.
  assert (a ∈ [0; 1; 2; 3; 4; 5; 6; 7; 8; 9]%Z) as Hin.
  { rewrite !elem_of_cons. lia. }
  rewrite !elem_of_cons in Hin.
  repeat (destruct Hin as [->|Hin]; [done|]).
  by apply elem_of_nil in Hin.
Qed.

Lemma append_empty_r (s : string) : s +:+ EmptyString = s.
Proof.
  induction s as [|c s IH]; [done|].
  change (String c (s +:+ EmptyString) = String c s). by rewrite IH.
Qed.

Lemma read_digits_frac6 (v : Z) :
  (0 ≤ v < 1000000)%Z → read_digits 0 (frac6 v) = (v, EmptyString).
Proof.
  intros Hv. unfold frac6.
  rewrite <- (append_empty_r (digit (v mod 10))).
  rewrite !read_digits_digit by (apply Z.mod_pos_bound; lia).
  simpl. f_equal.
  assert (v / 100 = v / 10 / 10)%Z as H2 by (by rewrite Z.div_div by lia).
  assert (v / 1000 = v / 100 / 10)%Z as H3 by (by rewrite Z.div_div by lia).
  assert (v / 10000 = v / 1000 / 10)%Z as H4 by (by rewrite Z.div_div by lia).
  assert (v / 100000 = v / 10000 / 10)%Z as H5
    by (by rewrite Z.div_div by lia).
  assert (v / 100000 / 10 = 0)%Z as H6.
  { rewrite Z.div_div by lia. apply Z.div_small. lia. }
  pose proof (Z.div_mod v 10 ltac:(lia)).
  pose proof (Z.div_mod (v / 10) 10 ltac:(lia)).
  pose proof (Z.div_mod (v / 100) 10 ltac:(lia)).
  pose proof (Z.div_mod (v / 1000) 10 ltac:(lia)).
  pose proof (Z.div_mod (v / 10000) 10 ltac:(lia)).
  pose proof (Z.div_mod (v / 100000) 10 ltac:(lia)).
  rewrite <- H2, <- H3, <- H4, <- H5, H6 in *.
  generalize dependent (v / 10)%Z. generalize dependent (v / 100)%Z.
  generalize dependent (v / 1000)%Z. generalize dependent (v / 10000)%Z.
  generalize dependent (v / 100000)%Z. intros.
  generalize dependent (v mod 10)%Z. generalize dependent (z mod 10)%Z.
  generalize dependent (z0 mod 10)%Z. generalize dependent (z1 mod 10)%Z.
  generalize dependent (z2 mod 10)%Z. generalize dependent (z3 mod 10)%Z.
  intros. lia.
Qed.

Lemma unsigned_decimal_written (negative : bool) (n : Z) :
  (0 ≤ n)%Z →
  unsigned_decimal negative
    (NilZero.string_of_uint (N.to_uint (Z.to_N (n / 1000000)))
     +:+ "." +:+ frac6 (n mod 1000000))
  = Some (let q := QArith_base.Qmake n 1000000 in
          if negative then QArith_base.Qopp q else q).
Proof.
  intros Hn. unfold unsigned_decimal.
  rewrite read_digits_N by done.
  change ("." +:+ frac6 (n mod 1000000))
    with (String "." (frac6 (n mod 1000000))). cbv iota beta.
  rewrite read_digits_frac6 by (apply Z.mod_pos_bound; lia).
  destruct (frac6_spec (n mod 1000000)) as [_ ->].
  change (Z.to_pos (10 ^ Z.of_nat 6)) with 1000000%positive.
  change (10 ^ Z.of_nat 6)%Z with 1000000%Z.
  rewrite Z2N.id by (apply Z.div_pos; lia).
  replace (n / 1000000 * 1000000 + n mod 1000000)%Z with n; [done|].
  pose proof (Z.div_mod n 1000000 ltac:(lia)). lia.
Qed.

Lemma decimal_written (s : bool) (n : Z) :
  (0 ≤ n)%Z →
  decimal ((if s then "-" else "")
           +:+ NilZero.string_of_uint (N.to_uint (Z.to_N (n / 1000000)))
           +:+ "." +:+ frac6 (n mod 1000000))
  = Some (let q := QArith_base.Qmake n 1000000 in
          if s then QArith_base.Qopp q else q).
Proof.
  intros Hn. rewrite <- (unsigned_decimal_written s n Hn).
  destruct s; [done|].
  change ("" +:+ ?t) with t.
  destruct (N.to_uint (Z.to_N (n / 1000000))); done.
Qed.

Lemma round_half_even_near (num den : Z) :
  (0 ≤ num)%Z → (0 < den)%Z →
  (0 ≤ round_half_even num den
   ∧ 2 * Z.abs (round_half_even num den * den - num) ≤ den)%Z.
Proof.
  intros Hnum Hden. unfold round_half_even.
  pose proof (Z.div_mod num den ltac:(lia)) as Hdm.
  pose proof (Z.mod_pos_bound num den Hden) as Hr.
  pose proof (Z.div_pos num den Hnum Hden) as Hq.
  destruct (Z.compare_spec (2 * (num mod den)) den) as [Heq|Hlt|Hgt];
    [destruct (Z.even (num / den))|..]; (split; [lia|]); nia.
Qed.

Lemma nearest_millionth_spec (s : bool) (n a : Z) (b : positive) :
  (2 * Z.abs (n * Zpos b - a * 1000000) ≤ Zpos b)%Z →
  nearest_millionth
    (let q := QArith_base.Qmake n 1000000 in
     if s then QArith_base.Qopp q else q)
    (let v := QArith_base.Qmake a b in
     if s then QArith_base.Qopp v else v).
Proof.
  intros H. unfold nearest_millionth. apply Qabs.Qabs_Qle_condition.
  destruct s; unfold QArith_base.Qle, QArith_base.Qminus, QArith_base.Qplus,
    QArith_base.Qopp; cbn [QArith_base.Qnum QArith_base.Qden];
    rewrite ?Pos2Z.inj_mul; split; nia.
Qed.

(** The text of a finite length reads as the number nearest to it among
    those with six digits after the point. *)
Lemma format_6f_value (y : float) :
  PrimFloat.is_finite y = true →
  ∃ q v, decimal (format_6f y) = Some q ∧ float_value y = Some v
         ∧ nearest_millionth q v.
Proof.
  unfold PrimFloat.is_finite. intros H.
  apply negb_true_iff, orb_false_iff in H as [Hnan Hinf].
  unfold format_6f, float_value.
  destruct (Prim2SF y) as [s|s| |s m e] eqn:E.
  - exists (QArith_base.Qmake 0 1000000 : QArith_base.Q), (QArith_base.Qmake 0 1).
    split; [by destruct s|]. split; [done|]. by vm_compute.
  - exfalso. unfold Prim2SF in E. rewrite Hnan, Hinf in E.
    destruct (PrimFloat.is_zero y); [done|].
    destruct (Z.frexp y) as [m e]. destruct (shr_fexp _ _ _ _ _) as [sh e'].
    destruct (shr_m sh); done.
  - exfalso. unfold Prim2SF in E. rewrite Hnan, Hinf in E.
    destruct (PrimFloat.is_zero y); [done|].
    destruct (Z.frexp y) as [m e]. destruct (shr_fexp _ _ _ _ _) as [sh e'].
    destruct (shr_m sh); done.
  - destruct e as [|p|p].
    + eexists _, _. split; [apply decimal_written; lia|]. split; [done|].
      apply (nearest_millionth_spec s _ (Zpos m * 2 ^ 0) 1). lia.
    + eexists _, _. split; [apply decimal_written; lia|]. split; [done|].
      apply (nearest_millionth_spec s _ (Zpos m * 2 ^ Zpos p) 1). lia.
    + destruct (round_half_even_near (Zpos m * 1000000) (2 ^ Zpos p))
        as [Hpos Hnear]; [lia | lia|].
      eexists _, _. split; [by apply decimal_written|]. split; [done|].
      apply (nearest_millionth_spec s _ (Zpos m) (2 ^ p)).
      rewrite Pos2Z.inj_pow. lia.
Qed.

(** The length written at the root of the cherry is [d[0][1] / 2 = 1.5],
    not [d[2][0] = 3]. *)
Example cherry_length :
  lookup2 cherry_store 0 1 = Some 3%float
  ∧ lookup2 cherry_store 2 0 = Some 3%float
  ∧ format_6f (3 / 2) = "1.500000"
  ∧ decimal (format_6f (3 / 2)) = Some (QArith_base.Qmake 1500000 1000000)
  ∧ (∃ v, float_value (3 / 2) = Some v
          ∧ QArith_base.Qeq v (QArith_base.Qmake 3 2)).
Proof.
  repeat split; try (vm_compute; reflexivity).
  eexists. split; vm_compute; reflexivity.
Qed.

(** * The claims *)

(** C1.  Take a table over [0..n-1] and a state [s] that the loop
    reaches from it with more than two active ids.  The pairs are met in
    increasing order (by [i], then by [j]).  The iteration computes
    [r[i] = sum over j in L of d[i][j] / (len(L) - 2)] and merges a pair
    [(i, j)] of distinct active ids, met at some position [a] of the
    scan, such that no pair of distinct active ids has an entry
    [q i j = d[i][j] - (r[i] + r[j])] strictly below that of [(i, j)].
    Only a strictly smaller entry replaces the minimum: where the
    entries of the pairs of distinct active ids are numbers, every such
    pair met before position [a] has an entry strictly above that of
    [(i, j)], which is thus the first of the smallest. *)
Theorem select_minimum (n : nat) (d : store) (s : state) :
  matrix_over n d → nj_run (nj_init d) s → 2 < length (st_L s) →
  let q := score (st_d s) (st_L s) in
  StronglySorted pair_lt (scan_pairs (st_L s))
  ∧ ∃ i j r a s',
      select s = Ok (i, j, r)
      ∧ nj_step s = Ok s'
      ∧ st_edges s' = st_edges s ++ [(i, st_k s); (j, st_k s)]
      ∧ (∀ x, x ∈ st_L s → r !! x = Some (rsum (st_d s) (st_L s) x))
      ∧ scan_pairs (st_L s) !! a = Some (i, j)
      ∧ i ∈ st_L s ∧ j ∈ st_L s ∧ i ≠ j
      ∧ (∀ i' j', i' ∈ st_L s → j' ∈ st_L s → i' ≠ j' →
           (q i' j' <? q i j)%float = false)
      ∧ ((∀ i' j', i' ∈ st_L s → j' ∈ st_L s → i' ≠ j' →
            PrimFloat.is_nan (q i' j') = false) →
         ∀ b i' j', b < a → scan_pairs (st_L s) !! b = Some (i', j') →
           i' ≠ j' → (q i j <? q i' j')%float = true).
Proof.
  intros Hm Hrun HL q.
  pose proof (nj_run_inv n _ _ (nj_inv_init n d Hm) Hrun) as Hinv.
  split. { apply scan_pairs_sorted, Hinv. }
  destruct (nj_step_spec n s Hinv HL)
    as (s' & i & j & r & Hstep & Hsel & _ & _ & _ & Hedges & _).
  destruct (select_spec n s Hinv HL) as (i' & j' & r' & Hsel' & Er & Hbest).
  rewrite Hsel in Hsel'. injection Hsel' as <- <- <-.
  destruct Hbest as [_ Hne Hmin (a & Ha & Hfirst)]. simpl in *.
  pose proof Ha as Hin.
  apply list_elem_of_lookup_2, elem_of_scan_pairs in Hin as [Hi Hj].
  exists i, j, r, a, s'. repeat (split; [done|]).
  split. { intros x Hx. rewrite Er, decide_True; [done|]. by apply Hinv. }
  repeat (split; [done|]). split.
  - intros i' j' Hi' Hj' Hne'. apply Hmin; [|done].
    by apply elem_of_scan_pairs.
  - intros Hnan. apply Hfirst.
    intros i' j' [? ?]%elem_of_scan_pairs ?. by apply Hnan.
Qed.

Lemma select_minimum_witness :
  let s := nj_init two_pairs in
  let q := score (st_d s) (st_L s) in
  (matrix_over 4 two_pairs ∧ nj_run (nj_init two_pairs) s
   ∧ 2 < length (st_L s))
  ∧ (∀ i' j', i' ∈ st_L s → j' ∈ st_L s → i' ≠ j' →
       PrimFloat.is_nan (q i' j') = false)
  ∧ StronglySorted pair_lt (scan_pairs (st_L s))
  ∧ ∃ i j r a s',
      select s = Ok (i, j, r)
      ∧ nj_step s = Ok s'
      ∧ st_edges s' = st_edges s ++ [(i, st_k s); (j, st_k s)]
      ∧ (∀ x, x ∈ st_L s → r !! x = Some (rsum (st_d s) (st_L s) x))
      ∧ scan_pairs (st_L s) !! a = Some (i, j)
      ∧ i ∈ st_L s ∧ j ∈ st_L s ∧ i ≠ j
      ∧ (∀ i' j', i' ∈ st_L s → j' ∈ st_L s → i' ≠ j' →
           (q i' j' <? q i j)%float = false)
      ∧ ((∀ i' j', i' ∈ st_L s → j' ∈ st_L s → i' ≠ j' →
            PrimFloat.is_nan (q i' j') = false) →
         ∀ b i' j', b < a → scan_pairs (st_L s) !! b = Some (i', j') →
           i' ≠ j' → (q i j <? q i' j')%float = true).
Proof.
  intros s q.
  assert (2 < length (st_L s)) as HL by (vm_compute; lia).
  split; [split; [apply matrix_over_table | split; [constructor | exact HL]]|].
  split.
  { intros i j Hi Hj _.
    apply list_elem_of_In in Hi, Hj. vm_compute in Hi, Hj.
    repeat match goal with H : _ ∨ _ |- _ => destruct H as [<-|H] end;
      try done; vm_compute; reflexivity. }
  exact (select_minimum 4 two_pairs s (matrix_over_table _ _)
           (nj_run_refl _) HL).
Defined.

(** C2.  On a symmetric zero-diagonal table over [0..n-1], [n >= 3],
    [neighbor_join] returns [2n-3] edges.  The edges before the last one
    come in pairs that end in the new ids [n], [n+1], ..., [2n-3], one
    pair for each: these [n-2] ids are what the table has gained.  The
    last edge joins the two ids [a] and [b] that are active when the loop
    ends, both ids of the table, which is the table the loop left. *)
Theorem neighbor_join_shape (n : nat) (d : store) :
  valid_matrix n d → 3 ≤ n →
  ∃ s a b,
    nj_loop (size d) (nj_init d) = Ok s
    ∧ st_L s = [a; b]
    ∧ neighbor_join d = Ok (st_edges s ++ [(a, b)], st_d s)
    ∧ length (st_edges s ++ [(a, b)]) = 2 * n - 3
    ∧ (st_edges s).*2 = flat_map (fun x => [x; x]) (seq n (n - 2))
    ∧ dom (st_d s) ∖ dom d = set_seq n (n - 2)
    ∧ size (st_d s) = size d + (n - 2)
    ∧ a ∈ dom (st_d s) ∧ b ∈ dom (st_d s).
Proof.
  intros (Hm & _ & _) Hn.
  destruct (neighbor_join_run n d Hm) as (s & a & b & Hloop & _ & Hinv & HL & Hk & Hnj);
    [lia|].
  destruct Hinv as [_ Hb _ Hdom _ _ Hedges Hnew].
  exists s, a, b. repeat (split; [done|]).
  rewrite Hk in *. replace (2 * n - 2 - n) with (n - 2) in * by lia.
  split. { rewrite length_app, Hedges. simpl. lia. }
  split; [done|].
  assert (dom d = set_seq 0 n) as Hd by apply Hm.
  split.
  { rewrite Hdom, Hd. apply set_eq. intros x.
    rewrite elem_of_difference, !elem_of_set_seq. lia. }
  split.
  { rewrite <- !size_dom, Hdom, Hd, !size_set_seq. lia. }
  rewrite Hdom, !elem_of_set_seq, HL in *.
  split; (split; [lia|]); simpl; apply Hb; rewrite !elem_of_cons; auto.
Qed.

Lemma neighbor_join_shape_witness :
  valid_matrix 4 two_pairs ∧ 3 ≤ 4 ∧
  ∃ s a b,
    nj_loop (size two_pairs) (nj_init two_pairs) = Ok s
    ∧ st_L s = [a; b]
    ∧ neighbor_join two_pairs = Ok (st_edges s ++ [(a, b)], st_d s)
    ∧ length (st_edges s ++ [(a, b)]) = 2 * 4 - 3
    ∧ (st_edges s).*2 = flat_map (fun x => [x; x]) (seq 4 (4 - 2))
    ∧ dom (st_d s) ∖ dom two_pairs = set_seq 4 (4 - 2)
    ∧ size (st_d s) = size two_pairs + (4 - 2)
    ∧ a ∈ dom (st_d s) ∧ b ∈ dom (st_d s).
Proof.
  split; [apply valid_two_pairs|]. split; [lia|].
  apply (neighbor_join_shape 4 two_pairs valid_two_pairs). lia.
Defined.

(** C3.  Take a node [root] with the children [(i, j)] whose texts are
    [ti] and [tj].  Called with [first = True], [generate_newick] writes
    the length [d[i][j] / 2] for both children and ends the text with
    [;].  Called with [first = False], as every inner call is, it writes
    [d[root][i]] and [d[root][j]], and no [;].  The text is
    ["(ti:li,tj:lj)"] both times.  The text of a finite length has six
    digits after the point, and read as a decimal it is the length to
    within half a millionth: the digits written are those of the length,
    rounded at the sixth place. *)
Theorem generate_newick_internal (limit root i j : nat) (tm : tree)
    (d : store) (mapping : option (gmap nat string)) (ti tj : string) :
  tm !! root = Some [i; j] →
  generate_newick limit i tm d mapping false = Ok ti →
  generate_newick limit j tm d mapping false = Ok tj →
  (∀ x, lookup2 d i j = Some x →
     generate_newick (S limit) root tm d mapping true
     = Ok (("(" +:+ ti +:+ ":" +:+ format_6f (x / 2) +:+ ","
            +:+ tj +:+ ":" +:+ format_6f (x / 2) +:+ ")") +:+ ";"))
  ∧ (∀ li lj, lookup2 d root i = Some li → lookup2 d root j = Some lj →
       generate_newick (S limit) root tm d mapping false
       = Ok ("(" +:+ ti +:+ ":" +:+ format_6f li +:+ ","
             +:+ tj +:+ ":" +:+ format_6f lj +:+ ")"))
  ∧ (∀ y, PrimFloat.is_finite y = true → six_decimals (format_6f y))
  ∧ (∀ y, PrimFloat.is_finite y = true →
       ∃ q v, decimal (format_6f y) = Some q ∧ float_value y = Some v
              ∧ nearest_millionth q v).
Proof.
  intros Hroot Hi Hj. split; [|split; [|split]].
  - intros x Hx. simpl. rewrite Hroot. simpl.
    rewrite (proj2 (getd_Ok _ _ _ _) Hx). simpl. rewrite Hi, Hj. done.
  - intros li lj Hli Hlj. simpl. rewrite Hroot. simpl.
    rewrite (proj2 (getd_Ok _ _ _ _) Hli), (proj2 (getd_Ok _ _ _ _) Hlj).
    simpl. rewrite Hi, Hj. done.
  - apply format_6f_finite.
  - apply format_6f_value.
Qed.

Lemma generate_newick_internal_witness :
  cherry !! 2 = Some [0; 1]
  ∧ generate_newick 1 0 cherry cherry_store None false = Ok "0"
  ∧ generate_newick 1 1 cherry cherry_store None false = Ok "1"
  ∧ (∀ x, lookup2 cherry_store 0 1 = Some x →
       generate_newick 2 2 cherry cherry_store None true
       = Ok (("(" +:+ "0" +:+ ":" +:+ format_6f (x / 2) +:+ ","
              +:+ "1" +:+ ":" +:+ format_6f (x / 2) +:+ ")") +:+ ";"))
  ∧ (∀ li lj, lookup2 cherry_store 2 0 = Some li →
       lookup2 cherry_store 2 1 = Some lj →
       generate_newick 2 2 cherry cherry_store None false
       = Ok ("(" +:+ "0" +:+ ":" +:+ format_6f li +:+ ","
             +:+ "1" +:+ ":" +:+ format_6f lj +:+ ")"))
  ∧ (∀ y, PrimFloat.is_finite y = true → six_decimals (format_6f y))
  ∧ (∀ y, PrimFloat.is_finite y = true →
       ∃ q v, decimal (format_6f y) = Some q ∧ float_value y = Some v
              ∧ nearest_millionth q v).
Proof.
  assert (cherry !! 2 = Some [0; 1]) as Hroot by reflexivity.
  assert (generate_newick 1 0 cherry cherry_store None false = Ok "0") as Hi
    by reflexivity.
  assert (generate_newick 1 1 cherry cherry_store None false = Ok "1") as Hj
    by reflexivity.
  repeat (split; [assumption|]).
  exact (generate_newick_internal 1 2 0 1 cherry cherry_store None "0" "1"
           Hroot Hi Hj).
Defined.

(** C4: the code fails it on three leaves at distance zero of one
    another.  The three edges returned have weight [0]; the scan for an
    edge longer than [d_max = 0] keeps [(i_max, j_max) = (0, 0)]; the
    removal of [(0, 0)], which is no edge, raises [ValueError].  (Where
    some edge is longer than [0], the first of the longest edges goes and
    the root takes its place: [insert_root_longest].) *)
Theorem root_insertion_zeros :
  zeros3
  = {[ 0 := {[ 0 := 0%float; 1 := 0%float; 2 := 0%float ]};
       1 := {[ 0 := 0%float; 1 := 0%float; 2 := 0%float ]};
       2 := {[ 0 := 0%float; 1 := 0%float; 2 := 0%float ]} ]}
  ∧ valid_matrix 3 zeros3
  ∧ fst <$> neighbor_join zeros3 = Ok [(0, 3); (1, 3); (2, 3)]
  ∧ (neighbor_join zeros3 ≫= fun p => mapM (fun e => getd p.2 e.1 e.2) p.1)
    = Ok [0%float; 0%float; 0%float]
  ∧ (neighbor_join zeros3 ≫= fun p => find_max p.1 p.2)
    = Ok (0%float, 0, 0)
  ∧ (neighbor_join zeros3 ≫= fun p => insert_root p.1 p.2)
    = Raise ValueError.
Proof.
  split; [vm_compute; reflexivity|]. split; [apply valid_zeros3|].
  repeat split; vm_compute; reflexivity.
Qed.

(** C5, as amended.  With fewer than two leaves [neighbor_join] fails:
    the loop is not entered, and reading the two ends of the last edge
    raises [IndexError].  (Two leaves are accepted, and give one
    edge.) *)
Theorem neighbor_join_too_few (d : store) :
  size d < 2 →
  nj_loop (size d) (nj_init d) = Ok (nj_init d)
  ∧ neighbor_join d = Raise IndexError.
Proof.
  intros Hsz. unfold neighbor_join, nj_init.
  destruct (size d) as [|[|n]]; [done | done | lia].
Qed.

Lemma neighbor_join_too_few_witness :
  size (∅ : store) < 2 ∧
  nj_loop (size (∅ : store)) (nj_init ∅) = Ok (nj_init ∅)
  ∧ neighbor_join ∅ = Raise IndexError.
Proof.
  assert (size (∅ : store) < 2) as H by (vm_compute; lia).
  split; [exact H|]. exact (neighbor_join_too_few ∅ H).
Defined.

(** C5, as stated, fails on a table of two leaves: the reducer returns
    the single edge and raises nothing. *)
Lemma two_leaves_accepted :
  two_leaves
  = {[ 0 := {[ 0 := 0%float; 1 := 3%float ]};
       1 := {[ 0 := 3%float; 1 := 0%float ]} ]}
  ∧ valid_matrix 2 two_leaves ∧ size two_leaves < 3
  ∧ neighbor_join two_leaves = Ok ([(0, 1)], two_leaves)
  ∧ ¬ ∃ e, neighbor_join two_leaves = Raise e.
Proof.
  split; [vm_compute; reflexivity|].
  split; [apply valid_two_leaves|].
  assert (neighbor_join two_leaves = Ok ([(0, 1)], two_leaves)) as H
    by (vm_compute; reflexivity).
  split; [vm_compute; lia|]. split; [exact H|].
  intros [e He]. rewrite H in He. discriminate.
Qed.

(** C6.  On a symmetric zero-diagonal table over [{0, 1}] the loop does
    no iteration, nothing is raised, and [neighbor_join] returns the one
    edge [(0, 1)] and the table it was given. *)
Theorem neighbor_join_two (d : store) :
  valid_matrix 2 d →
  nj_loop (size d) (nj_init d) = Ok (nj_init d)
  ∧ neighbor_join d = Ok ([(0, 1)], d).
Proof.
  intros (Hm & _ & _). apply matrix_over_size in Hm.
  unfold neighbor_join, nj_init. by rewrite Hm.
Qed.

Lemma neighbor_join_two_witness :
  valid_matrix 2 two_leaves ∧
  nj_loop (size two_leaves) (nj_init two_leaves) = Ok (nj_init two_leaves)
  ∧ neighbor_join two_leaves = Ok ([(0, 1)], two_leaves).
Proof.
  split; [apply valid_two_leaves|].
  exact (neighbor_join_two two_leaves valid_two_leaves).
Defined.

(** C7.  After [neighbor_join] on a symmetric zero-diagonal table over
    [0..n-1], [n >= 3], the table has an entry for every pair of ids in
    [0..2n-3], it is symmetric there, and its diagonal is zero. *)
Theorem neighbor_join_store (n : nat) (d : store) :
  valid_matrix n d → 3 ≤ n →
  ∃ edges d',
    neighbor_join d = Ok (edges, d')
    ∧ ∀ a b, a < 2 * n - 2 → b < 2 * n - 2 →
        is_Some (lookup2 d' a b)
        ∧ lookup2 d' a b = lookup2 d' b a
        ∧ lookup2 d' a a = Some 0%float.
Proof.
  intros (Hm & Hsym & Hz) Hn.
  destruct (neighbor_join_run n d Hm)
    as (s & a & b & _ & Hrun & Hinv & _ & Hk & Hnj); [lia|].
  pose proof (matrix_over_size _ _ Hm) as Hsz.
  destruct (nj_run_symmetric n _ _ (nj_inv_init n d Hm) Hrun) as [Hsym' Hz'].
  { simpl. by rewrite Hsz. }
  { simpl. by rewrite Hsz. }
  eexists _, _. split; [exact Hnj|]. rewrite Hk in *.
  intros x y Hx Hy. split; [|split].
  - rewrite <- Hk in Hx, Hy. by apply (inv_complete _ _ Hinv).
  - by apply Hsym'.
  - by apply Hz'.
Qed.

Lemma neighbor_join_store_witness :
  valid_matrix 4 two_pairs ∧ 3 ≤ 4 ∧
  ∃ edges d',
    neighbor_join two_pairs = Ok (edges, d')
    ∧ ∀ a b, a < 2 * 4 - 2 → b < 2 * 4 - 2 →
        is_Some (lookup2 d' a b)
        ∧ lookup2 d' a b = lookup2 d' b a
        ∧ lookup2 d' a a = Some 0%float.
Proof.
  split; [apply valid_two_pairs|]. split; [lia|].
  apply (neighbor_join_store 4 two_pairs valid_two_pairs). lia.
Defined.

(** C8.  The four leaves in two close pairs: [d[0][1] = d[2][3] = 1],
    every cross distance is [10], the diagonal is [0].  The first
    iteration selects [(0, 1)] and makes the node [4], the second selects
    [(2, 3)] and makes the node [5], and the edges returned are
    [(0,4), (1,4), (2,5), (3,5), (4,5)]: no edge joins a leaf of one pair
    to the node of the other. *)
Theorem two_pairs_joined :
  two_pairs
  = {[ 0 := {[ 0 := 0%float; 1 := 1%float; 2 := 10%float; 3 := 10%float ]};
       1 := {[ 0 := 1%float; 1 := 0%float; 2 := 10%float; 3 := 10%float ]};
       2 := {[ 0 := 10%float; 1 := 10%float; 2 := 0%float; 3 := 1%float ]};
       3 := {[ 0 := 10%float; 1 := 10%float; 2 := 1%float; 3 := 0%float ]} ]}
  ∧ (fun p => (p.1.1, p.1.2)) <$> select (nj_init two_pairs) = Ok (0, 1)
  ∧ st_edges <$> nj_step (nj_init two_pairs) = Ok [(0, 4); (1, 4)]
  ∧ (fun p => (p.1.1, p.1.2)) <$> (nj_step (nj_init two_pairs) ≫= select)
    = Ok (2, 3)
  ∧ st_edges <$> (nj_step (nj_init two_pairs) ≫= nj_step)
    = Ok [(0, 4); (1, 4); (2, 5); (3, 5)]
  ∧ fst <$> neighbor_join two_pairs
    = Ok [(0, 4); (1, 4); (2, 5); (3, 5); (4, 5)].
Proof. repeat split; vm_compute; reflexivity. Qed.

(** C9, as amended.  When the serialization gets to a node whose list of
    children has a length other than 0 and 2, it produces no text: the
    call on that node raises [ValueError] (the list does not unpack into
    a pair), and the call on the root ends in an exception. *)
Theorem generate_newick_malformed (tm : tree) (d : store)
    (mapping : option (gmap nat string)) (root x : nat) (cs : list nat) :
  reaches tm root x → tm !! x = Some cs → length cs ≠ 0 → length cs ≠ 2 →
  (∀ limit first,
     generate_newick (S limit) x tm d mapping first = Raise ValueError)
  ∧ (∀ limit first,
       ∃ e, generate_newick limit root tm d mapping first = Raise e).
Proof.
  intros Hr Hx H0 H2. split.
  - intros limit first. by eapply generate_newick_bad_node.
  - by eapply generate_newick_reaches.
Qed.

Lemma generate_newick_malformed_witness :
  (reaches three_children 5 4 ∧ three_children !! 4 = Some [0; 1; 2]
   ∧ length [0; 1; 2] ≠ 0 ∧ length [0; 1; 2] ≠ 2)
  ∧ ((∀ limit first,
        generate_newick (S limit) 4 three_children ones6 None first
        = Raise ValueError)
     ∧ (∀ limit first,
          ∃ e, generate_newick limit 5 three_children ones6 None first
               = Raise e))
  ∧ generate_newick 3 3 three_children ones6 None false = Ok "3"
  ∧ generate_newick 3 5 three_children ones6 None true = Raise ValueError.
Proof.
  assert (reaches three_children 5 4) as Hr.
  { eapply reaches_right; [reflexivity | constructor]. }
  assert (three_children !! 4 = Some [0; 1; 2]) as Hx by reflexivity.
  assert (length [0; 1; 2] ≠ 0) as H0 by (simpl; lia).
  assert (length [0; 1; 2] ≠ 2) as H2 by (simpl; lia).
  split; [by repeat split|]. split.
  - exact (generate_newick_malformed three_children ones6 None 5 4 [0; 1; 2]
             Hr Hx H0 H2).
  - split; vm_compute; reflexivity.
Defined.

(** C9, as stated, fails for the assembly: on a star of three edges
    [assemble_tree] raises nothing and records the three children of
    the root. *)
Lemma assemble_tree_star :
  assemble_tree 10 0 [(0, 1); (0, 2); (0, 3)]
  = Ok {[ 0 := [1; 2; 3]; 1 := []; 2 := []; 3 := [] ]}
  ∧ ¬ ∃ e, assemble_tree 10 0 [(0, 1); (0, 2); (0, 3)] = Raise e.
Proof.
  assert (assemble_tree 10 0 [(0, 1); (0, 2); (0, 3)]
          = Ok {[ 0 := [1; 2; 3]; 1 := []; 2 := []; 3 := [] ]}) as H
    by (vm_compute; reflexivity).
  split; [exact H|]. intros [e He]. rewrite H in He. discriminate.
Qed.

(** C10.  On a table over [0..n-1] the call returns, and the entries
    between two of the ids [0..n-1] are afterwards what they were: an
    entry that differs has a row or a column [>= n]. *)
Theorem neighbor_join_frame (n : nat) (d : store) :
  matrix_over n d → 2 ≤ n →
  ∃ edges d',
    neighbor_join d = Ok (edges, d')
    ∧ (∀ i j, i < n → j < n → lookup2 d' i j = lookup2 d i j)
    ∧ (∀ i j, lookup2 d' i j ≠ lookup2 d i j → n ≤ i ∨ n ≤ j).
Proof.
  intros Hm Hn.
  destruct (neighbor_join_run n d Hm Hn)
    as (s & a & b & _ & Hrun & _ & _ & _ & Hnj).
  pose proof (matrix_over_size _ _ Hm) as Hsz.
  assert (∀ i j, i < n → j < n → lookup2 (st_d s) i j = lookup2 d i j) as Hfr.
  { intros i j Hi Hj.
    apply (nj_run_frame n _ _ Hrun); [simpl; lia | done | done]. }
  eexists _, _. split; [exact Hnj|]. split; [done|].
  intros i j Hne.
  destruct (decide (i < n)); [|lia]. destruct (decide (j < n)); [|lia].
  by destruct Hne; apply Hfr.
Qed.

Lemma neighbor_join_frame_witness :
  matrix_over 4 two_pairs ∧ 2 ≤ 4 ∧
  ∃ edges d',
    neighbor_join two_pairs = Ok (edges, d')
    ∧ (∀ i j, i < 4 → j < 4 → lookup2 d' i j = lookup2 two_pairs i j)
    ∧ (∀ i j, lookup2 d' i j ≠ lookup2 two_pairs i j → 4 ≤ i ∨ 4 ≤ j).
Proof.
  split; [apply matrix_over_table|]. split; [lia|].
  apply (neighbor_join_frame 4 two_pairs (matrix_over_table _ _)). lia.
Defined.

(** * Further properties *)

(** X1.  The edges that [neighbor_join] returns on a table over
    [0..n-1], [n >= 3], make an unrooted binary tree.  Every edge goes
    from an id to a later one.  Each id but the last, [2n-3], is the
    first end of exactly one edge.  The second ends are the new ids
    [n..2n-3], twice each, and [2n-3] once more for the last edge: a leaf
    is an end of one edge, a new id of three. *)
Theorem neighbor_join_tree (n : nat) (d : store) :
  matrix_over n d → 3 ≤ n →
  ∃ edges d',
    neighbor_join d = Ok (edges, d')
    ∧ (∀ e, e ∈ edges → e.1 < e.2)
    ∧ edges.*1 ≡ₚ seq 0 (2 * n - 3)
    ∧ edges.*2 = flat_map (fun x => [x; x]) (seq n (n - 2)) ++ [2 * n - 3].
Proof.
  intros Hm Hn.
  destruct (neighbor_join_edges n d Hm Hn)
    as (edges & d' & Hnj & Hup & Hperm & Hnew & _).
  by exists edges, d'.
Qed.

Lemma neighbor_join_tree_witness :
  matrix_over 4 two_pairs ∧ 3 ≤ 4 ∧
  ∃ edges d',
    neighbor_join two_pairs = Ok (edges, d')
    ∧ (∀ e, e ∈ edges → e.1 < e.2)
    ∧ edges.*1 ≡ₚ seq 0 (2 * 4 - 3)
    ∧ edges.*2 = flat_map (fun x => [x; x]) (seq 4 (4 - 2)) ++ [2 * 4 - 3].
Proof.
  split; [apply matrix_over_table|]. split; [lia|].
  apply (neighbor_join_tree 4 two_pairs (matrix_over_table _ _)). lia.
Defined.

(** X2.  What an iteration writes.  In a state [s] that the loop
    reaches from a table over [0..n-1], with more than two active ids,
    the iteration merges the pair [(i, j)] into the node [k] and leaves
    a table where, for every other id [m < k],
    [d[k][m] = d[m][k] = (1/2) * (d[i][m] + d[j][m] - d[i][j])], where
    [d[i][k] = d[k][i] = (1/2) * (d[i][j] + r[i] - r[j])] and
    [d[j][k] = d[k][j] = d[i][j] - d[i][k]], and where [d[k][k] = 0]; the
    right-hand sides are read in the table before the iteration. *)
Theorem nj_step_distances (n : nat) (d0 : store) (s : state) :
  matrix_over n d0 → nj_run (nj_init d0) s → 2 < length (st_L s) →
  ∃ i j r s',
    select s = Ok (i, j, r) ∧ nj_step s = Ok s'
    ∧ let k := st_k s in
      let d := st_d s in
      let d' := st_d s' in
      let bi := (half * (dget d i j + rsum d (st_L s) i - rsum d (st_L s) j))%float in
      (∀ m, m < k → m ≠ i → m ≠ j →
         lookup2 d' k m
         = Some (half * (dget d i m + dget d j m - dget d i j))%float
         ∧ lookup2 d' m k = lookup2 d' k m)
      ∧ lookup2 d' i k = Some bi ∧ lookup2 d' k i = Some bi
      ∧ lookup2 d' j k = Some (dget d i j - bi)%float
      ∧ lookup2 d' k j = Some (dget d i j - bi)%float
      ∧ lookup2 d' k k = Some 0%float.
Proof.
  intros Hm Hrun HL.
  pose proof (nj_run_inv n _ _ (nj_inv_init n d0 Hm) Hrun) as Hinv.
  destruct (nj_step_spec n s Hinv HL)
    as (s' & i & j & r & Hstep & Hsel & _ & _ & _ & _ & Hext).
  destruct (select_spec n s Hinv HL) as (i' & j' & r' & Hsel' & Er & Hbest).
  rewrite Hsel in Hsel'. injection Hsel' as <- <- <-.
  destruct (best_first _ _ _ Hbest) as (pos & Hpos & _).
  apply list_elem_of_lookup_2, elem_of_scan_pairs in Hpos as [Hi Hj].
  pose proof (best_ne _ _ _ Hbest) as Hij. simpl in Hi, Hj, Hij.
  pose proof (inv_below _ _ Hinv i Hi) as Hik.
  pose proof (inv_below _ _ Hinv j Hj) as Hjk.
  destruct (extend_values (st_d s) r i j (st_k s)
              (rsum (st_d s) (st_L s) i) (rsum (st_d s) (st_L s) j))
    as (d' & Hd' & Hnew & Hbi & Hbj);
    [apply Hinv | done | done | done
     | by rewrite Er, decide_True | by rewrite Er, decide_True |].
  assert (st_d s' = d') as Hds'.
  { unfold nj_step in Hstep. rewrite Hsel in Hstep. simpl in Hstep.
    inv_ok. subst s'. simpl. congruence. }
  exists i, j, r, s'. split; [done|]. split; [done|]. simpl. rewrite Hds'.
  rewrite Hds' in Hext. destruct Hext as [_ _ Hsym Hdiag _].
  split; [|split; [|split; [|split; [|split]]]]; try done.
  - intros m Hmk Hmi Hmj. split; [by apply Hnew|]. apply Hsym. lia.
  - rewrite <- Hsym by lia. done.
  - rewrite <- Hsym by lia. done.
Qed.

Lemma nj_step_distances_witness :
  let s := nj_init two_pairs in
  (matrix_over 4 two_pairs ∧ nj_run (nj_init two_pairs) s
   ∧ 2 < length (st_L s))
  ∧ ∃ i j r s',
    select s = Ok (i, j, r) ∧ nj_step s = Ok s'
    ∧ let k := st_k s in
      let d := st_d s in
      let d' := st_d s' in
      let bi := (half * (dget d i j + rsum d (st_L s) i - rsum d (st_L s) j))%float in
      (∀ m, m < k → m ≠ i → m ≠ j →
         lookup2 d' k m
         = Some (half * (dget d i m + dget d j m - dget d i j))%float
         ∧ lookup2 d' m k = lookup2 d' k m)
      ∧ lookup2 d' i k = Some bi ∧ lookup2 d' k i = Some bi
      ∧ lookup2 d' j k = Some (dget d i j - bi)%float
      ∧ lookup2 d' k j = Some (dget d i j - bi)%float
      ∧ lookup2 d' k k = Some 0%float.
Proof.
  intros s.
  assert (2 < length (st_L s)) as HL by (vm_compute; lia).
  split; [split; [apply matrix_over_table | split; [constructor | exact HL]]|].
  exact (nj_step_distances 4 two_pairs s (matrix_over_table _ _)
           (nj_run_refl _) HL).
Defined.

(** X3.  An incomplete table is refused with [KeyError]: when the table
    has [n >= 3] rows and some entry [d[i][j]] with [i, j < n] is
    missing, [neighbor_join] raises [KeyError], in the first iteration,
    when it adds up the distances. *)
Theorem neighbor_join_missing_entry (n : nat) (d : store) (i j : nat) :
  size d = n → 3 ≤ n → i < n → j < n → lookup2 d i j = None →
  averages d (seq 0 n) n = Raise KeyError
  ∧ neighbor_join d = Raise KeyError.
Proof.
  intros Hsz Hn Hi Hj Hnone.
  assert (averages d (seq 0 n) n = Raise KeyError) as Hav.
  { destruct (averages d (seq 0 n) n) as [r|e] eqn:E.
    - destruct (averages_Ok_entries _ _ _ _ E i j) as [x Hx];
        [done | apply elem_of_seq; lia | congruence].
    - f_equal. symmetry. eapply raises_averages; [|exact E].
      rewrite length_seq. lia. }
  split; [done|].
  unfold neighbor_join, nj_init. rewrite Hsz.
  destruct n as [|n']; [lia|]. cbn [nj_loop st_L].
  rewrite decide_True by (rewrite length_seq; lia).
  unfold nj_step, select. cbn [st_L st_d st_k]. by rewrite Hav.
Qed.

Lemma neighbor_join_missing_entry_witness :
  (size ragged3 = 3 ∧ 3 ≤ 3 ∧ 1 < 3 ∧ 2 < 3 ∧ lookup2 ragged3 1 2 = None)
  ∧ averages ragged3 (seq 0 3) 3 = Raise KeyError
  ∧ neighbor_join ragged3 = Raise KeyError.
Proof.
  assert (size ragged3 = 3) as Hsz by (vm_compute; reflexivity).
  assert (lookup2 ragged3 1 2 = None) as Hnone by (vm_compute; reflexivity).
  split; [repeat split; (done || lia)|].
  apply (neighbor_join_missing_entry 3 ragged3 1 2 Hsz); (done || lia).
Defined.

(** X4.  The root goes on the first of the longest edges.  Take a list
    of edges whose weights [d[i][j]] are numbers, one of them above [0].
    The root insertion of [main] removes one edge [(i, j)]: no edge is
    strictly longer, and every edge before it in the list is strictly
    shorter (so it is removed at its first and only place up to there).
    The root is the id [len(d)], and the edges [(i, root)] and
    [(j, root)] come at the end of the list, the other edges keeping
    their order. *)
Theorem insert_root_spec (edges : list edge) (d : store) :
  (∀ e, e ∈ edges →
     ∃ w, lookup2 d e.1 e.2 = Some w ∧ PrimFloat.is_nan w = false) →
  (∃ e, e ∈ edges ∧ (0 <? weight d e)%float = true) →
  ∃ i j pre post,
    edges = pre ++ (i, j) :: post
    ∧ ((i, j) ∉ pre)
    ∧ insert_root edges d
      = Ok (size d, (pre ++ post) ++ [(i, size d); (j, size d)])
    ∧ (∀ e, e ∈ edges → (weight d (i, j) <? weight d e)%float = false)
    ∧ (∀ e, e ∈ pre → (weight d e <? weight d (i, j))%float = true).
Proof.
  intros Hw Hpos.
  destruct (insert_root_longest edges d Hw Hpos)
    as (i & j & pre & post & Heq & Hins & Hmax & Hpre).
  exists i, j, pre, post. split; [done|]. split; [|by repeat split].
  intros Hin. apply Hpre in Hin. by rewrite ltb_irrefl in Hin.
Qed.

Lemma insert_root_spec_witness :
  ((∀ e, e ∈ ramp_edges →
      ∃ w, lookup2 ramp3 e.1 e.2 = Some w ∧ PrimFloat.is_nan w = false)
   ∧ (∃ e, e ∈ ramp_edges ∧ (0 <? weight ramp3 e)%float = true))
  ∧ (∃ i j pre post,
       ramp_edges = pre ++ (i, j) :: post
       ∧ ((i, j) ∉ pre)
       ∧ insert_root ramp_edges ramp3
         = Ok (size ramp3,
               (pre ++ post) ++ [(i, size ramp3); (j, size ramp3)])
       ∧ (∀ e, e ∈ ramp_edges →
            (weight ramp3 (i, j) <? weight ramp3 e)%float = false)
       ∧ (∀ e, e ∈ pre →
            (weight ramp3 e <? weight ramp3 (i, j))%float = true))
  ∧ weight ramp3 (1, 2) = weight ramp3 (2, 1)
  ∧ PrimFloat.ltb (weight ramp3 (0, 1)) (weight ramp3 (1, 2)) = true
  ∧ PrimFloat.ltb (weight ramp3 (0, 2)) (weight ramp3 (1, 2)) = true
  ∧ insert_root ramp_edges ramp3
    = Ok (3, [(0, 1); (2, 1); (0, 2); (1, 3); (2, 3)]).
Proof.
  assert (∀ e, e ∈ ramp_edges →
            ∃ w, lookup2 ramp3 e.1 e.2 = Some w
                 ∧ PrimFloat.is_nan w = false) as Hw.
  { intros e He. unfold ramp_edges in He. rewrite !elem_of_cons in He.
    destruct He as [->|[->|[->|[->|He]]]];
      [..|by apply elem_of_nil in He];
      eexists; (split; [vm_compute; reflexivity|]); vm_compute; reflexivity. }
  assert (∃ e, e ∈ ramp_edges ∧ (0 <? weight ramp3 e)%float = true) as Hpos.
  { exists (0, 1). split; [by left | vm_compute; reflexivity]. }
  split; [by split|]. split.
  - exact (insert_root_spec ramp_edges ramp3 Hw Hpos).
  - repeat split; vm_compute; reflexivity.
Defined.

(** X5.  When every edge has a weight and none is above [0], the scan
    of the root insertion keeps its starting value [(0, 0, 0)] and,
    [(0, 0)] not being an edge, the removal raises [ValueError].  An
    empty list of edges is such a case. *)
Theorem insert_root_no_longer_edge (edges : list edge) (d : store) :
  (∀ e, e ∈ edges →
     ∃ w, lookup2 d e.1 e.2 = Some w ∧ (0 <? w)%float = false) →
  (0, 0) ∉ edges →
  find_max edges d = Ok (0%float, 0, 0)
  ∧ insert_root edges d = Raise ValueError.
Proof.
  intros Hw H00.
  assert (find_max edges d = Ok (0%float, 0, 0)) as Hfm
    by (by apply find_max_none).
  split; [done|]. unfold insert_root. rewrite Hfm. simpl.
  by rewrite list_remove_absent.
Qed.

Lemma insert_root_no_longer_edge_witness :
  ((∀ e, e ∈ [(0, 1); (1, 2)] →
      ∃ w, lookup2 zeros3 e.1 e.2 = Some w ∧ (0 <? w)%float = false)
   ∧ (0, 0) ∉ [(0, 1); (1, 2)])
  ∧ find_max [(0, 1); (1, 2)] zeros3 = Ok (0%float, 0, 0)
  ∧ insert_root [(0, 1); (1, 2)] zeros3 = Raise ValueError.
Proof.
  assert (∀ e, e ∈ [(0, 1); (1, 2)] →
            ∃ w, lookup2 zeros3 e.1 e.2 = Some w ∧ (0 <? w)%float = false)
    as Hw.
  { intros e He. exists 0%float.
    apply elem_of_cons in He as [->|He];
      [|apply list_elem_of_singleton in He as ->];
      split; vm_compute; reflexivity. }
  assert ((0, 0) ∉ [(0, 1); (1, 2)]) as H00.
  { intros H. apply elem_of_cons in H as [[=]|H].
    by apply list_elem_of_singleton in H. }
  split; [by split|].
  exact (insert_root_no_longer_edge [(0, 1); (1, 2)] zeros3 Hw H00).
Defined.

(** X6.  When some edge has no weight in the table, the root insertion
    raises [KeyError]. *)
Theorem insert_root_missing_weight (edges : list edge) (d : store) (e : edge) :
  e ∈ edges → lookup2 d e.1 e.2 = None →
  insert_root edges d = Raise KeyError.
Proof.
  intros He Hnone. unfold insert_root.
  destruct (find_max edges d) as [acc|x] eqn:E; simpl.
  - destruct (find_max_Ok_weights _ _ _ _ E e He) as [w Hw]. congruence.
  - f_equal. symmetry. by eapply raises_find_max.
Qed.

Lemma insert_root_missing_weight_witness :
  ((0, 1) ∈ [(0, 1); (1, 5)] ∧ (1, 5) ∈ [(0, 1); (1, 5)]
   ∧ lookup2 zeros3 1 5 = None)
  ∧ insert_root [(0, 1); (1, 5)] zeros3 = Raise KeyError.
Proof.
  assert ((1, 5) ∈ [(0, 1); (1, 5)]) as He by (right; left).
  assert (lookup2 zeros3 (1, 5).1 (1, 5).2 = None) as Hnone
    by (vm_compute; reflexivity).
  split; [split; [by left | by split]|].
  exact (insert_root_missing_weight [(0, 1); (1, 5)] zeros3 (1, 5) He Hnone).
Defined.

(** X7.  With a limit above the number of edges, [assemble_tree] returns
    a map, whatever the edges (a cycle, a node of any degree).  The root
    is a key; a key is the root or an end of an edge; the children of a
    key are ids that an edge joins to it; and every child is a key. *)
Theorem assemble_tree_total (limit root : nat) (edges : list edge) :
  length edges < limit →
  ∃ t, assemble_tree limit root edges = Ok t
    ∧ is_Some (t !! root)
    ∧ (∀ x cs, t !! x = Some cs →
         (x = root ∨ is_end edges x)
         ∧ ∀ c, c ∈ cs → adjacent edges x c ∧ is_Some (t !! c)).
Proof.
  intros Hlen.
  destruct (assemble_tree_spec limit root edges Hlen)
    as (t & Ht & Hroot & Hcl & Hkeys & _).
  exists t. split; [done|]. split; [done|]. intros x cs Hx.
  destruct (Hkeys x cs Hx) as [Hk Hadj]. split; [done|].
  intros c Hc. split; [by apply Hadj | by eapply Hcl].
Qed.

Lemma assemble_tree_total_witness :
  length [(0, 1); (1, 2); (2, 0)] < 4 ∧
  ∃ t, assemble_tree 4 0 [(0, 1); (1, 2); (2, 0)] = Ok t
    ∧ is_Some (t !! 0)
    ∧ (∀ x cs, t !! x = Some cs →
         (x = 0 ∨ is_end [(0, 1); (1, 2); (2, 0)] x)
         ∧ ∀ c, c ∈ cs →
             adjacent [(0, 1); (1, 2); (2, 0)] x c ∧ is_Some (t !! c)).
Proof.
  assert (length [(0, 1); (1, 2); (2, 0)] < 4) as H by (simpl; lia).
  split; [exact H|].
  exact (assemble_tree_total 4 0 [(0, 1); (1, 2); (2, 0)] H).
Defined.

(** X8.  Where no edge joins the root to itself, the children that
    [assemble_tree] records for the root are the other ends of the edges
    at the root, in the order of the edges. *)
Theorem assemble_tree_root (limit root : nat) (edges : list edge) :
  length edges < limit → (root, root) ∉ edges →
  ∃ t, assemble_tree limit root edges = Ok t
    ∧ t !! root = Some (neighbours root edges).
Proof.
  intros Hlen Hloop.
  destruct (assemble_tree_spec limit root edges Hlen)
    as (t & Ht & _ & _ & _ & Hval).
  exists t. split; [done | by apply Hval].
Qed.

Lemma assemble_tree_root_witness :
  (length [(0, 3); (3, 1); (2, 3)] < 4 ∧ (3, 3) ∉ [(0, 3); (3, 1); (2, 3)])
  ∧ ∃ t, assemble_tree 4 3 [(0, 3); (3, 1); (2, 3)] = Ok t
      ∧ t !! 3 = Some (neighbours 3 [(0, 3); (3, 1); (2, 3)]).
Proof.
  assert (length [(0, 3); (3, 1); (2, 3)] < 4) as H by (simpl; lia).
  assert ((3, 3) ∉ [(0, 3); (3, 1); (2, 3)]) as Hloop.
  { intros Hin. repeat (apply elem_of_cons in Hin as [[=]|Hin]).
    by apply elem_of_nil in Hin. }
  split; [by split|].
  exact (assemble_tree_root 4 3 [(0, 3); (3, 1); (2, 3)] H Hloop).
Defined.

(** X9.  Where every id within reach of the root is a key of the map,
    [bfs] returns the ids within reach of the root, each once, the root
    first. *)
Theorem bfs_reachable (root : nat) (tm : tree) :
  (∀ x, rtc (child tm) root x → is_Some (tm !! x)) →
  ∃ v, bfs root tm = Ok v
    ∧ head v = Some root ∧ NoDup v
    ∧ ∀ x, x ∈ v ↔ rtc (child tm) root x.
Proof.
  intros Hkeys. pose proof (bfs_spec_aux tm root) as H.
  destruct (bfs root tm) as [v|e].
  - exists v. by destruct H as (? & ? & ? & _).
  - destruct H as (_ & x & Hx & Hnone).
    destruct (Hkeys x Hx) as [cs Hcs]. congruence.
Qed.

Lemma bfs_reachable_witness :
  (∀ x, rtc (child cherry) 2 x → is_Some (cherry !! x))
  ∧ ∃ v, bfs 2 cherry = Ok v
      ∧ head v = Some 2 ∧ NoDup v
      ∧ ∀ x, x ∈ v ↔ rtc (child cherry) 2 x.
Proof.
  assert (∀ x, rtc (child cherry) 2 x → is_Some (cherry !! x)) as Hkeys.
  { intros x Hx.
    apply (rtc_ind_r (R := child cherry) (fun x => is_Some (cherry !! x)) 2);
      [by eexists | | exact Hx].
    intros y z _ (cs & Hcs & Hz) _.
    assert (y = 2 ∨ y = 0 ∨ y = 1) as Hy.
    { destruct (decide (y = 2)); [by left|].
      destruct (decide (y = 0)); [by auto|].
      destruct (decide (y = 1)); [by auto|].
      unfold cherry in Hcs.
      by rewrite !lookup_insert_ne, lookup_singleton_ne in Hcs. }
    destruct Hy as [->|[->| ->]]; vm_compute in Hcs; simplify_eq;
      repeat (apply elem_of_cons in Hz as [->|Hz]; [by eexists|]);
      by apply elem_of_nil in Hz. }
  split; [exact Hkeys|]. exact (bfs_reachable 2 cherry Hkeys).
Defined.

(** X10.  Where some id within reach of the root is no key of the map,
    [bfs] raises [KeyError]. *)
Theorem bfs_missing_key (root x : nat) (tm : tree) :
  rtc (child tm) root x → tm !! x = None → bfs root tm = Raise KeyError.
Proof.
  intros Hx Hnone. pose proof (bfs_spec_aux tm root) as H.
  destruct (bfs root tm) as [v|e].
  - destruct H as (_ & _ & Hv & Hk).
    destruct (Hk x) as [cs Hcs]; [by apply Hv | congruence].
  - by destruct H as [-> _].
Qed.

Lemma bfs_missing_key_witness :
  (rtc (child {[ 0 := [1; 2]; 1 := [] ]}) 0 2
   ∧ ({[ 0 := [1; 2]; 1 := [] ]} : tree) !! 2 = None)
  ∧ bfs 0 {[ 0 := [1; 2]; 1 := [] ]} = Raise KeyError.
Proof.
  assert (rtc (child {[ 0 := [1; 2]; 1 := [] ]}) 0 2) as Hx.
  { apply rtc_once. exists [1; 2]. split; [reflexivity|]. right. by left. }
  assert (({[ 0 := [1; 2]; 1 := [] ]} : tree) !! 2 = None) as Hnone
    by reflexivity.
  split; [by split|].
  exact (bfs_missing_key 0 2 _ Hx Hnone).
Defined.

(** X11.  [bfs] runs on what [assemble_tree] returns: for every list of
    edges and every root, with a limit above the number of edges, the
    traversal of the assembled map raises nothing and returns a list
    without repetition that starts with the root; each id in it is the
    root or an end of an edge. *)
Theorem bfs_assemble_tree (limit root : nat) (edges : list edge) :
  length edges < limit →
  ∃ t v,
    assemble_tree limit root edges = Ok t ∧ bfs root t = Ok v
    ∧ head v = Some root ∧ NoDup v
    ∧ ∀ x, x ∈ v → x = root ∨ is_end edges x.
Proof.
  intros Hlen.
  destruct (assemble_tree_spec limit root edges Hlen)
    as (t & Ht & Hroot & Hcl & Hkeys & _).
  assert (∀ x, rtc (child t) root x → is_Some (t !! x)) as Hreach.
  { intros x Hx.
    apply (rtc_ind_r (R := child t) (fun x => is_Some (t !! x)) root);
      [done | | exact Hx].
    intros y z _ (cs & Hcs & Hz) _. by eapply Hcl. }
  destruct (bfs_reachable root t Hreach) as (v & Hv & Hhd & Hnd & Hin).
  exists t, v. repeat (split; [done|]).
  intros x Hx. destruct (Hreach x) as [cs Hcs]; [by apply Hin|].
  by destruct (Hkeys x cs Hcs).
Qed.

Lemma bfs_assemble_tree_witness :
  length [(0, 1); (1, 2); (2, 0)] < 4 ∧
  ∃ t v,
    assemble_tree 4 0 [(0, 1); (1, 2); (2, 0)] = Ok t ∧ bfs 0 t = Ok v
    ∧ head v = Some 0 ∧ NoDup v
    ∧ ∀ x, x ∈ v → x = 0 ∨ is_end [(0, 1); (1, 2); (2, 0)] x.
Proof.
  assert (length [(0, 1); (1, 2); (2, 0)] < 4) as H by (simpl; lia).
  split; [exact H|].
  exact (bfs_assemble_tree 4 0 [(0, 1); (1, 2); (2, 0)] H).
Defined.

(** X12.  [generate_newick] returns a text on a binary tree.  Let the
    root have the children [(i, j)], let the map below [i] and below [j]
    be a binary tree (every node there has no child or two), of [hi] and
    [hj] levels, let the table have [d[i][j]] and the length
    [d[x][c]] of every branch from a node [x] below the root to a child
    [c], and let every leaf have a name where names are given.  Then the
    outermost call, allowed more than [max hi hj] nested calls, returns
    the text of the tree. *)
Theorem generate_newick_binary (limit root i j hi hj : nat) (tm : tree)
    (d : store) (mapping : option (gmap nat string)) :
  tm !! root = Some [i; j] → is_Some (lookup2 d i j) →
  printable tm d mapping i hi → printable tm d mapping j hj →
  hi `max` hj < limit →
  ∃ ti tj x,
    generate_newick (limit - 1) i tm d mapping false = Ok ti
    ∧ generate_newick (limit - 1) j tm d mapping false = Ok tj
    ∧ lookup2 d i j = Some x
    ∧ generate_newick limit root tm d mapping true
      = Ok (node_format ti (x / 2) tj (x / 2) +:+ ";").
Proof. apply generate_newick_first. Qed.

Lemma generate_newick_binary_witness :
  (cherry !! 2 = Some [0; 1] ∧ is_Some (lookup2 cherry_store 0 1)
   ∧ printable cherry cherry_store None 0 1
   ∧ printable cherry cherry_store None 1 1
   ∧ 1 `max` 1 < 2)
  ∧ ∃ ti tj x,
    generate_newick (2 - 1) 0 cherry cherry_store None false = Ok ti
    ∧ generate_newick (2 - 1) 1 cherry cherry_store None false = Ok tj
    ∧ lookup2 cherry_store 0 1 = Some x
    ∧ generate_newick 2 2 cherry cherry_store None true
      = Ok (node_format ti (x / 2) tj (x / 2) +:+ ";").
Proof.
  assert (cherry !! 2 = Some [0; 1]) as Hroot by reflexivity.
  assert (is_Some (lookup2 cherry_store 0 1)) as Hx
    by (eexists; vm_compute; reflexivity).
  assert (printable cherry cherry_store None 0 1) as Hi
    by (by apply printable_leaf).
  assert (printable cherry cherry_store None 1 1) as Hj
    by (by apply printable_leaf).
  assert (1 `max` 1 < 2) as Hlimit by (simpl; lia).
  split; [done|].
  exact (generate_newick_binary 2 2 0 1 1 1 cherry cherry_store None
           Hroot Hx Hi Hj Hlimit).
Defined.

(** X13.  The table that [main] builds from [n] points with integer
    coordinates from 1 to 100, as they are drawn, is a table the reducer
    accepts: it is over [0..n-1], its entry at [(i, j)] is the distance
    computed from the points [i] and [j], a number that is above [0]
    when the two points differ; it is symmetric and its diagonal is
    zero; with three points or more, [neighbor_join] returns [2n - 3]
    edges on it. *)
Theorem distance_table_valid (n : nat) (points : list point) :
  length points = n → Forall drawn points →
  ∃ d, distance_table n points = Ok d
    ∧ valid_matrix n d
    ∧ (∀ i j p q, points !! i = Some p → points !! j = Some q →
         lookup2 d i j = Some (distance p q)
         ∧ PrimFloat.is_nan (distance p q) = false
         ∧ (p ≠ q → (0 <? distance p q)%float = true))
    ∧ (3 ≤ n → ∃ edges d',
         neighbor_join d = Ok (edges, d') ∧ length edges = 2 * n - 3).
Proof.
  intros Hlen Hdrawn.
  destruct (distance_table_spec n points Hlen) as (d & Hd & Hdom & Hent).
  assert (matrix_over n d) as Hm.
  { split; [done|]. intros a b Ha Hb. rewrite Hent by done. eauto. }
  exists d. split; [done|]. split; [|split].
  - split; [done|]. split.
    + intros a b Ha Hb. rewrite !Hent by done. f_equal. apply distance_sym.
    + intros a Ha. rewrite Hent by done. f_equal. apply distance_diag.
  - intros i j p q Hp Hq. split.
    + rewrite Hent, Hp, Hq; [done | |];
        rewrite <- Hlen; by eapply lookup_lt_Some.
    + rewrite Forall_forall in Hdrawn.
      apply distance_number; apply Hdrawn; by eapply list_elem_of_lookup_2.
  - intros Hn.
    destruct (neighbor_join_run n d Hm)
      as (s & a & b & _ & _ & Hinv & _ & Hk & Hnj); [lia|].
    eexists _, _. split; [exact Hnj|].
    rewrite length_app, (inv_edges _ _ Hinv), Hk. simpl. lia.
Qed.

Lemma distance_table_valid_witness :
  (length three_points = 3 ∧ Forall drawn three_points)
  ∧ ∃ d, distance_table 3 three_points = Ok d
    ∧ valid_matrix 3 d
    ∧ (∀ i j p q, three_points !! i = Some p → three_points !! j = Some q →
         lookup2 d i j = Some (distance p q)
         ∧ PrimFloat.is_nan (distance p q) = false
         ∧ (p ≠ q → (0 <? distance p q)%float = true))
    ∧ (3 ≤ 3 → ∃ edges d',
         neighbor_join d = Ok (edges, d') ∧ length edges = 2 * 3 - 3).
Proof.
  assert (length three_points = 3) as Hlen by reflexivity.
  assert (Forall drawn three_points) as Hb.
  { repeat constructor; simpl; lia. }
  split; [by split|].
  exact (distance_table_valid 3 three_points Hlen Hb).
Defined.

(** X14.  [assemble_tree] turns a tree into the tree rooted at [root].
    Let [rank] give every node a number such that the two ends of an
    edge differ in rank, no node has two neighbours of a lower rank, and
    [root] has none (the rank is, for instance, the distance from the
    root in a tree).  With a limit above the number of edges the call
    returns a map whose keys are the nodes within reach of the root
    along edges of growing rank, and the list of every key is the list
    of its neighbours of a higher rank, in the order of the edges: no
    entry is lost or overwritten by another one. *)
Theorem assemble_tree_rooted (rank : nat → nat) (limit root : nat)
    (edges : list edge) :
  rooted rank edges root → length edges < limit →
  ∃ t, assemble_tree limit root edges = Ok t
    ∧ (∀ y, is_Some (t !! y)
            ↔ rtc (fun a b => b ∈ up rank edges a) root y)
    ∧ (∀ y cs, t !! y = Some cs → cs = up rank edges y).
Proof. intros Hrooted. by apply assemble_rooted. Qed.

Lemma assemble_tree_rooted_witness :
  (rooted path4_rank path4 1 ∧ length path4 < 4)
  ∧ ∃ t, assemble_tree 4 1 path4 = Ok t
    ∧ (∀ y, is_Some (t !! y)
            ↔ rtc (fun a b => b ∈ up path4_rank path4 a) 1 y)
    ∧ (∀ y cs, t !! y = Some cs → cs = up path4_rank path4 y).
Proof.
  assert (∀ y z, z ∈ neighbours y path4 →
            (y, z) ∈ [(0, 1); (1, 0); (1, 2); (2, 1); (2, 3); (3, 2)])
    as Hadj.
  { intros y z [Hyz|Hzy]%elem_of_neighbours.
    - repeat (apply elem_of_cons in Hyz as [[= -> ->]|Hyz];
              [rewrite !elem_of_cons; tauto|]).
      by apply elem_of_nil in Hyz.
    - repeat (apply elem_of_cons in Hzy as [[= -> ->]|Hzy];
              [rewrite !elem_of_cons; tauto|]).
      by apply elem_of_nil in Hzy. }
  assert (rooted path4_rank path4 1) as Hrooted.
  { split.
    - intros y z Hz%Hadj.
      repeat (apply elem_of_cons in Hz as [Hz|Hz];
              [simplify_eq; vm_compute; lia|]).
      by apply elem_of_nil in Hz.
    - intros y z z' Hz%Hadj Hz'%Hadj.
      repeat (apply elem_of_cons in Hz as [Hz|Hz];
              [repeat (apply elem_of_cons in Hz' as [Hz'|Hz'];
                       [simplify_eq; vm_compute; lia|]);
               by apply elem_of_nil in Hz'|]).
      by apply elem_of_nil in Hz.
    - intros z Hz%Hadj.
      repeat (apply elem_of_cons in Hz as [Hz|Hz];
              [simplify_eq; vm_compute; lia|]).
      by apply elem_of_nil in Hz. }
  assert (length path4 < 4) as Hlen by (simpl; lia).
  split; [by split|].
  exact (assemble_tree_rooted path4_rank 4 1 path4 Hrooted Hlen).
Defined.

(** X15.  The calls of [main] fit together.  On every table over
    [0..n-1], [n >= 3], [neighbor_join] returns its edges and the
    extended table.  The root insertion then either finds no edge longer
    than [0] and raises [ValueError], or cuts an edge [(i, j)] longer
    than [0] and puts the root [2n-2] on it.  In that case, with a
    recursion limit of [4n] or more, [assemble_tree] returns a binary
    tree on the ids [0..2n-2]: the root has the children [(i, j)], the
    leaves [0..n-1] have none and every other id has two;
    [generate_newick] returns a text for it, and [bfs] returns the
    [2n-1] ids, each once. *)
Theorem main_pipeline (n limit : nat) (d : store) :
  matrix_over n d → 3 ≤ n → 4 * n ≤ limit →
  ∃ edges d',
    neighbor_join d = Ok (edges, d')
    ∧ (((∀ e, e ∈ edges → (0 <? weight d' e)%float = false)
        ∧ insert_root edges d' = Raise ValueError)
       ∨ ∃ i j edges' t s v,
           (i, j) ∈ edges
           ∧ (0 <? weight d' (i, j))%float = true
           ∧ insert_root edges d' = Ok (2 * n - 2, edges')
           ∧ assemble_tree limit (2 * n - 2) edges' = Ok t
           ∧ t !! (2 * n - 2) = Some [i; j]
           ∧ (∀ y, y < n → t !! y = Some [])
           ∧ (∀ y, n ≤ y < 2 * n - 2 → ∃ a b, t !! y = Some [a; b])
           ∧ dom t = set_seq 0 (2 * n - 1)
           ∧ generate_newick limit (2 * n - 2) t d' None true = Ok s
           ∧ bfs (2 * n - 2) t = Ok v
           ∧ v ≡ₚ seq 0 (2 * n - 1)).
Proof.
  intros Hm Hn Hlimit.
  destruct (neighbor_join_edges n d Hm Hn)
    as (edges & d' & Hnj & Hup & Hperm & Hnew & Hd & Hsize).
  exists edges, d'. split; [done|].
  assert (∀ e, e ∈ edges → e.2 ≤ 2 * n - 3) as Hsnd.
  { intros e He.
    assert (e.2 ∈ edges.*2) as Hin
      by (apply list_elem_of_fmap; by exists e).
    rewrite Hnew in Hin.
    apply elem_of_app in Hin as [Hin| ->%list_elem_of_singleton]; [|lia].
    apply list_elem_of_In, in_flat_map in Hin as (x & Hx & Hin).
    apply in_seq in Hx. simpl in Hin. intuition lia. }
  destruct (insert_root_cases edges d') as [?|(i & j & pre & post & Hcut & Hpos & Hins)].
  - intros e He. pose proof (Hup e He). pose proof (Hsnd e He).
    apply Hd; lia.
  - intros H0%Hup. simpl in H0. lia.
  - by left.
  - right. rewrite Hsize in Hins.
    replace (2 * n - 2) with (S (2 * n - 3)) in * by lia.
    replace (2 * n - 1) with (S (S (2 * n - 3))) by lia.
    destruct (rooted_run n (2 * n - 3) limit edges pre post i j d')
      as (t & s & v & Ht & Hroot & Hleaf & Hnode & Hdom & Hs & Hbfs & Hv);
      try done.
    exists i, j, ((pre ++ post) ++ [(i, S (2 * n - 3)); (j, S (2 * n - 3))]),
      t, s, v.
    split.
    { rewrite Hcut. apply elem_of_app. right. by left. }
    repeat (split; [done|]). split; [|done].
    intros y Hy. apply Hnode. lia.
Qed.

Lemma main_pipeline_witness :
  (matrix_over 4 two_pairs ∧ 3 ≤ 4 ∧ 4 * 4 ≤ 16)
  ∧ ∃ edges d',
    neighbor_join two_pairs = Ok (edges, d')
    ∧ (((∀ e, e ∈ edges → (0 <? weight d' e)%float = false)
        ∧ insert_root edges d' = Raise ValueError)
       ∨ ∃ i j edges' t s v,
           (i, j) ∈ edges
           ∧ (0 <? weight d' (i, j))%float = true
           ∧ insert_root edges d' = Ok (2 * 4 - 2, edges')
           ∧ assemble_tree 16 (2 * 4 - 2) edges' = Ok t
           ∧ t !! (2 * 4 - 2) = Some [i; j]
           ∧ (∀ y, y < 4 → t !! y = Some [])
           ∧ (∀ y, 4 ≤ y < 2 * 4 - 2 → ∃ a b, t !! y = Some [a; b])
           ∧ dom t = set_seq 0 (2 * 4 - 1)
           ∧ generate_newick 16 (2 * 4 - 2) t d' None true = Ok s
           ∧ bfs (2 * 4 - 2) t = Ok v
           ∧ v ≡ₚ seq 0 (2 * 4 - 1)).
Proof.
  assert (matrix_over 4 two_pairs) as Hm by apply matrix_over_table.
  assert (3 ≤ 4) as Hn by lia.
  assert (4 * 4 ≤ 16) as Hlimit by lia.
  split; [exact (conj Hm (conj Hn Hlimit))|].
  exact (main_pipeline 4 16 two_pairs Hm Hn Hlimit).
Defined.

(** X16.  [bfs] visits the ids in the order of their distance from the
    root.  When the call returns the list [v], an id at a later place of
    [v] is no nearer to the root than an id at an earlier place:
    whenever the later one is within [k] steps of the root along the
    lists of children, so is the earlier one.  The map may be any graph:
    an id met again is skipped when it leaves the queue. *)
Theorem bfs_level_order (root : nat) (tm : tree) (v : list nat)
    (a b x y k : nat) :
  bfs root tm = Ok v → a ≤ b → v !! a = Some x → v !! b = Some y →
  bsteps (child tm) k root y → bsteps (child tm) k root x.
Proof. intros Hv Hab Ha Hb. by apply (bfs_levels tm root v Hv a b). Qed.

Lemma bfs_level_order_witness :
  (bfs 2 cherry = Ok [2; 0; 1] ∧ 1 ≤ 2
   ∧ [2; 0; 1] !! 1 = Some 0 ∧ [2; 0; 1] !! 2 = Some 1
   ∧ bsteps (child cherry) 1 2 1)
  ∧ bsteps (child cherry) 1 2 0.
Proof.
  assert (bfs 2 cherry = Ok [2; 0; 1]) as Hv by (vm_compute; reflexivity).
  assert (1 ≤ 2) as Hab by lia.
  assert ([2; 0; 1] !! 1 = Some 0) as Ha by reflexivity.
  assert ([2; 0; 1] !! 2 = Some 1) as Hb by reflexivity.
  assert (bsteps (child cherry) 1 2 1) as Hy.
  { apply bsteps_once. exists [0; 1]. split; [reflexivity|].
    right. by left. }
  split; [by repeat split|].
  exact (bfs_level_order 2 cherry [2; 0; 1] 1 2 0 1 1 Hv Hab Ha Hb Hy).
Defined.

Example three_points_distances :
  (fun d => (lookup2 d 0 1, lookup2 d 0 2, lookup2 d 1 2))
    <$> distance_table 3 three_points
  = Ok (Some 5%float, Some 4%float, Some 3%float).
Proof. vm_compute. reflexivity. Qed.
